(** * ABX exchange client: framing, gap analysis and recovery

    A shallow embedding of [client.cpp].  The client streams fixed-size
    17-byte records from a TCP feed, stores them in a [std::map] keyed by
    sequence number, computes the sequence numbers that are missing from
    [1, max], asks for each of them on a fresh connection, and finally
    renders the map as a JSON array.

    Conventions of the embedding:
    - a [char] of a buffer is a [Byte.byte]; [uchar] is its value as an
      [unsigned char];
    - an [int32_t] is a [Z] with the two's-complement wrap-around written
      out ([to_int32]);
    - a socket is the script of what the peer does next; [recv] consumes
      it, and a [recv] that would wait for ever is a result of its own;
    - loops that the C++ text does not bound syntactically take a fuel
      argument and answer [None] when it runs out;
    - the one exception that is modelled is the one [push_back] throws
      when the vector of missing numbers is full; the handler at the
      end of [main] catches it.

    The first part holds the program, the second part its properties. *)

From Stdlib Require Import ZArith List Bool Lia Sorted.
From Stdlib.Strings Require Import Byte.
From Stdlib Require DecimalZ.
Import ListNotations.

Local Open Scope Z_scope.

(** * The program *)

(** ** Machine integers *)

Module Int32.

Definition INT32_MIN : Z := -2147483648.
Definition INT32_MAX : Z := 2147483647.

Definition in_range (z : Z) : Prop := INT32_MIN <= z <= INT32_MAX.

(** Reduction of an integer to the [int32_t] congruent to it. *)
Definition to_int32 (z : Z) : Z := (z + 2 ^ 31) mod 2 ^ 32 - 2 ^ 31.

(** [x << n] at type [int32_t]. *)
Definition shl (x n : Z) : Z := to_int32 (Z.shiftl x n).

(** [++i] at type [int32_t]. *)
Definition incr (i : Z) : Z := to_int32 (i + 1).

(** [static_cast<unsigned char>(z)]. *)
Definition to_uchar (z : Z) : Z := z mod 2 ^ 8.

End Int32.

(** [reinterpret_cast<const unsigned char*>]: the value of a buffer byte
    read as an [unsigned char]. *)
Definition uchar (b : byte) : Z := Z.of_N (Byte.to_N b).

(** ** Packets *)

Record Packet : Type := mkPacket {
  symbol : list byte;
  buysell_indicator : byte;
  quantity : Z;
  price : Z;
  sequence : Z
}.

Definition PACKET_SIZE : nat := 17.

(** [raw_data.data() + offset], indexed.  The callers only read inside
    the vector; a read past its end is modelled as a zero byte. *)
Definition data_at (raw_data : list byte) (offset i : nat) : byte :=
  nth (offset + i) raw_data x00.

(** The shift-and-or expression shared by the three integer fields. *)
Definition combine_be (d0 d1 d2 d3 : byte) : Z :=
  Z.lor (Z.lor (Z.lor (Int32.shl (uchar d0) 24)
                      (Int32.shl (uchar d1) 16))
               (Int32.shl (uchar d2) 8))
        (uchar d3).

Definition parse_packet (raw_data : list byte) (offset : nat) : Packet :=
  let data := data_at raw_data offset in
  {| symbol := [data 0%nat; data 1%nat; data 2%nat; data 3%nat];
     buysell_indicator := data 4%nat;
     quantity := combine_be (data 5%nat) (data 6%nat) (data 7%nat) (data 8%nat);
     price := combine_be (data 9%nat) (data 10%nat) (data 11%nat) (data 12%nat);
     sequence :=
       combine_be (data 13%nat) (data 14%nat) (data 15%nat) (data 16%nat) |}.

(** *** The wire layout, as the protocol describes it *)

(** Unsigned value of a big-endian byte string. *)
Definition be_unsigned (bs : list byte) : Z :=
  fold_left (fun acc b => acc * 256 + uchar b) bs 0.

(** Two's-complement reading of a 32-bit unsigned value. *)
Definition signed32 (u : Z) : Z := if u <? 2 ^ 31 then u else u - 2 ^ 32.

(** The signed 32-bit big-endian integer stored at [off] in a window. *)
Definition be_int32_at (w : list byte) (off : nat) : Z :=
  signed32 (be_unsigned (firstn 4 (skipn off w))).

(** A window read field by field at the offsets of the wire layout
    [symbol[4] | side[1] | quantity[4] | price[4] | sequence[4]]. *)
Definition wire_record (w : list byte) : Packet :=
  {| symbol := firstn 4 w;
     buysell_indicator := nth 4 w x00;
     quantity := be_int32_at w 5;
     price := be_int32_at w 9;
     sequence := be_int32_at w 13 |}.

(** ** The record store: [std::map<int32_t, Packet>]

    The map is kept as the list of its entries in iteration order, that
    is, by ascending key.  [assign] is [m[k] = v]. *)

Module PacketMap.

Definition t : Type := list (Z * Packet).

Definition empty : t := [].

Definition is_empty (m : t) : bool :=
  match m with [] => true | _ :: _ => false end.

Definition size (m : t) : nat := length m.

(** [m.find(k)]; [None] stands for [m.end()]. *)
Fixpoint find (k : Z) (m : t) : option Packet :=
  match m with
  | [] => None
  | (k', v) :: m' => if k =? k' then Some v else find k m'
  end.

(** [m[k] = v]: the entry is created at its place in the key order when
    the key is new and overwritten when it is not. *)
Fixpoint assign (k : Z) (v : Packet) (m : t) : t :=
  match m with
  | [] => [(k, v)]
  | (k', v') :: m' =>
      if k <? k' then (k, v) :: (k', v') :: m'
      else if k =? k' then (k, v) :: m'
      else (k', v') :: assign k v m'
  end.

(** [*m.rbegin()], the entry with the greatest key. *)
Fixpoint rbegin (m : t) : option (Z * Packet) :=
  match m with
  | [] => None
  | [e] => Some e
  | _ :: m' => rbegin m'
  end.

Definition keys (m : t) : list Z := map fst m.

(** The representation invariant of the container: strictly ascending
    keys. *)
Definition ordered (m : t) : Prop := StronglySorted Z.lt (keys m).

End PacketMap.

(** [received_packets[packet.sequence] = packet]. *)
Definition store_packet (packet : Packet) (m : PacketMap.t) : PacketMap.t :=
  PacketMap.assign (sequence packet) packet m.

(** Every entry of the client's map is filed under the sequence number
    it carries, since [store_packet] is the only writer. *)
Definition keyed_by_sequence (m : PacketMap.t) : Prop :=
  Forall (fun e => fst e = sequence (snd e)) m.

(** ** Sockets

    A connection is the script of what its peer does next: deliver a
    segment of bytes, close, or let the call fail.  When the script is
    exhausted the peer stays silent.  On a socket whose receive timeout
    ([SO_RCVTIMEO]) was set the call then ends with [EAGAIN]; on a
    socket without one it never returns. *)

Inductive errno : Type := EAGAIN | EWOULDBLOCK | ECONNRESET | EBADF.

Inductive event : Type :=
| Segment (bytes : list byte)
| PeerClose
| Fault (e : errno).

Definition socket : Type := list event.

(** What one call of [recv] does: [Received data] is a positive return
    value with the bytes stored, [Closed] is 0, [Failed e] is -1 with
    [errno] set to [e]; [Blocked] is a call that never returns. *)
Inductive recv_result : Type :=
| Received (data : list byte)
| Closed
| Failed (e : errno)
| Blocked.

(** [recv(sock, buf, len, 0)] on a socket whose receive timeout is set
    ([timed]) or not.  At most [len] bytes of the segment at the head
    are delivered; the rest of it stays queued. *)
Fixpoint recv (timed : bool) (sock : socket) (len : nat)
  : recv_result * socket :=
  match sock with
  | [] => (if timed then Failed EAGAIN else Blocked, [])
  | Segment [] :: rest => recv timed rest len
  | Segment bytes :: rest =>
      if (length bytes <=? len)%nat then (Received bytes, rest)
      else (Received (firstn len bytes), Segment (skipn len bytes) :: rest)
  | PeerClose :: rest => (Closed, rest)
  | Fault e :: rest => (Failed e, rest)
  end.

(** [errno == EAGAIN || errno == EWOULDBLOCK] *)
Definition is_timeout (e : errno) : bool :=
  match e with EAGAIN | EWOULDBLOCK => true | _ => false end.

(** A bound on the number of [recv] calls a script answers. *)
Fixpoint script_weight (sock : socket) : nat :=
  match sock with
  | [] => 1
  | Segment bytes :: rest => S (length bytes + script_weight rest)
  | _ :: rest => S (script_weight rest)
  end.

(** The bytes a script delivers before its first closing event. *)
Fixpoint delivered (sock : socket) : list byte :=
  match sock with
  | Segment bytes :: rest => bytes ++ delivered rest
  | _ => []
  end.

(** ** Fuel *)

Definition bind {A B : Type} (c : option A) (k : A -> option B) : option B :=
  match c with Some a => k a | None => None end.

Notation "x <- c ;; k" := (bind c (fun x => k))
  (at level 61, c at next level, right associativity).

(** ** Stage 3: the streaming receive loop *)

(** The loop's variables.  [decoded] is a history variable, not program
    state: the packets in the order [parse_packet] produced them. *)
Record stream_state : Type := mkStream {
  receive_buffer : list byte;
  received_packets : PacketMap.t;
  decoded : list Packet
}.

Definition TEMP_BUFFER_SIZE : nat := 1024.

(** [receive_buffer.insert(receive_buffer.end(), ...)] *)
Definition append_chunk (data : list byte) (st : stream_state) : stream_state :=
  {| receive_buffer := receive_buffer st ++ data;
     received_packets := received_packets st;
     decoded := decoded st |}.

(** One turn of the inner loop: parse at offset 0, store, erase. *)
Definition take_packet (st : stream_state) : stream_state :=
  let packet := parse_packet (receive_buffer st) 0 in
  {| receive_buffer := skipn PACKET_SIZE (receive_buffer st);
     received_packets := store_packet packet (received_packets st);
     decoded := decoded st ++ [packet] |}.

(** [while (receive_buffer.size() >= PACKET_SIZE) { ... }] *)
Fixpoint drain_loop (fuel : nat) (st : stream_state) : option stream_state :=
  match fuel with
  | O => None
  | S fuel' =>
      if (PACKET_SIZE <=? length (receive_buffer st))%nat
      then drain_loop fuel' (take_packet st)
      else Some st
  end.

Definition drain (st : stream_state) : option stream_state :=
  drain_loop (S (length (receive_buffer st))) st.

(** How the outer loop ends: by one of its three [break]s, or never,
    in a [recv] that does not return. *)
Inductive stream_end : Type :=
| ServerClosed
| ReceiveTimeout
| ReceiveError (e : errno)
| NeverReturns.

(** [while (true) { bytes_read = recv(...); ... }] *)
Fixpoint stream_loop (fuel : nat) (timed : bool) (sock : socket)
    (st : stream_state) : option (stream_state * stream_end) :=
  match fuel with
  | O => None
  | S fuel' =>
      match recv timed sock TEMP_BUFFER_SIZE with
      | (Received data, sock') =>
          st' <- drain (append_chunk data st) ;;
          stream_loop fuel' timed sock' st'
      | (Closed, _) => Some (st, ServerClosed)
      | (Failed e, _) =>
          if is_timeout e then Some (st, ReceiveTimeout)
          else Some (st, ReceiveError e)
      | (Blocked, _) => Some (st, NeverReturns)
      end
  end.

Definition initial_stream_state (m : PacketMap.t) : stream_state :=
  {| receive_buffer := []; received_packets := m; decoded := [] |}.

Definition receive_stream (timed : bool) (sock : socket) (m : PacketMap.t)
  : option (stream_state * stream_end) :=
  stream_loop (script_weight sock) timed sock (initial_stream_state m).

(** *** Decoding a byte string in fixed windows *)

(** The [i]-th window of [PACKET_SIZE] bytes. *)
Definition window (bytes : list byte) (i : nat) : list byte :=
  firstn PACKET_SIZE (skipn (i * PACKET_SIZE) bytes).

(** The complete windows of a byte string, in order; a trailing fragment
    shorter than a window belongs to none. *)
Definition windows (bytes : list byte) : list (list byte) :=
  map (window bytes) (seq 0 (length bytes / PACKET_SIZE)).

(** The frame decoder applied to every complete window. *)
Definition decode_windows (bytes : list byte) : list Packet :=
  map (fun w => parse_packet w 0) (windows bytes).

(** What is left of a byte string after its complete windows. *)
Definition trailing_fragment (bytes : list byte) : list byte :=
  skipn (length bytes / PACKET_SIZE * PACKET_SIZE) bytes.

(** Storing a run of packets, first to last. *)
Definition store_all (packets : list Packet) (m : PacketMap.t) : PacketMap.t :=
  fold_left (fun acc packet => store_packet packet acc) packets m.

(** The loop's variables once [bytes] more have been received and
    decoded in fixed windows. *)
Definition absorb (bytes : list byte) (st : stream_state) : stream_state :=
  let buffer := receive_buffer st ++ bytes in
  {| receive_buffer := trailing_fragment buffer;
     received_packets := store_all (decode_windows buffer) (received_packets st);
     decoded := decoded st ++ decode_windows buffer |}.

(** What a script runs into after its segments. *)
Fixpoint script_end (timed : bool) (sock : socket) : stream_end :=
  match sock with
  | [] => if timed then ReceiveTimeout else NeverReturns
  | Segment _ :: rest => script_end timed rest
  | PeerClose :: _ => ServerClosed
  | Fault e :: _ => if is_timeout e then ReceiveTimeout else ReceiveError e
  end.

(** The scripts on which a receive loop is left sooner or later. *)
Definition returns (timed : bool) (sock : socket) : bool :=
  match script_end timed sock with NeverReturns => false | _ => true end.

(** ** Stage 4: the missing sequence numbers *)

Definition max_sequence (m : PacketMap.t) : Z :=
  if PacketMap.is_empty m then 0
  else match PacketMap.rbegin m with
       | Some (k, _) => k
       | None => 0
       end.

(** [missing_sequences.max_size()], the greatest number of [int32_t]
    elements a [std::vector] holds ([PTRDIFF_MAX / sizeof(int32_t)] with
    64-bit pointers).  [push_back] on a vector of that size throws
    [std::length_error]; the vector is given all the memory below that
    size (with less, [push_back] throws [std::bad_alloc] sooner, which
    is caught by the same handler). *)
Definition VECTOR_MAX_SIZE : Z := 2 ^ 61 - 1.

(** How the scan ends: the loop is left with the list, or [push_back]
    throws a [std::exception]. *)
Inductive scan : Type :=
| Listed (missing_sequences : list Z)
| Thrown.

(** [for (int32_t i = 1; i <= max_sequence; ++i)
       if (received_packets.find(i) == received_packets.end())
         missing_sequences.push_back(i);] *)
Fixpoint gap_loop (fuel : nat) (i max : Z) (m : PacketMap.t)
    (missing_sequences : list Z) : option scan :=
  match fuel with
  | O => None
  | S fuel' =>
      if i <=? max then
        match PacketMap.find i m with
        | None =>
            if Z.of_nat (length missing_sequences) <? VECTOR_MAX_SIZE then
              gap_loop fuel' (Int32.incr i) max m (missing_sequences ++ [i])
            else Some Thrown
        | Some _ => gap_loop fuel' (Int32.incr i) max m missing_sequences
        end
      else Some (Listed missing_sequences)
  end.

Definition find_missing (fuel : nat) (m : PacketMap.t) : option scan :=
  gap_loop fuel 1 (max_sequence m) m [].

(** The increments that take the counter from [i] to [a], through the
    wrap from [INT32_MAX] to [INT32_MIN] when [a] is below [i]. *)
Definition steps_to (i a : Z) : Z :=
  if i <=? a then a - i else a - i + 2 ^ 32.

(** [i] is not a key of [m]. *)
Definition absent (m : PacketMap.t) (i : Z) : bool :=
  match PacketMap.find i m with None => true | Some _ => false end.

(** The integers of [[1, max]] that are not keys, ascending. *)
Definition gaps (m : PacketMap.t) : list Z :=
  filter (absent m)
         (map (fun n => Z.of_nat n + 1) (seq 0 (Z.to_nat (max_sequence m)))).

(** ** Stage 5: one recovery session per missing sequence number *)

(** What the environment does during one session: the results of
    [socket], [setsockopt], [inet_pton], [connect] and [send], and the
    script of the connection. *)
Record resend_env : Type := mkEnv {
  socket_created : bool;
  timeout_set : bool;
  address_ok : bool;
  connected : bool;
  send_result : Z;
  peer : socket
}.

(** The lines the session writes to [std::cerr]. *)
Inductive diag : Type :=
| ErrCreateSocket (seq : Z)
| WarnNoTimeout (seq : Z)
| ErrAddress
| ErrConnect (seq : Z)
| WarnOutsideByteRange (seq : Z)
| ErrSend (seq : Z)
| WarnShortSend (sent seq : Z)
| ErrReceiveTimeout (seq : Z)
| ErrReceive (seq : Z) (e : errno)
| ErrClosedEarly (seq : Z) (got : nat)
| WarnSequenceMismatch (requested received : Z).

(** How a session ends: in one of the two terminal states, or never,
    in a [recv] that does not return. *)
Inductive session_outcome : Type :=
| COMPLETE (resent_packet : Packet)
| ABANDONED
| STALLED.

Record session_result : Type := mkResult {
  store_after : PacketMap.t;
  request : option (list Z);   (* the payload handed to [send], if any *)
  outcome : session_outcome;
  diagnostics : list diag
}.

(** [recv] stores what it reads at [buf + total_bytes_received]. *)
Definition write_at (buf : list byte) (off : nat) (data : list byte) : list byte :=
  firstn off buf ++ data ++ skipn (off + length data) buf.

(** The receive loop of a session either is left, with the final
    [total_bytes_received], the buffer and the diagnostics, or hangs. *)
Inductive received : Type :=
| Exits (total_bytes_received : nat) (resent_packet_data : list byte)
       (ds : list diag)
| Hangs.

(** [while (total_bytes_received < PACKET_SIZE) { ... }] *)
Fixpoint resent_loop (fuel : nat) (seq : Z) (timed : bool) (sock : socket)
    (resent_packet_data : list byte) (total_bytes_received : nat)
  : option received :=
  match fuel with
  | O => None
  | S fuel' =>
      if (total_bytes_received <? PACKET_SIZE)%nat then
        match recv timed sock (PACKET_SIZE - total_bytes_received) with
        | (Failed e, _) =>
            Some (Exits 0 resent_packet_data
                    [if is_timeout e then ErrReceiveTimeout seq
                     else ErrReceive seq e])
        | (Closed, _) =>
            Some (Exits 0 resent_packet_data
                    [ErrClosedEarly seq total_bytes_received])
        | (Received data, sock') =>
            resent_loop fuel' seq timed sock'
              (write_at resent_packet_data total_bytes_received data)
              (total_bytes_received + length data)
        | (Blocked, _) => Some Hangs
        end
      else Some (Exits total_bytes_received resent_packet_data [])
  end.

Definition receive_resent (seq : Z) (timed : bool) (sock : socket)
  : option received :=
  resent_loop (S PACKET_SIZE) seq timed sock (repeat x00 PACKET_SIZE) 0.

(** [unsigned char resend_payload[2] = {2, static_cast<unsigned char>(seq)}] *)
Definition resend_payload (seq_to_resend : Z) : list Z :=
  [2; Int32.to_uchar seq_to_resend].

Definition abandon (m : PacketMap.t) (sent : option (list Z)) (ds : list diag)
  : session_result :=
  {| store_after := m; request := sent; outcome := ABANDONED;
     diagnostics := ds |}.

(** The body of the loop over [missing_sequences]. *)
Definition resend_session (seq_to_resend : Z) (env : resend_env)
    (m : PacketMap.t) : option session_result :=
  if negb (socket_created env) then
    Some (abandon m None [ErrCreateSocket seq_to_resend])
  else
    let d0 := if timeout_set env then [] else [WarnNoTimeout seq_to_resend] in
    if negb (address_ok env) then Some (abandon m None (d0 ++ [ErrAddress]))
    else if negb (connected env) then
      Some (abandon m None (d0 ++ [ErrConnect seq_to_resend]))
    else
      let d1 :=
        d0 ++ (if (seq_to_resend <? 0) || (255 <? seq_to_resend)
               then [WarnOutsideByteRange seq_to_resend] else []) in
      let payload := resend_payload seq_to_resend in
      let bytes_sent_resend := send_result env in
      if bytes_sent_resend =? -1 then
        Some (abandon m (Some payload) (d1 ++ [ErrSend seq_to_resend]))
      else if bytes_sent_resend =? 2 then
        r <- receive_resent seq_to_resend (timeout_set env) (peer env) ;;
        match r with
        | Hangs =>
            Some {| store_after := m; request := Some payload;
                    outcome := STALLED; diagnostics := d1 |}
        | Exits total_bytes_received resent_packet_data d2 =>
            if (total_bytes_received =? PACKET_SIZE)%nat then
              let resent_packet := parse_packet resent_packet_data 0 in
              Some {| store_after := store_packet resent_packet m;
                      request := Some payload;
                      outcome := COMPLETE resent_packet;
                      diagnostics :=
                        d1 ++ d2 ++
                        (if sequence resent_packet =? seq_to_resend then []
                         else [WarnSequenceMismatch seq_to_resend
                                 (sequence resent_packet)]) |}
            else Some (abandon m (Some payload) (d1 ++ d2))
        end
      else
        Some (abandon m (Some payload)
                (d1 ++ [WarnShortSend bytes_sent_resend seq_to_resend])).

Definition stalled (r : session_result) : bool :=
  match outcome r with STALLED => true | _ => false end.

(** [for (int32_t seq_to_resend : missing_sequences) { ... }]: the
    sessions run one after the other on the same map; [server] tells how
    the session opened for a sequence number goes.  The result is the
    map and the results of the sessions that were run, in order; a
    session that hangs is the last one. *)
Fixpoint recover_all (missing_sequences : list Z) (server : Z -> resend_env)
    (m : PacketMap.t) : option (PacketMap.t * list session_result) :=
  match missing_sequences with
  | [] => Some (m, [])
  | seq_to_resend :: rest =>
      r <- resend_session seq_to_resend (server seq_to_resend) m ;;
      if stalled r then Some (store_after r, [r])
      else
        o <- recover_all rest server (store_after r) ;;
        Some (fst o, r :: snd o)
  end.

(** The environments in which a session reaches [COMPLETE]: the
    connection is set up, [send] takes both bytes, and the peer delivers
    a whole packet before it closes, fails or falls silent. *)
Definition session_completes (env : resend_env) : bool :=
  socket_created env && address_ok env && connected env
  && (send_result env =? 2)
  && (PACKET_SIZE <=? length (delivered (peer env)))%nat.

(** The packet a completing session decodes: the first 17 bytes the peer
    delivers. *)
Definition resent_packet_of (env : resend_env) : Packet :=
  parse_packet (firstn PACKET_SIZE (delivered (peer env))) 0.

(** The environments in which the request is handed to [send]. *)
Definition session_connects (env : resend_env) : bool :=
  socket_created env && address_ok env && connected env.

(** The environments in which a session hangs: it waits for the rest of
    a packet on a socket without a receive timeout, and the peer neither
    sends it nor closes. *)
Definition session_stalls (env : resend_env) : bool :=
  session_connects env
  && (send_result env =? 2)
  && (length (delivered (peer env)) <? PACKET_SIZE)%nat
  && negb (returns (timeout_set env) (peer env)).

(** The warnings a session has issued by the time it sends. *)
Definition setup_warnings (seq : Z) (env : resend_env) : list diag :=
  (if timeout_set env then [] else [WarnNoTimeout seq])
  ++ (if (seq <? 0) || (255 <? seq) then [WarnOutsideByteRange seq] else []).

(** ** Stage 6: the output *)

(** The characters of a string literal that a [const char*] parameter
    sees: those before the first NUL. *)
Fixpoint c_str (literal : list byte) : list byte :=
  match literal with
  | [] => []
  | c :: rest => if Byte.eqb c x00 then [] else c :: c_str rest
  end.

Definition mem_byte (c : byte) (chars : list byte) : bool :=
  existsb (Byte.eqb c) chars.

(** [s.find_last_not_of(chars)], [None] standing for [npos]. *)
Definition find_last_not_of (s chars : list byte) : option nat :=
  snd (fold_left
         (fun (acc : nat * option nat) c =>
            (S (fst acc), if mem_byte c chars then snd acc else Some (fst acc)))
         s (0%nat, None)).

(** The literal [" \0"] of the call [find_last_not_of(" \0")]. *)
Definition trim_literal : list byte := [x20; x00].

(** The symbol as it is written between the quotes. *)
Definition trim_symbol (symbol_str : list byte) : list byte :=
  match find_last_not_of symbol_str (c_str trim_literal) with
  | Some last_char_pos => firstn (last_char_pos + 1) symbol_str
  | None => []
  end.

(** One object of the JSON array, field by field. *)
Record json_object : Type := mkObject {
  js_symbol : list byte;
  js_buysell_indicator : list byte;
  js_quantity : Z;
  js_price : Z;
  js_packetSequence : Z
}.

Definition render (packet : Packet) : json_object :=
  {| js_symbol := trim_symbol (symbol packet);
     js_buysell_indicator := [buysell_indicator packet];
     js_quantity := quantity packet;
     js_price := price packet;
     js_packetSequence := sequence packet |}.

(** [for (const auto& pair : received_packets)]: in key order. *)
Definition json_output (m : PacketMap.t) : list json_object :=
  map (fun pair => render (snd pair)) m.

(** ** The whole run *)

Record world : Type := mkWorld {
  initial_socket_created : bool;
  initial_timeout_set : bool;
  initial_address_ok : bool;
  initial_connected : bool;
  initial_send_result : Z;
  initial_peer : socket;
  server : Z -> resend_env;
  output_file_opens : bool
}.

(** The exit status ([None] for a run that hangs), the content of
    [output.json] when it was written, and the sessions that were run. *)
Record run : Type := mkRun {
  exit_status : option Z;
  written : option (list json_object);
  sessions : list session_result
}.

Definition failed_run : run :=
  {| exit_status := Some 1; written := None; sessions := [] |}.

Definition hung_run (ss : list session_result) : run :=
  {| exit_status := None; written := None; sessions := ss |}.

(** [int main()]: the [try] block, and [catch (const std::exception&)]
    for what the gap scan throws. *)
Definition main (fuel : nat) (w : world) : option run :=
  if negb (initial_socket_created w) then Some failed_run
  else if negb (initial_address_ok w) then Some failed_run
  else if negb (initial_connected w) then Some failed_run
  else if initial_send_result w <? 1 then Some failed_run
  else
    s <- receive_stream (initial_timeout_set w) (initial_peer w)
           PacketMap.empty ;;
    match snd s with
    | NeverReturns => Some (hung_run [])
    | _ =>
        let received := received_packets (fst s) in
        scanned <- find_missing fuel received ;;
        match scanned with
        | Thrown =>
            (* [catch (const std::exception& e)]: the initial socket is
               closed already; [return 1]. *)
            Some failed_run
        | Listed missing_sequences =>
            r <- recover_all missing_sequences (server w) received ;;
            if existsb stalled (snd r) then Some (hung_run (snd r))
            else if output_file_opens w then
              Some {| exit_status := Some 0;
                      written := Some (json_output (fst r));
                      sessions := snd r |}
            else Some {| exit_status := Some 1; written := None;
                         sessions := snd r |}
        end
    end.

(** ** Sample data *)

(** A record whose sequence field is [0x7FFFFFFF]. *)
Definition last_sequence_record : list byte :=
  [x41; x42; x43; x44; x42; x00; x00; x00; x01; x00; x00; x00; x01;
   x7f; xff; xff; xff].

Definition sample_window : list byte :=
  [x4d; x53; x46; x54; x42; x00; x00; x00; x32; xff; xff; xff; x9c;
   x80; x00; x00; x01].

(** The records of a small feed, by sequence number. *)
Definition record_1 : list byte :=
  [x41; x42; x00; x00; x42; x00; x00; x00; x0a; x00; x00; x01; x00;
   x00; x00; x00; x01].

Definition record_2 : list byte :=
  [x41; x42; x43; x44; x53; xff; xff; xff; xff; x80; x00; x00; x00;
   x00; x00; x00; x02].

Definition record_3 : list byte :=
  [x4d; x53; x46; x54; x42; x00; x00; x00; x07; x00; x00; x00; x09;
   x00; x00; x00; x03].

Definition record_4 : list byte :=
  [x20; x20; x20; x20; x53; x00; x00; x00; x05; x7f; xff; xff; xff;
   x00; x00; x00; x04].

(** A second record carrying sequence number 2. *)
Definition record_2_again : list byte :=
  [x5a; x5a; x5a; x5a; x42; x00; x00; x00; x63; x00; x00; x00; x63;
   x00; x00; x00; x02].

(** A record whose sequence field is [0xFFFFFFFF], that is, -1. *)
Definition record_minus_1 : list byte :=
  [x4e; x45; x47; x20; x53; x00; x00; x00; x01; x00; x00; x00; x01;
   xff; xff; xff; xff].

(** A peer that answers with [record] in two segments. *)
Definition answering (record : list byte) : resend_env :=
  {| socket_created := true; timeout_set := true; address_ok := true;
     connected := true; send_result := 2;
     peer := [Segment (firstn 5 record); Segment (skipn 5 record)] |}.

(** A peer that sends two bytes and then nothing. *)
Definition stalling : resend_env :=
  {| socket_created := true; timeout_set := true; address_ok := true;
     connected := true; send_result := 2;
     peer := [Segment [x41; x42]] |}.

(** The feed of records 1, 2 and 4, split in the middle of record 2,
    with one stray byte at the end, after which the feed goes idle; the
    server resends record 3 when asked. *)
Definition sample_world : world :=
  {| initial_socket_created := true;
     initial_timeout_set := true;
     initial_address_ok := true;
     initial_connected := true;
     initial_send_result := 1;
     initial_peer :=
       [Segment (record_1 ++ firstn 3 record_2);
        Segment (skipn 3 record_2 ++ record_4 ++ [x01])];
     server := fun _ => answering record_3;
     output_file_opens := true |}.

Definition sample_store : PacketMap.t :=
  store_all (map (fun w => parse_packet w 0) [record_1; record_2; record_4])
            PacketMap.empty.

(** A second record with sequence number -1. *)
Definition record_minus_1_again : list byte :=
  [x5a; x5a; x5a; x5a; x42; x00; x00; x00; x63; x00; x00; x00; x63;
   xff; xff; xff; xff].

(** A feed of the records -1, 1 and 2, closed by the server. *)
Definition negative_world : world :=
  {| initial_socket_created := true;
     initial_timeout_set := true;
     initial_address_ok := true;
     initial_connected := true;
     initial_send_result := 1;
     initial_peer :=
       [Segment (record_minus_1 ++ record_1 ++ record_2); PeerClose];
     server := fun _ => answering record_3;
     output_file_opens := true |}.

(** A feed of the records 1, -1 and 3, and a server that answers the
    request for 2 with the second record numbered -1. *)
Definition replaced_world : world :=
  {| initial_socket_created := true;
     initial_timeout_set := true;
     initial_address_ok := true;
     initial_connected := true;
     initial_send_result := 1;
     initial_peer :=
       [Segment (record_1 ++ record_minus_1 ++ record_3); PeerClose];
     server := fun _ => answering record_minus_1_again;
     output_file_opens := true |}.

(** ** Definitions for the further properties *)

(** The last packet of a run that carries the sequence number [k]. *)
Definition last_with_sequence (k : Z) (packets : list Packet) : option Packet :=
  List.find (fun packet => sequence packet =? k) (rev packets).

(** *** The stages of a run *)

(** The first connection is set up and the request is sent. *)
Definition set_up (w : world) : bool :=
  initial_socket_created w && initial_address_ok w && initial_connected w
  && (1 <=? initial_send_result w).

(** The packets the streaming loop decodes, in order, and the store
    it leaves. *)
Definition streamed (w : world) : list Packet :=
  decode_windows (delivered (initial_peer w)).

Definition streamed_store (w : world) : PacketMap.t :=
  store_all (streamed w) PacketMap.empty.

(** How [main] ends once the recovery loop has come to [o]. *)
Definition finished (w : world) (o : PacketMap.t * list session_result)
  : run :=
  if existsb stalled (snd o) then hung_run (snd o)
  else if output_file_opens w then
    {| exit_status := Some 0;
       written := Some (json_output (fst o));
       sessions := snd o |}
  else {| exit_status := Some 1; written := None; sessions := snd o |}.

(** *** The calls on sockets

    The same control flow as [main] and [resend_session], read for the
    system calls it makes on its sockets, in order. *)

Inductive call : Type :=
| Socket (ok : bool)
| Setsockopt (ok : bool)
| InetPton (ok : bool)
| Connect (ok : bool)
| Send (payload : list Z) (result : Z)
| Recv (len : nat) (result : recv_result)
| Close.

(** The [recv] calls of the streaming loop. *)
Fixpoint stream_calls (fuel : nat) (timed : bool) (sock : socket) : list call :=
  match fuel with
  | O => []
  | S fuel' =>
      match recv timed sock TEMP_BUFFER_SIZE with
      | (Received data, sock') =>
          Recv TEMP_BUFFER_SIZE (Received data) :: stream_calls fuel' timed sock'
      | (result, _) => [Recv TEMP_BUFFER_SIZE result]
      end
  end.

(** The [recv] calls of the receive loop of a session. *)
Fixpoint resent_calls (fuel : nat) (timed : bool) (sock : socket)
    (total_bytes_received : nat) : list call :=
  match fuel with
  | O => []
  | S fuel' =>
      if (total_bytes_received <? PACKET_SIZE)%nat then
        let len := (PACKET_SIZE - total_bytes_received)%nat in
        match recv timed sock len with
        | (Received data, sock') =>
            Recv len (Received data)
            :: resent_calls fuel' timed sock'
                 (total_bytes_received + length data)
        | (result, _) => [Recv len result]
        end
      else []
  end.

(** The calls of one session, and whether the session returns. *)
Definition session_trace (seq_to_resend : Z) (env : resend_env)
  : list call * bool :=
  if negb (socket_created env) then ([Socket false], true)
  else
    let created := [Socket true; Setsockopt (timeout_set env)] in
    if negb (address_ok env) then
      (created ++ [InetPton false; Close], true)
    else if negb (connected env) then
      (created ++ [InetPton true; Connect false; Close], true)
    else
      let sent :=
        created ++ [InetPton true; Connect true;
                    Send (resend_payload seq_to_resend) (send_result env)] in
      if send_result env =? -1 then (sent ++ [Close], true)
      else if send_result env =? 2 then
        let reads :=
          resent_calls (S PACKET_SIZE) (timeout_set env) (peer env) 0 in
        match receive_resent seq_to_resend (timeout_set env) (peer env) with
        | Some Hangs => (sent ++ reads, false)
        | _ => (sent ++ reads ++ [Close], true)
        end
      else (sent ++ [Close], true).

(** The calls of the recovery loop, up to a session that hangs. *)
Fixpoint sessions_trace (missing_sequences : list Z) (server : Z -> resend_env)
  : list call * bool :=
  match missing_sequences with
  | [] => ([], true)
  | seq_to_resend :: rest =>
      let t := session_trace seq_to_resend (server seq_to_resend) in
      if snd t then
        let t' := sessions_trace rest server in (fst t ++ fst t', snd t')
      else t
  end.

(** The calls of a whole run, and whether the run returns. *)
Definition main_trace (fuel : nat) (w : world) : option (list call * bool) :=
  if negb (initial_socket_created w) then Some ([Socket false], true)
  else
    let created := [Socket true; Setsockopt (initial_timeout_set w)] in
    if negb (initial_address_ok w) then
      Some (created ++ [InetPton false; Close], true)
    else if negb (initial_connected w) then
      Some (created ++ [InetPton true; Connect false; Close], true)
    else
      let sent :=
        created ++ [InetPton true; Connect true;
                    Send [1] (initial_send_result w)] in
      if initial_send_result w <? 1 then Some (sent ++ [Close], true)
      else
        s <- receive_stream (initial_timeout_set w) (initial_peer w)
               PacketMap.empty ;;
        let reads :=
          stream_calls (script_weight (initial_peer w))
            (initial_timeout_set w) (initial_peer w) in
        match snd s with
        | NeverReturns => Some (sent ++ reads, false)
        | _ =>
            scanned <- find_missing fuel (received_packets (fst s)) ;;
            match scanned with
            | Thrown => Some (sent ++ reads ++ [Close], true)
            | Listed missing_sequences =>
                let t := sessions_trace missing_sequences (server w) in
                Some (sent ++ reads ++ [Close] ++ fst t, snd t)
            end
        end.

(** The discipline of descriptors: a socket is created only when none
    is open, every other call is made on the open socket, and [close]
    closes it.  The result is whether a socket is open at the end;
    [None] is a breach. *)
Fixpoint disciplined (open : bool) (calls : list call) : option bool :=
  match calls with
  | [] => Some open
  | Socket ok :: rest => if open then None else disciplined ok rest
  | Close :: rest => if open then disciplined false rest else None
  | _ :: rest => if open then disciplined true rest else None
  end.

(** The calls that read. *)
Definition is_recv (c : call) : bool :=
  match c with Recv _ _ => true | _ => false end.

(** *** The text of [output.json] *)

Definition newline : byte := x0a.
Definition quote : byte := x22.

(** The decimal digits of an unsigned number. *)
Fixpoint digits (d : Decimal.uint) : list byte :=
  match d with
  | Decimal.Nil => []
  | Decimal.D0 d' => x30 :: digits d'
  | Decimal.D1 d' => x31 :: digits d'
  | Decimal.D2 d' => x32 :: digits d'
  | Decimal.D3 d' => x33 :: digits d'
  | Decimal.D4 d' => x34 :: digits d'
  | Decimal.D5 d' => x35 :: digits d'
  | Decimal.D6 d' => x36 :: digits d'
  | Decimal.D7 d' => x37 :: digits d'
  | Decimal.D8 d' => x38 :: digits d'
  | Decimal.D9 d' => x39 :: digits d'
  end.

(** [std::to_string] of an [int32_t]: decimal, with a minus sign for a
    negative number. *)
Definition to_string (z : Z) : list byte :=
  match Z.to_int z with
  | Decimal.Pos d => digits d
  | Decimal.Neg d => x2d :: digits d
  end.

(** Eight spaces, the key in quotes, a colon and a space. *)
Definition field (name : list byte) : list byte :=
  repeat x20 8 ++ [quote] ++ name ++ [quote; x3a; x20].

Definition key_symbol : list byte := [x73; x79; x6d; x62; x6f; x6c].
Definition key_buysell_indicator : list byte :=
  [x62; x75; x79; x73; x65; x6c; x6c; x5f;
   x69; x6e; x64; x69; x63; x61; x74; x6f; x72].
Definition key_quantity : list byte :=
  [x71; x75; x61; x6e; x74; x69; x74; x79].
Definition key_price : list byte := [x70; x72; x69; x63; x65].
Definition key_packetSequence : list byte :=
  [x70; x61; x63; x6b; x65; x74; x53; x65; x71; x75; x65; x6e; x63; x65].

(** What one turn of the output loop appends for a packet, the
    separator apart. *)
Definition object_text (o : json_object) : list byte :=
  repeat x20 4 ++ [x7b; newline]
  ++ field key_symbol ++ [quote] ++ js_symbol o ++ [quote; x2c; newline]
  ++ field key_buysell_indicator
  ++ [quote] ++ js_buysell_indicator o ++ [quote; x2c; newline]
  ++ field key_quantity ++ to_string (js_quantity o) ++ [x2c; newline]
  ++ field key_price ++ to_string (js_price o) ++ [x2c; newline]
  ++ field key_packetSequence ++ to_string (js_packetSequence o) ++ [newline]
  ++ repeat x20 4 ++ [x7d].

(** [for (const auto& pair : received_packets) { ... }] on the string
    built so far, with the flag [first_packet]. *)
Fixpoint json_loop (entries : PacketMap.t) (first_packet : bool)
    (json_output_string : list byte) : list byte :=
  match entries with
  | [] => json_output_string
  | entry :: rest =>
      let separated :=
        if first_packet then json_output_string
        else json_output_string ++ [x2c; newline] in
      json_loop rest false (separated ++ object_text (render (snd entry)))
  end.

(** The content of [output.json]. *)
Definition json_text (m : PacketMap.t) : list byte :=
  json_loop m true [x5b; newline] ++ [newline; x5d; newline].

(** Texts joined by a separator. *)
Fixpoint join (sep : list byte) (parts : list (list byte)) : list byte :=
  match parts with
  | [] => []
  | [part] => part
  | part :: rest => part ++ sep ++ join sep rest
  end.

(** The number of bytes a call returns. *)
Definition bytes_read (c : call) : nat :=
  match c with
  | Recv _ (Received data) => length data
  | _ => 0%nat
  end.

(** The bytes a run of calls returns in all. *)
Definition total_read (calls : list call) : nat :=
  fold_right (fun c n => (bytes_read c + n)%nat) 0%nat calls.

(** The integers from 1 to [n], ascending. *)
Definition one_to (n : Z) : list Z :=
  map (fun i => Z.of_nat i + 1) (seq 0 (Z.to_nat n)).

(** *** Two peers that send the same bytes *)

(** Two sessions whose calls succeed alike and whose peers deliver the
    same bytes and end alike, however the bytes are cut into
    segments. *)
Definition same_traffic (env env' : resend_env) : Prop :=
  socket_created env = socket_created env'
  /\ timeout_set env = timeout_set env'
  /\ address_ok env = address_ok env'
  /\ connected env = connected env'
  /\ send_result env = send_result env'
  /\ delivered (peer env) = delivered (peer env')
  /\ script_end (timeout_set env) (peer env)
     = script_end (timeout_set env') (peer env').

(** The same for whole runs. *)
Definition same_feed (w w' : world) : Prop :=
  initial_socket_created w = initial_socket_created w'
  /\ initial_timeout_set w = initial_timeout_set w'
  /\ initial_address_ok w = initial_address_ok w'
  /\ initial_connected w = initial_connected w'
  /\ initial_send_result w = initial_send_result w'
  /\ delivered (initial_peer w) = delivered (initial_peer w')
  /\ script_end (initial_timeout_set w) (initial_peer w)
     = script_end (initial_timeout_set w') (initial_peer w')
  /\ (forall s, same_traffic (server w s) (server w' s))
  /\ output_file_opens w = output_file_opens w'.

(** The feed of [sample_world], one byte to a segment, and a server
    that answers in one segment. *)
Definition resegmented_world : world :=
  {| initial_socket_created := true;
     initial_timeout_set := true;
     initial_address_ok := true;
     initial_connected := true;
     initial_send_result := 1;
     initial_peer :=
       map (fun b => Segment [b]) (record_1 ++ record_2 ++ record_4 ++ [x01]);
     server := fun _ =>
       {| socket_created := true; timeout_set := true; address_ok := true;
          connected := true; send_result := 2;
          peer := [Segment record_3] |};
     output_file_opens := true |}.

(** A feed of one record, whose sequence number is [INT32_MAX], closed
    by the server. *)
Definition last_sequence_world : world :=
  {| initial_socket_created := true;
     initial_timeout_set := true;
     initial_address_ok := true;
     initial_connected := true;
     initial_send_result := 1;
     initial_peer := [Segment last_sequence_record; PeerClose];
     server := fun _ => answering record_3;
     output_file_opens := true |}.

(** * Properties *)

(** ** Machine integers *)

Lemma uchar_range (b : byte) : 0 <= uchar b < 256.
Proof.
  unfold uchar.
  pose proof (Byte.to_N_bounded b) as H.
  lia.
Qed.

Lemma to_int32_range (z : Z) : Int32.in_range (Int32.to_int32 z).
Proof.
  unfold Int32.in_range, Int32.to_int32, Int32.INT32_MIN, Int32.INT32_MAX.
  pose proof (Z.mod_pos_bound (z + 2 ^ 31) (2 ^ 32) ltac:(lia)).
  lia.
Qed.

Lemma to_int32_id (z : Z) : Int32.in_range z -> Int32.to_int32 z = z.
Proof.
  unfold Int32.in_range, Int32.to_int32, Int32.INT32_MIN, Int32.INT32_MAX.
  intros H.
  rewrite Z.mod_small by lia.
  lia.
Qed.

(** Or-ing a value below [2^n] into a multiple of [2^n] adds it. *)
Lemma lor_low_bits (hi lo n : Z) :
  0 <= n -> 0 <= lo < 2 ^ n -> Z.lor (hi * 2 ^ n) lo = hi * 2 ^ n + lo.
Proof.
  intros Hn Hlo.
  destruct (Z.eq_dec lo 0) as [-> | Hnz].
  { rewrite Z.lor_0_r. lia. }
  assert (Hlog : Z.log2 lo < n) by (apply Z.log2_lt_pow2; lia).
  apply Z.bits_inj'. intros k Hk.
  rewrite Z.lor_spec.
  destruct (Z.ltb_spec k n) as [Hlt | Hge].
  - rewrite Z.mul_pow2_bits_low by lia.
    rewrite <- (Z.mod_pow2_bits_low (hi * 2 ^ n + lo) n k) by lia.
    rewrite Z.add_comm, Z.mod_add by lia.
    rewrite Z.mod_small by lia.
    reflexivity.
  - rewrite Z.mul_pow2_bits by lia.
    rewrite (Z.bits_above_log2 lo k) by lia.
    rewrite orb_false_r.
    replace k with ((k - n) + n) at 2 by lia.
    rewrite <- Z.div_pow2_bits by lia.
    rewrite Z.add_comm, Z.div_add by lia.
    rewrite Z.div_small by lia.
    reflexivity.
Qed.

Lemma shl_small (x n : Z) :
  0 <= n -> 0 <= x -> x * 2 ^ n <= Int32.INT32_MAX ->
  Int32.shl x n = x * 2 ^ n.
Proof.
  intros Hn Hx Hb.
  unfold Int32.shl.
  rewrite Z.shiftl_mul_pow2 by lia.
  apply to_int32_id.
  unfold Int32.in_range, Int32.INT32_MIN in *. nia.
Qed.

Lemma shl_24 (x : Z) :
  0 <= x < 256 ->
  Int32.shl x 24 = (if x <? 128 then x else x - 256) * 2 ^ 24.
Proof.
  intros Hx.
  unfold Int32.shl, Int32.to_int32.
  rewrite Z.shiftl_mul_pow2 by lia.
  destruct (Z.ltb_spec x 128).
  - rewrite Z.mod_small by lia. lia.
  - replace (x * 2 ^ 24 + 2 ^ 31) with (x * 2 ^ 24 - 2 ^ 31 + 1 * 2 ^ 32) by lia.
    rewrite Z.mod_add by lia.
    rewrite Z.mod_small by lia. lia.
Qed.

Lemma combine_be_signed (d0 d1 d2 d3 : byte) :
  combine_be d0 d1 d2 d3 = signed32 (be_unsigned [d0; d1; d2; d3]).
Proof.
  unfold combine_be, be_unsigned, signed32. simpl fold_left.
  pose proof (uchar_range d0) as H0.
  pose proof (uchar_range d1) as H1.
  pose proof (uchar_range d2) as H2.
  pose proof (uchar_range d3) as H3.
  rewrite shl_24 by assumption.
  rewrite (shl_small (uchar d1) 16) by (unfold Int32.INT32_MAX; lia).
  rewrite (shl_small (uchar d2) 8) by (unfold Int32.INT32_MAX; lia).
  set (k := if uchar d0 <? 128 then uchar d0 else uchar d0 - 256).
  replace (uchar d1 * 2 ^ 16) with (uchar d1 * 2 ^ 16 + 0) by lia.
  rewrite (lor_low_bits k (uchar d1 * 2 ^ 16 + 0) 24) by lia.
  replace (k * 2 ^ 24 + (uchar d1 * 2 ^ 16 + 0))
    with ((k * 2 ^ 8 + uchar d1) * 2 ^ 16) by lia.
  rewrite (lor_low_bits _ (uchar d2 * 2 ^ 8) 16) by lia.
  replace ((k * 2 ^ 8 + uchar d1) * 2 ^ 16 + uchar d2 * 2 ^ 8)
    with (((k * 2 ^ 8 + uchar d1) * 2 ^ 8 + uchar d2) * 2 ^ 8) by lia.
  rewrite (lor_low_bits _ (uchar d3) 8) by lia.
  subst k.
  repeat match goal with
         | |- context [Z.ltb ?a ?b] => destruct (Z.ltb_spec a b)
         end; lia.
Qed.

(** ** The frame decoder *)

Lemma data_at_window (raw_data : list byte) (offset i : nat) :
  (i < PACKET_SIZE)%nat ->
  data_at raw_data offset i
  = nth i (firstn PACKET_SIZE (skipn offset raw_data)) x00.
Proof.
  intros Hi. unfold data_at.
  rewrite nth_firstn, nth_skipn.
  apply Nat.ltb_lt in Hi. rewrite Hi. reflexivity.
Qed.

Lemma parse_packet_window (raw_data : list byte) (offset : nat) :
  parse_packet raw_data offset
  = parse_packet (firstn PACKET_SIZE (skipn offset raw_data)) 0.
Proof.
  unfold parse_packet.
  repeat rewrite (data_at_window raw_data offset) by (unfold PACKET_SIZE; lia).
  repeat rewrite (data_at_window (firstn _ _) 0) by (unfold PACKET_SIZE; lia).
  rewrite skipn_O, firstn_firstn, Nat.min_id.
  reflexivity.
Qed.

(** A list of seventeen elements, spelled out. *)
Lemma length_17_inv {A : Type} (w : list A) :
  length w = PACKET_SIZE ->
  exists b0 b1 b2 b3 b4 b5 b6 b7 b8 b9 b10 b11 b12 b13 b14 b15 b16,
    w = [b0; b1; b2; b3; b4; b5; b6; b7; b8; b9; b10; b11; b12; b13; b14;
         b15; b16].
Proof.
  unfold PACKET_SIZE. intros H.
  do 17 (destruct w as [| ? w]; [discriminate H |]).
  destruct w; [| discriminate H].
  repeat eexists.
Qed.

Lemma parse_packet_wire (w : list byte) :
  length w = PACKET_SIZE -> parse_packet w 0 = wire_record w.
Proof.
  intros H.
  destruct (length_17_inv w H)
    as (b0 & b1 & b2 & b3 & b4 & b5 & b6 & b7 & b8 & b9 & b10 & b11 & b12
        & b13 & b14 & b15 & b16 & ->).
  unfold parse_packet, wire_record, be_int32_at, data_at.
  cbn [nth Nat.add firstn skipn].
  rewrite !combine_be_signed.
  reflexivity.
Qed.

Lemma signed32_range (bs : list byte) :
  length bs = 4%nat -> Int32.in_range (signed32 (be_unsigned bs)).
Proof.
  intros H.
  do 4 (destruct bs as [| ? bs]; [discriminate H |]).
  destruct bs; [| discriminate H].
  pose proof (uchar_range b) as H0.
  pose proof (uchar_range b0) as H1.
  pose proof (uchar_range b1) as H2.
  pose proof (uchar_range b2) as H3.
  unfold signed32, be_unsigned, Int32.in_range, Int32.INT32_MIN,
    Int32.INT32_MAX.
  simpl fold_left.
  match goal with
  | |- context [Z.ltb ?a ?c] => destruct (Z.ltb_spec a c)
  end; lia.
Qed.

(** C3.  The frame decoder reads any window of 17 bytes, found at any
    offset of a buffer that holds it, as the wire layout says: the
    symbol is the first four bytes, the side is byte 4, and quantity,
    price and sequence are the signed 32-bit big-endian integers at
    offsets 5, 9 and 13; the three integers are [int32_t] values.  The
    decoder is a total function: no window is refused. *)
Theorem parse_packet_wire_layout (raw_data : list byte) (offset : nat) :
  (offset + PACKET_SIZE <= length raw_data)%nat ->
  let w := firstn PACKET_SIZE (skipn offset raw_data) in
  let packet := parse_packet raw_data offset in
  packet = wire_record w
  /\ symbol packet = firstn 4 w
  /\ buysell_indicator packet = nth 4 w x00
  /\ quantity packet = signed32 (be_unsigned (firstn 4 (skipn 5 w)))
  /\ price packet = signed32 (be_unsigned (firstn 4 (skipn 9 w)))
  /\ sequence packet = signed32 (be_unsigned (firstn 4 (skipn 13 w)))
  /\ Int32.in_range (quantity packet)
  /\ Int32.in_range (price packet)
  /\ Int32.in_range (sequence packet).
Proof.
  intros Hlen w packet.
  assert (Hw : length w = PACKET_SIZE).
  { subst w. rewrite length_firstn, length_skipn. lia. }
  assert (E : packet = wire_record w).
  { subst packet. rewrite parse_packet_window. apply parse_packet_wire, Hw. }
  rewrite E.
  assert (H4 : forall off, (off + 4 <= PACKET_SIZE)%nat ->
                           length (firstn 4 (skipn off w)) = 4%nat).
  { intros off Hoff. rewrite length_firstn, length_skipn. lia. }
  unfold PACKET_SIZE in H4.
  repeat split; try reflexivity;
    cbn [wire_record quantity price sequence]; unfold be_int32_at;
    apply signed32_range, H4; lia.
Qed.

Lemma parse_packet_wire_layout_witness :
  parse_packet (x00 :: sample_window) 1
  = {| symbol := [x4d; x53; x46; x54]; buysell_indicator := x42;
       quantity := 50; price := -100; sequence := -2147483647 |}.
Proof.
  destruct (parse_packet_wire_layout (x00 :: sample_window) 1) as [E _].
  - unfold sample_window, PACKET_SIZE. simpl. lia.
  - rewrite E. reflexivity.
Defined.

(** ** The record store *)

Section PacketMapFacts.

Import PacketMap.

Lemma find_assign_same (k : Z) (v : Packet) (m : t) :
  find k (assign k v m) = Some v.
Proof.
  induction m as [| [k' v'] m IH]; simpl.
  - rewrite Z.eqb_refl. reflexivity.
  - destruct (Z.ltb_spec k k') as [Hlt | Hge]; simpl.
    + rewrite Z.eqb_refl. reflexivity.
    + destruct (Z.eqb_spec k k') as [Heq | Hne]; simpl.
      * rewrite Z.eqb_refl. reflexivity.
      * destruct (Z.eqb_spec k k'); [contradiction | exact IH].
Qed.

Lemma find_assign_other (j k : Z) (v : Packet) (m : t) :
  j <> k -> find j (assign k v m) = find j m.
Proof.
  intros Hjk.
  induction m as [| [k' v'] m IH]; simpl.
  - destruct (Z.eqb_spec j k); [contradiction | reflexivity].
  - destruct (Z.ltb_spec k k') as [Hlt | Hge]; simpl.
    + destruct (Z.eqb_spec j k); [contradiction | reflexivity].
    + destruct (Z.eqb_spec k k') as [Heq | Hne]; simpl.
      * subst k'.
        destruct (Z.eqb_spec j k); [contradiction | reflexivity].
      * destruct (Z.eqb_spec j k'); [reflexivity | exact IH].
Qed.

Lemma assign_assign (k : Z) (v1 v2 : Packet) (m : t) :
  assign k v2 (assign k v1 m) = assign k v2 m.
Proof.
  induction m as [| [k' v'] m IH]; simpl.
  - rewrite Z.ltb_irrefl, Z.eqb_refl. reflexivity.
  - destruct (Z.ltb_spec k k') as [Hlt | Hge]; simpl.
    + rewrite Z.ltb_irrefl, Z.eqb_refl. reflexivity.
    + destruct (Z.eqb_spec k k') as [Heq | Hne]; simpl.
      * rewrite Z.ltb_irrefl, Z.eqb_refl. reflexivity.
      * destruct (Z.ltb_spec k k'); [lia |].
        destruct (Z.eqb_spec k k'); [contradiction |].
        rewrite IH. reflexivity.
Qed.

Lemma in_assign (k : Z) (v : Packet) (m : t) : In (k, v) (assign k v m).
Proof.
  induction m as [| [k' v'] m IH]; simpl.
  - left. reflexivity.
  - destruct (Z.ltb_spec k k'); [left; reflexivity |].
    destruct (Z.eqb_spec k k'); [left; reflexivity |].
    right. exact IH.
Qed.

Lemma in_assign_inv (e : Z * Packet) (k : Z) (v : Packet) (m : t) :
  In e (assign k v m) -> e = (k, v) \/ In e m.
Proof.
  induction m as [| [k' v'] m IH]; simpl.
  - intros [He | []]. left. symmetry. exact He.
  - destruct (Z.ltb_spec k k') as [Hlt | Hge].
    + simpl. intros [He | He]; [left; symmetry; exact He | right; exact He].
    + destruct (Z.eqb_spec k k') as [Heq | Hne]; simpl.
      * intros [He | He]; [left; symmetry; exact He | right; right; exact He].
      * intros [He | He]; [right; left; exact He |].
        destruct (IH He) as [He' | He'];
          [left; exact He' | right; right; exact He'].
Qed.

Lemma keys_assign (j k : Z) (v : Packet) (m : t) :
  In j (keys (assign k v m)) <-> j = k \/ In j (keys m).
Proof.
  unfold keys.
  induction m as [| [k' v'] m IH]; simpl.
  - intuition congruence.
  - destruct (Z.ltb_spec k k'); simpl.
    + intuition congruence.
    + destruct (Z.eqb_spec k k'); simpl.
      * subst k'. intuition congruence.
      * rewrite IH. intuition congruence.
Qed.

Lemma find_none_iff (k : Z) (m : t) : find k m = None <-> ~ In k (keys m).
Proof.
  unfold keys.
  induction m as [| [k' v'] m IH]; simpl.
  - intuition.
  - destruct (Z.eqb_spec k k').
    + subst k'. split; [discriminate | intros H; exfalso; apply H; left; reflexivity].
    + rewrite IH. intuition congruence.
Qed.

Lemma find_some_in (k : Z) (v : Packet) (m : t) :
  find k m = Some v -> In (k, v) m.
Proof.
  induction m as [| [k' v'] m IH]; simpl.
  - discriminate.
  - destruct (Z.eqb_spec k k').
    + intros H. injection H as ->. subst k'. left. reflexivity.
    + intros H. right. exact (IH H).
Qed.

Lemma assign_lower_bound (lo k : Z) (v : Packet) (m : t) :
  lo < k -> Forall (Z.lt lo) (keys m) -> Forall (Z.lt lo) (keys (assign k v m)).
Proof.
  intros Hk Hm.
  apply Forall_forall. intros j Hj.
  apply keys_assign in Hj.
  destruct Hj as [-> | Hj]; [exact Hk |].
  rewrite Forall_forall in Hm. exact (Hm j Hj).
Qed.

Lemma assign_ordered (k : Z) (v : Packet) (m : t) :
  ordered m -> ordered (assign k v m).
Proof.
  unfold ordered.
  induction m as [| [k' v'] m IH]; simpl; intros Hm.
  - repeat constructor.
  - apply StronglySorted_inv in Hm. destruct Hm as [Hm Hall].
    destruct (Z.ltb_spec k k') as [Hlt | Hge]; simpl.
    + constructor.
      * constructor; assumption.
      * constructor; [exact Hlt |].
        eapply Forall_impl; [| exact Hall]. intros a Ha. simpl in Ha. lia.
    + destruct (Z.eqb_spec k k') as [Heq | Hne]; simpl.
      * subst k'. constructor; assumption.
      * constructor; [exact (IH Hm) |].
        apply assign_lower_bound; [lia | exact Hall].
Qed.

Lemma rbegin_in (m : t) (e : Z * Packet) : rbegin m = Some e -> In e m.
Proof.
  induction m as [| a m IH]; [discriminate |].
  destruct m as [| b m'].
  - simpl. intros H. injection H as ->. left. reflexivity.
  - intros H. right. apply IH. exact H.
Qed.

Lemma rbegin_nonempty (a : Z * Packet) (m : t) : exists e, rbegin (a :: m) = Some e.
Proof.
  revert a. induction m as [| b m IH]; intros a.
  - exists a. reflexivity.
  - destruct (IH b) as [e He]. exists e. exact He.
Qed.

Lemma rbegin_greatest (m : t) (k : Z) (v : Packet) :
  ordered m -> rbegin m = Some (k, v) -> forall j, In j (keys m) -> j <= k.
Proof.
  unfold ordered.
  induction m as [| a m IH]; [discriminate |].
  intros Hm Hr j Hj.
  apply StronglySorted_inv in Hm. destruct Hm as [Hm Hall].
  destruct m as [| b m'].
  - simpl in Hr. injection Hr as ->. simpl in Hj.
    destruct Hj as [<- | []]. simpl. lia.
  - assert (Hk : In k (keys (b :: m'))).
    { change k with (fst (k, v)). apply in_map. apply rbegin_in. exact Hr. }
    destruct Hj as [<- | Hj].
    + rewrite Forall_forall in Hall. specialize (Hall k Hk). lia.
    + exact (IH Hm Hr j Hj).
Qed.

End PacketMapFacts.

Lemma store_packet_keyed (packet : Packet) (m : PacketMap.t) :
  keyed_by_sequence m -> keyed_by_sequence (store_packet packet m).
Proof.
  unfold keyed_by_sequence, store_packet. intros Hm.
  apply Forall_forall. intros e He.
  apply in_assign_inv in He.
  destruct He as [-> | He]; [reflexivity |].
  rewrite Forall_forall in Hm. exact (Hm e He).
Qed.

Lemma store_all_ordered (packets : list Packet) (m : PacketMap.t) :
  PacketMap.ordered m -> PacketMap.ordered (store_all packets m).
Proof.
  revert m. induction packets as [| p ps IH]; intros m Hm; simpl.
  - exact Hm.
  - apply IH. apply assign_ordered. exact Hm.
Qed.

Lemma store_all_keyed (packets : list Packet) (m : PacketMap.t) :
  keyed_by_sequence m -> keyed_by_sequence (store_all packets m).
Proof.
  revert m. induction packets as [| p ps IH]; intros m Hm; simpl.
  - exact Hm.
  - apply IH. apply store_packet_keyed. exact Hm.
Qed.

Lemma store_all_app (ps qs : list Packet) (m : PacketMap.t) :
  store_all (ps ++ qs) m = store_all qs (store_all ps m).
Proof. unfold store_all. apply fold_left_app. Qed.

(** ** The streaming loop *)

Lemma windows_short (bytes : list byte) :
  (length bytes < PACKET_SIZE)%nat -> windows bytes = [].
Proof.
  intros H. unfold windows.
  rewrite Nat.div_small by exact H. reflexivity.
Qed.

Lemma div_packet_step (n : nat) :
  (PACKET_SIZE <= n)%nat ->
  (n / PACKET_SIZE = S ((n - PACKET_SIZE) / PACKET_SIZE))%nat.
Proof.
  unfold PACKET_SIZE. intros H.
  replace n with ((n - 17) + 1 * 17)%nat at 1 by lia.
  rewrite Nat.div_add by lia. lia.
Qed.

Lemma windows_cons (bytes : list byte) :
  (PACKET_SIZE <= length bytes)%nat ->
  windows bytes
  = firstn PACKET_SIZE bytes :: windows (skipn PACKET_SIZE bytes).
Proof.
  intros H. unfold windows.
  rewrite (div_packet_step _ H), length_skipn.
  rewrite <- cons_seq, <- seq_shift. cbn [map]. rewrite map_map.
  f_equal.
  apply map_ext. intros i. unfold window.
  rewrite skipn_skipn. do 2 f_equal. lia.
Qed.

Lemma trailing_fragment_short (bytes : list byte) :
  (length bytes < PACKET_SIZE)%nat -> trailing_fragment bytes = bytes.
Proof.
  intros H. unfold trailing_fragment.
  rewrite Nat.div_small by exact H. reflexivity.
Qed.

Lemma trailing_fragment_cons (bytes : list byte) :
  (PACKET_SIZE <= length bytes)%nat ->
  trailing_fragment bytes = trailing_fragment (skipn PACKET_SIZE bytes).
Proof.
  intros H. unfold trailing_fragment.
  rewrite (div_packet_step _ H), length_skipn, skipn_skipn.
  f_equal. lia.
Qed.

Lemma trailing_fragment_length (bytes : list byte) :
  (length (trailing_fragment bytes) < PACKET_SIZE)%nat.
Proof.
  unfold trailing_fragment. rewrite length_skipn.
  pose proof (Nat.div_mod_eq (length bytes) PACKET_SIZE) as E.
  pose proof (Nat.mod_upper_bound (length bytes) PACKET_SIZE) as B.
  unfold PACKET_SIZE in *. lia.
Qed.

Lemma decode_windows_short (bytes : list byte) :
  (length bytes < PACKET_SIZE)%nat -> decode_windows bytes = [].
Proof.
  intros H. unfold decode_windows. rewrite windows_short by exact H.
  reflexivity.
Qed.

Lemma decode_windows_cons (bytes : list byte) :
  (PACKET_SIZE <= length bytes)%nat ->
  decode_windows bytes
  = parse_packet bytes 0 :: decode_windows (skipn PACKET_SIZE bytes).
Proof.
  intros H. unfold decode_windows.
  rewrite windows_cons by exact H. simpl.
  rewrite (parse_packet_window bytes 0), skipn_O. reflexivity.
Qed.

Lemma decode_windows_length (bytes : list byte) :
  length (decode_windows bytes) = (length bytes / PACKET_SIZE)%nat.
Proof.
  unfold decode_windows, windows. rewrite !length_map, length_seq.
  reflexivity.
Qed.

(** Induction on byte strings, a window at a time. *)
Lemma window_induction (P : list byte -> Prop) :
  (forall bytes, (length bytes < PACKET_SIZE)%nat -> P bytes) ->
  (forall bytes, (PACKET_SIZE <= length bytes)%nat ->
                 P (skipn PACKET_SIZE bytes) -> P bytes) ->
  forall bytes, P bytes.
Proof.
  intros Hshort Hstep bytes.
  remember (length bytes) as n eqn:Hn.
  revert bytes Hn.
  induction n as [n IH] using (well_founded_induction lt_wf).
  intros bytes Hn.
  destruct (Nat.ltb_spec (length bytes) PACKET_SIZE) as [Hlt | Hge].
  - apply Hshort. exact Hlt.
  - apply Hstep; [exact Hge |].
    apply (IH (length (skipn PACKET_SIZE bytes))); [| reflexivity].
    rewrite length_skipn. unfold PACKET_SIZE in *. lia.
Qed.

Lemma decode_windows_app (bytes more : list byte) :
  decode_windows (bytes ++ more)
  = decode_windows bytes ++ decode_windows (trailing_fragment bytes ++ more).
Proof.
  induction bytes as [bytes Hlt | bytes Hge IH] using window_induction.
  - rewrite (decode_windows_short bytes), (trailing_fragment_short bytes)
      by exact Hlt.
    reflexivity.
  - rewrite (decode_windows_cons (bytes ++ more))
      by (rewrite length_app; lia).
    rewrite (decode_windows_cons bytes) by exact Hge.
    rewrite (trailing_fragment_cons bytes) by exact Hge.
    rewrite skipn_app.
    replace (PACKET_SIZE - length bytes)%nat with 0%nat by lia.
    rewrite skipn_O, IH.
    simpl. f_equal.
    rewrite (parse_packet_window (bytes ++ more)),
      (parse_packet_window bytes), !skipn_O, firstn_app.
    replace (PACKET_SIZE - length bytes)%nat with 0%nat by lia.
    rewrite firstn_O, app_nil_r. reflexivity.
Qed.

Lemma trailing_fragment_app (bytes more : list byte) :
  trailing_fragment (bytes ++ more)
  = trailing_fragment (trailing_fragment bytes ++ more).
Proof.
  induction bytes as [bytes Hlt | bytes Hge IH] using window_induction.
  - rewrite (trailing_fragment_short bytes) by exact Hlt. reflexivity.
  - rewrite (trailing_fragment_cons (bytes ++ more))
      by (rewrite length_app; lia).
    rewrite (trailing_fragment_cons bytes) by exact Hge.
    rewrite skipn_app.
    replace (PACKET_SIZE - length bytes)%nat with 0%nat by lia.
    rewrite skipn_O. exact IH.
Qed.

Lemma absorb_nil (st : stream_state) :
  (length (receive_buffer st) < PACKET_SIZE)%nat -> absorb [] st = st.
Proof.
  intros H. destruct st as [buf m ds]. unfold absorb. simpl in *.
  rewrite !app_nil_r.
  rewrite trailing_fragment_short, decode_windows_short by exact H.
  simpl. rewrite app_nil_r. reflexivity.
Qed.

Lemma absorb_app (bytes more : list byte) (st : stream_state) :
  absorb more (absorb bytes st) = absorb (bytes ++ more) st.
Proof.
  unfold absorb. simpl.
  rewrite !app_assoc.
  rewrite <- (trailing_fragment_app (receive_buffer st ++ bytes) more).
  rewrite (decode_windows_app (receive_buffer st ++ bytes) more).
  rewrite store_all_app, <- !app_assoc.
  reflexivity.
Qed.

Lemma absorb_buffer_length (bytes : list byte) (st : stream_state) :
  (length (receive_buffer (absorb bytes st)) < PACKET_SIZE)%nat.
Proof. apply trailing_fragment_length. Qed.

(** The inner loop, given enough fuel, decodes every complete window of
    the buffer and leaves the trailing fragment. *)
Lemma drain_loop_spec (fuel : nat) (st : stream_state) :
  (length (receive_buffer st) / PACKET_SIZE < fuel)%nat ->
  drain_loop fuel st = Some (absorb [] st).
Proof.
  revert st. induction fuel as [| fuel IH]; intros st Hfuel; [lia |].
  cbn [drain_loop].
  destruct (Nat.leb_spec PACKET_SIZE (length (receive_buffer st)))
    as [Hge | Hlt].
  - rewrite IH.
    + f_equal. destruct st as [buf m ds]. unfold absorb, take_packet.
      cbn [receive_buffer received_packets decoded] in *.
      rewrite !app_nil_r.
      rewrite (trailing_fragment_cons buf), (decode_windows_cons buf)
        by exact Hge.
      unfold store_all. cbn [fold_left].
      rewrite <- app_assoc. reflexivity.
    + unfold take_packet. cbn [receive_buffer].
      rewrite length_skipn.
      rewrite (div_packet_step _ Hge) in Hfuel. lia.
  - rewrite absorb_nil by exact Hlt. reflexivity.
Qed.

Lemma drain_spec (st : stream_state) : drain st = Some (absorb [] st).
Proof.
  unfold drain. apply drain_loop_spec.
  apply Nat.lt_succ_r.
  apply Nat.Div0.div_le_upper_bound. unfold PACKET_SIZE. lia.
Qed.

Lemma drain_append (data : list byte) (st : stream_state) :
  drain (append_chunk data st) = Some (absorb data st).
Proof.
  rewrite drain_spec. f_equal.
  unfold absorb, append_chunk. simpl. rewrite !app_nil_r. reflexivity.
Qed.

(** What a call of [recv] does to the script. *)
Lemma recv_spec (timed : bool) (sock : socket) (len : nat) :
  (0 < len)%nat ->
  match recv timed sock len with
  | (Received data, sock') =>
      data <> []
      /\ (length data <= len)%nat
      /\ delivered sock = data ++ delivered sock'
      /\ script_end timed sock' = script_end timed sock
      /\ (script_weight sock' < script_weight sock)%nat
  | (Closed, _) =>
      delivered sock = [] /\ script_end timed sock = ServerClosed
  | (Failed e, _) =>
      delivered sock = []
      /\ script_end timed sock
         = (if is_timeout e then ReceiveTimeout else ReceiveError e)
  | (Blocked, _) =>
      delivered sock = [] /\ script_end timed sock = NeverReturns
  end.
Proof.
  intros Hlen.
  induction sock as [| ev rest IH]; simpl.
  - destruct timed; split; reflexivity.
  - destruct ev as [bytes | | e].
    + destruct bytes as [| b bytes].
      * destruct (recv timed rest len) as [[data | | e |] sock'].
        -- destruct IH as (H1 & H2 & H3 & H4 & H5).
           repeat split; try assumption. simpl. lia.
        -- exact IH.
        -- exact IH.
        -- exact IH.
      * destruct (Nat.leb_spec (length (b :: bytes)) len) as [Hle | Hgt].
        -- repeat split; try reflexivity; [discriminate | exact Hle |].
           simpl. lia.
        -- repeat split.
           ++ destruct len; [lia | discriminate].
           ++ rewrite length_firstn. lia.
           ++ simpl delivered. rewrite app_assoc, firstn_skipn. reflexivity.
           ++ simpl script_weight. rewrite length_skipn. simpl length. lia.
    + split; reflexivity.
    + split; reflexivity.
Qed.

(** The outer loop, given enough fuel, ends in the state that fixed-window
    decoding of everything the script delivers gives, in the way the
    script ends. *)
Lemma stream_loop_spec (fuel : nat) (timed : bool) (sock : socket)
    (st : stream_state) :
  (script_weight sock <= fuel)%nat ->
  (length (receive_buffer st) < PACKET_SIZE)%nat ->
  stream_loop fuel timed sock st
  = Some (absorb (delivered sock) st, script_end timed sock).
Proof.
  revert sock st.
  induction fuel as [| fuel IH]; intros sock st Hfuel Hbuf.
  - destruct sock as [| [] ?]; simpl in Hfuel; lia.
  - simpl stream_loop.
    pose proof (recv_spec timed sock TEMP_BUFFER_SIZE) as Hrecv.
    destruct (recv timed sock TEMP_BUFFER_SIZE) as [[data | | e |] sock'].
    + destruct Hrecv as (_ & _ & Hd & He & Hw); [unfold TEMP_BUFFER_SIZE; lia |].
      rewrite drain_append. simpl bind.
      rewrite IH; [| lia | apply absorb_buffer_length].
      rewrite absorb_app, <- Hd, He. reflexivity.
    + destruct Hrecv as (Hd & He); [unfold TEMP_BUFFER_SIZE; lia |].
      rewrite Hd, He, absorb_nil by exact Hbuf. reflexivity.
    + destruct Hrecv as (Hd & He); [unfold TEMP_BUFFER_SIZE; lia |].
      rewrite Hd, He, absorb_nil by exact Hbuf.
      destruct (is_timeout e); reflexivity.
    + destruct Hrecv as (Hd & He); [unfold TEMP_BUFFER_SIZE; lia |].
      rewrite Hd, He, absorb_nil by exact Hbuf. reflexivity.
Qed.

Lemma receive_stream_spec (timed : bool) (sock : socket) (m : PacketMap.t) :
  receive_stream timed sock m
  = Some (absorb (delivered sock) (initial_stream_state m),
          script_end timed sock).
Proof.
  unfold receive_stream. apply stream_loop_spec.
  - apply Nat.le_refl.
  - simpl. unfold PACKET_SIZE. lia.
Qed.

Lemma delivered_segments (chunks : list (list byte)) (closing : socket) :
  delivered (map Segment chunks ++ closing) = concat chunks ++ delivered closing.
Proof.
  induction chunks as [| c chunks IH]; simpl.
  - reflexivity.
  - rewrite IH, app_assoc. reflexivity.
Qed.

Lemma script_end_segments (timed : bool) (chunks : list (list byte))
    (closing : socket) :
  script_end timed (map Segment chunks ++ closing) = script_end timed closing.
Proof.
  induction chunks as [| c chunks IH]; simpl; [reflexivity | exact IH].
Qed.

(** Two scripts that deliver the same bytes and end the same way leave
    the loop in the same state: the split does not matter. *)
Lemma stream_split_independent (timed : bool) (sock sock' : socket)
    (m : PacketMap.t) :
  delivered sock = delivered sock' ->
  script_end timed sock = script_end timed sock' ->
  receive_stream timed sock m = receive_stream timed sock' m.
Proof.
  intros Hd He. rewrite !receive_stream_spec, Hd, He. reflexivity.
Qed.

Lemma one_byte_at_a_time (timed : bool) (bytes : list byte) (m : PacketMap.t) :
  receive_stream timed (map (fun b => Segment [b]) bytes) m
  = receive_stream timed [Segment bytes] m.
Proof.
  apply stream_split_independent.
  - simpl. rewrite app_nil_r.
    induction bytes as [| b bytes IH]; simpl; [reflexivity | f_equal; exact IH].
  - induction bytes as [| b bytes IH]; simpl; [reflexivity | exact IH].
Qed.

(** ** The gap scan *)

Lemma incr_below_max (i : Z) :
  Int32.INT32_MIN <= i < Int32.INT32_MAX -> Int32.incr i = i + 1.
Proof.
  intros H. unfold Int32.incr. apply to_int32_id.
  unfold Int32.in_range. lia.
Qed.

(** Once the bound is [INT32_MAX] or more, [i <= max] holds for every
    [int32_t] and the loop cannot be left. *)
Lemma gap_loop_never_exits (fuel : nat) (i max : Z) (m : PacketMap.t)
    (acc missing : list Z) :
  Int32.INT32_MAX <= max -> Int32.in_range i ->
  gap_loop fuel i max m acc <> Some (Listed missing).
Proof.
  intros Hmax. revert i acc.
  induction fuel as [| fuel IH]; intros i acc Hi; cbn [gap_loop].
  - discriminate.
  - destruct (Z.leb_spec i max) as [_ | Hgt].
    + destruct (PacketMap.find i m);
        [apply IH; apply to_int32_range |].
      destruct (Z.of_nat (length acc) <? VECTOR_MAX_SIZE);
        [apply IH; apply to_int32_range | discriminate].
    + unfold Int32.in_range in Hi. lia.
Qed.

(** Below [INT32_MAX] the loop terminates and collects the absent
    numbers from [i] up to the bound. *)
Lemma gap_loop_exact (n fuel : nat) (i max : Z) (m : PacketMap.t)
    (acc : list Z) :
  max < Int32.INT32_MAX -> Int32.INT32_MIN <= i ->
  Z.of_nat (length acc) < i ->
  n = Z.to_nat (max + 1 - i) -> (n < fuel)%nat ->
  gap_loop fuel i max m acc
  = Some (Listed
            (acc ++ filter (absent m)
                      (map (fun k => Z.of_nat k + i) (seq 0 n)))).
Proof.
  intros Hmax. revert fuel i acc.
  induction n as [| n IH]; intros fuel i acc Hi Hacc Hn Hfuel;
    (destruct fuel as [| fuel]; [lia |]); cbn [gap_loop].
  - destruct (Z.leb_spec i max) as [Hle | _]; [lia |].
    cbn [seq map filter]. rewrite app_nil_r. reflexivity.
  - destruct (Z.leb_spec i max) as [Hle | Hgt]; [| lia].
    rewrite incr_below_max by lia.
    rewrite <- cons_seq, <- seq_shift. cbn [map filter].
    rewrite map_map.
    replace (Z.of_nat 0 + i) with i by lia.
    rewrite (map_ext (fun k => Z.of_nat (S k) + i)
                     (fun k => Z.of_nat k + (i + 1))) by (intros; lia).
    unfold absent at 1.
    destruct (PacketMap.find i m).
    + rewrite (IH fuel (i + 1)) by lia. reflexivity.
    + destruct (Z.ltb_spec (Z.of_nat (length acc)) VECTOR_MAX_SIZE)
        as [_ | Hfull];
        [| unfold VECTOR_MAX_SIZE, Int32.INT32_MAX in *; lia].
      rewrite (IH fuel (i + 1));
        [| lia | rewrite length_app; cbn [length]; lia | lia | lia].
      rewrite <- app_assoc. reflexivity.
Qed.

Lemma find_missing_exact (fuel : nat) (m : PacketMap.t) :
  max_sequence m < Int32.INT32_MAX ->
  (Z.to_nat (max_sequence m) < fuel)%nat ->
  find_missing fuel m = Some (Listed (gaps m)).
Proof.
  intros Hmax Hfuel. unfold find_missing, gaps.
  rewrite (gap_loop_exact (Z.to_nat (max_sequence m)) fuel 1)
    ; [reflexivity | exact Hmax | unfold Int32.INT32_MIN; lia
       | cbn [length]; lia | f_equal; lia | exact Hfuel].
Qed.

(** Whenever the loop is left, every collected number is positive and
    absent from the map. *)
Lemma gap_loop_sound (fuel : nat) (i max : Z) (m : PacketMap.t)
    (acc missing : list Z) :
  1 <= i <= Int32.INT32_MAX ->
  Forall (fun s => 1 <= s /\ PacketMap.find s m = None) acc ->
  gap_loop fuel i max m acc = Some (Listed missing) ->
  Forall (fun s => 1 <= s /\ PacketMap.find s m = None) missing.
Proof.
  revert i acc.
  induction fuel as [| fuel IH]; intros i acc Hi Hacc; cbn [gap_loop].
  - discriminate.
  - destruct (Z.leb_spec i max) as [Hle | Hgt].
    + destruct (Z.eq_dec i Int32.INT32_MAX) as [Hlast | Hless].
      * assert (Hnever : forall acc',
                   gap_loop fuel (Int32.incr i) max m acc'
                   <> Some (Listed missing)).
        { intros acc'. apply gap_loop_never_exits; [lia |].
          apply to_int32_range. }
        destruct (PacketMap.find i m);
          [intros H; destruct (Hnever _ H) |].
        destruct (Z.of_nat (length acc) <? VECTOR_MAX_SIZE);
          [intros H; destruct (Hnever _ H) | discriminate].
      * rewrite incr_below_max by (unfold Int32.INT32_MIN; lia).
        destruct (PacketMap.find i m) eqn:Hfind;
          [apply IH; [lia | exact Hacc] |].
        destruct (Z.of_nat (length acc) <? VECTOR_MAX_SIZE);
          [| discriminate].
        apply IH; [lia |].
        apply Forall_app. split; [exact Hacc |].
        constructor; [| constructor]. split; [lia | exact Hfind].
    + intros H. injection H as <-. exact Hacc.
Qed.

Lemma find_missing_sound (fuel : nat) (m : PacketMap.t) (missing : list Z) :
  find_missing fuel m = Some (Listed missing) ->
  forall s, In s missing -> 1 <= s /\ PacketMap.find s m = None.
Proof.
  unfold find_missing. intros H.
  apply Forall_forall.
  apply (gap_loop_sound fuel 1 (max_sequence m) m [] missing);
    [unfold Int32.INT32_MAX; lia | constructor | exact H].
Qed.

Lemma gaps_spec (m : PacketMap.t) (i : Z) :
  In i (gaps m)
  <-> 1 <= i <= max_sequence m /\ ~ In i (PacketMap.keys m).
Proof.
  unfold gaps. rewrite filter_In, in_map_iff.
  rewrite <- find_none_iff.
  split.
  - intros [(n & Hn & Hin) Habs].
    apply in_seq in Hin.
    split; [lia |].
    unfold absent in Habs.
    destruct (PacketMap.find i m); [discriminate | reflexivity].
  - intros [Hi Hfind]. split.
    + exists (Z.to_nat (i - 1)). split; [lia |].
      apply in_seq. lia.
    + unfold absent. rewrite Hfind. reflexivity.
Qed.

Lemma filter_strongly_sorted {A : Type} (R : A -> A -> Prop)
    (f : A -> bool) (l : list A) :
  StronglySorted R l -> StronglySorted R (filter f l).
Proof.
  induction 1 as [| a l Hl IH Ha]; simpl.
  - constructor.
  - destruct (f a); [| exact IH].
    constructor; [exact IH |].
    apply Forall_forall. intros x Hx.
    apply filter_In in Hx. destruct Hx as [Hx _].
    rewrite Forall_forall in Ha. exact (Ha x Hx).
Qed.

Lemma range_strongly_sorted (start len : nat) (i : Z) :
  StronglySorted Z.lt (map (fun k => Z.of_nat k + i) (seq start len)).
Proof.
  revert start. induction len as [| len IH]; intros start; simpl.
  - constructor.
  - constructor; [apply IH |].
    apply Forall_forall. intros x Hx.
    apply in_map_iff in Hx. destruct Hx as (k & <- & Hk).
    apply in_seq in Hk. lia.
Qed.

Lemma gaps_ascending (m : PacketMap.t) : StronglySorted Z.lt (gaps m).
Proof.
  unfold gaps. apply filter_strongly_sorted, range_strongly_sorted.
Qed.

Lemma max_sequence_empty : max_sequence PacketMap.empty = 0.
Proof. reflexivity. Qed.

Lemma max_sequence_is_key (m : PacketMap.t) :
  m <> [] -> In (max_sequence m) (PacketMap.keys m).
Proof.
  destruct m as [| a m]; [congruence |]. intros _.
  unfold max_sequence. cbn [PacketMap.is_empty].
  destruct (rbegin_nonempty a m) as [[k v] He]. rewrite He.
  change k with (fst (k, v)). apply in_map. apply rbegin_in. exact He.
Qed.

Lemma max_sequence_greatest (m : PacketMap.t) (j : Z) :
  PacketMap.ordered m -> In j (PacketMap.keys m) -> j <= max_sequence m.
Proof.
  intros Hm Hj.
  destruct m as [| a m]; [contradiction |].
  unfold max_sequence. cbn [PacketMap.is_empty].
  destruct (rbegin_nonempty a m) as [[k v] He]. rewrite He.
  exact (rbegin_greatest (a :: m) k v Hm He j Hj).
Qed.

Lemma incr_wraps : Int32.incr Int32.INT32_MAX = Int32.INT32_MIN.
Proof. reflexivity. Qed.

(** A result of the scan is its result with more fuel. *)
Lemma gap_loop_more_fuel (fuel fuel' : nat) (i max : Z) (m : PacketMap.t)
    (acc : list Z) (r : scan) :
  gap_loop fuel i max m acc = Some r -> (fuel <= fuel')%nat ->
  gap_loop fuel' i max m acc = Some r.
Proof.
  revert fuel' i acc.
  induction fuel as [| fuel IH]; intros fuel' i acc H Hle; [discriminate H |].
  destruct fuel' as [| fuel']; [lia |].
  cbn [gap_loop] in *.
  destruct (i <=? max); [| exact H].
  destruct (PacketMap.find i m); [apply IH; [exact H | lia] |].
  destruct (Z.of_nat (length acc) <? VECTOR_MAX_SIZE);
    [apply IH; [exact H | lia] | exact H].
Qed.

Lemma steps_to_range (i a : Z) :
  Int32.in_range i -> Int32.in_range a ->
  0 <= steps_to i a < 2 ^ 32 /\ (steps_to i a = 0 -> i = a).
Proof.
  unfold Int32.in_range, Int32.INT32_MIN, Int32.INT32_MAX, steps_to.
  intros Hi Ha. destruct (Z.leb_spec i a); lia.
Qed.

Lemma steps_to_incr (i a : Z) :
  Int32.in_range i -> Int32.in_range a -> i <> a ->
  steps_to (Int32.incr i) a = steps_to i a - 1.
Proof.
  intros Hi Ha Hne.
  destruct (Z.eq_dec i Int32.INT32_MAX) as [-> | Hlast].
  - rewrite incr_wraps.
    unfold Int32.in_range, Int32.INT32_MIN, Int32.INT32_MAX, steps_to in *.
    destruct (Z.leb_spec (-2147483648) a); destruct (Z.leb_spec 2147483647 a);
      lia.
  - rewrite incr_below_max by (unfold Int32.in_range in Hi; lia).
    unfold steps_to.
    destruct (Z.leb_spec (i + 1) a); destruct (Z.leb_spec i a); lia.
Qed.

(** With the bound at [INT32_MAX] and a number [a] that is not a key,
    the counter comes to [a] again and again, the list grows each time,
    and [push_back] throws in the end. *)
Lemma gap_loop_throws (fuel : nat) (i a max : Z) (m : PacketMap.t)
    (acc : list Z) :
  Int32.INT32_MAX <= max ->
  Int32.in_range a -> PacketMap.find a m = None ->
  Int32.in_range i ->
  Z.of_nat (length acc) <= VECTOR_MAX_SIZE ->
  (VECTOR_MAX_SIZE - Z.of_nat (length acc)) * 2 ^ 32 + steps_to i a
  < Z.of_nat fuel ->
  gap_loop fuel i max m acc = Some Thrown.
Proof.
  intros Hmax Ha Habsent. revert i acc.
  change (2 ^ 32) with 4294967296.
  induction fuel as [| fuel IH]; intros i acc Hi Hlen Hfuel.
  - pose proof (steps_to_range i a Hi Ha) as [Hs _].
    change (Z.of_nat 0) with 0 in Hfuel. lia.
  - cbn [gap_loop].
    destruct (Z.leb_spec i max) as [_ | Hgt];
      [| unfold Int32.in_range in Hi; lia].
    pose proof (to_int32_range (i + 1)) as Hnext.
    fold (Int32.incr i) in Hnext.
    pose proof (steps_to_range i a Hi Ha) as [Hs _].
    pose proof (steps_to_range (Int32.incr i) a Hnext Ha) as [Hs' _].
    change (2 ^ 32) with 4294967296 in Hs, Hs'.
    destruct (PacketMap.find i m) eqn:Hfind.
    + assert (Hne : i <> a) by congruence.
      apply IH; [exact Hnext | exact Hlen |].
      rewrite (steps_to_incr i a Hi Ha Hne). lia.
    + destruct (Z.ltb_spec (Z.of_nat (length acc)) VECTOR_MAX_SIZE)
        as [Hroom | _]; [| reflexivity].
      apply IH; [exact Hnext | |]; rewrite length_app; cbn [length]; lia.
Qed.

Lemma find_missing_throws (m : PacketMap.t) (a : Z) :
  Int32.INT32_MAX <= max_sequence m ->
  Int32.in_range a -> PacketMap.find a m = None ->
  exists fuel0, forall fuel,
    (fuel0 <= fuel)%nat -> find_missing fuel m = Some Thrown.
Proof.
  intros Hmax Ha Habsent.
  assert (H1 : Int32.in_range 1)
    by (unfold Int32.in_range, Int32.INT32_MIN, Int32.INT32_MAX; lia).
  pose proof (steps_to_range 1 a H1 Ha) as [Hs _].
  assert (Hcap : 0 <= VECTOR_MAX_SIZE) by (unfold VECTOR_MAX_SIZE; lia).
  exists (Z.to_nat (VECTOR_MAX_SIZE * 2 ^ 32 + 2 ^ 32)).
  intros fuel Hfuel. unfold find_missing.
  apply (gap_loop_throws fuel 1 a); try assumption.
  change (Z.of_nat (length (@nil Z))) with 0.
  change (2 ^ 32) with 4294967296 in *. lia.
Qed.

(** C2, at the input on which the gap scan fails.  A stream of one
    record whose sequence field is [0x7FFFFFFF] leaves a store whose
    greatest key is [INT32_MAX]; the counter of the scan, an [int32_t],
    can then never exceed the bound (incremented at [INT32_MAX] it wraps
    to [INT32_MIN]), and the scan does not produce a list of missing
    sequence numbers with any amount of fuel: it appends the absent
    numbers round after round until [push_back] throws.  The exception
    is caught at the end of [main]: the run exits with 1, having
    started no recovery session and written no output. *)
Theorem gap_scan_overflows_at_last_sequence :
  exists st,
    receive_stream true [Segment last_sequence_record] PacketMap.empty
    = Some (st, ReceiveTimeout)
    /\ PacketMap.keys (received_packets st) = [Int32.INT32_MAX]
    /\ max_sequence (received_packets st) = Int32.INT32_MAX
    /\ Int32.incr (max_sequence (received_packets st)) = Int32.INT32_MIN
    /\ (forall fuel missing,
          find_missing fuel (received_packets st) <> Some (Listed missing))
    /\ (exists fuel0, forall fuel,
          (fuel0 <= fuel)%nat ->
          find_missing fuel (received_packets st) = Some Thrown)
    /\ (forall fuel srv r,
          main fuel {| initial_socket_created := true;
                       initial_timeout_set := true;
                       initial_address_ok := true;
                       initial_connected := true;
                       initial_send_result := 1;
                       initial_peer := [Segment last_sequence_record];
                       server := srv;
                       output_file_opens := true |} = Some r ->
          r = {| exit_status := Some 1; written := None; sessions := [] |})
    /\ (exists fuel0, forall fuel srv,
          (fuel0 <= fuel)%nat ->
          main fuel {| initial_socket_created := true;
                       initial_timeout_set := true;
                       initial_address_ok := true;
                       initial_connected := true;
                       initial_send_result := 1;
                       initial_peer := [Segment last_sequence_record];
                       server := srv;
                       output_file_opens := true |}
          = Some {| exit_status := Some 1; written := None;
                    sessions := [] |}).
Proof.
  set (store := [(Int32.INT32_MAX, parse_packet last_sequence_record 0)]).
  assert (Hnever : forall fuel missing,
             find_missing fuel store <> Some (Listed missing)).
  { intros fuel missing. unfold find_missing.
    apply gap_loop_never_exits.
    - apply Z.le_refl.
    - unfold Int32.in_range, Int32.INT32_MIN, Int32.INT32_MAX. lia. }
  assert (Hthrows : exists fuel0, forall fuel,
             (fuel0 <= fuel)%nat -> find_missing fuel store = Some Thrown).
  { apply (find_missing_throws store 1).
    - apply Z.le_refl.
    - unfold Int32.in_range, Int32.INT32_MIN, Int32.INT32_MAX. lia.
    - reflexivity. }
  assert (Hmain : forall fuel srv,
             main fuel {| initial_socket_created := true;
                          initial_timeout_set := true;
                          initial_address_ok := true;
                          initial_connected := true;
                          initial_send_result := 1;
                          initial_peer := [Segment last_sequence_record];
                          server := srv;
                          output_file_opens := true |}
             = (scanned <- find_missing fuel store ;;
                match scanned with
                | Thrown => Some failed_run
                | Listed missing_sequences =>
                    r <- recover_all missing_sequences srv store ;;
                    if existsb stalled (snd r) then Some (hung_run (snd r))
                    else Some {| exit_status := Some 0;
                                 written := Some (json_output (fst r));
                                 sessions := snd r |}
                end)).
  { intros fuel srv. unfold main. cbn [negb initial_socket_created
      initial_address_ok initial_connected initial_send_result initial_peer
      initial_timeout_set server output_file_opens].
    change (1 <? 1) with false. cbv iota.
    rewrite receive_stream_spec. cbn [bind fst snd script_end].
    reflexivity. }
  exists (absorb (delivered [Segment last_sequence_record])
            (initial_stream_state PacketMap.empty)).
  split; [rewrite receive_stream_spec; reflexivity |].
  split; [reflexivity |].
  split; [reflexivity |].
  split; [reflexivity |].
  split; [exact Hnever |].
  split; [exact Hthrows |].
  split.
  - intros fuel srv r. rewrite Hmain.
    destruct (find_missing fuel store) as [[missing |] |] eqn:Hscan;
      cbn [bind].
    + destruct (Hnever fuel missing Hscan).
    + intros H. injection H as <-. reflexivity.
    + discriminate.
  - destruct Hthrows as (fuel0 & Hfuel0). exists fuel0.
    intros fuel srv Hle. rewrite Hmain, (Hfuel0 fuel Hle). reflexivity.
Qed.

(** ** The recovery session *)

Lemma write_at_length (buf : list byte) (off : nat) (data : list byte) :
  (off + length data <= length buf)%nat ->
  length (write_at buf off data) = length buf.
Proof.
  intros H. unfold write_at.
  rewrite !length_app, length_firstn, length_skipn. lia.
Qed.

Lemma write_at_prefix (buf : list byte) (off : nat) (data : list byte) :
  (off <= length buf)%nat ->
  firstn (off + length data) (write_at buf off data) = firstn off buf ++ data.
Proof.
  intros H. unfold write_at.
  rewrite app_assoc, firstn_app.
  rewrite firstn_all2 by (rewrite length_app, length_firstn; lia).
  rewrite length_app, length_firstn.
  replace (off + length data - (Nat.min off (length buf) + length data))%nat
    with 0%nat by lia.
  rewrite firstn_O, app_nil_r. reflexivity.
Qed.

Lemma received_nonempty (data : list byte) : data <> [] -> (0 < length data)%nat.
Proof. destruct data; [congruence | simpl; lia]. Qed.

(** The receive loop of a session fills the buffer with the first bytes
    the peer delivers when there are enough of them; *)
Lemma resent_loop_complete (fuel : nat) (seq : Z) (timed : bool)
    (sock : socket) (buf : list byte) (total : nat) :
  (total <= PACKET_SIZE)%nat -> length buf = PACKET_SIZE ->
  (PACKET_SIZE - total < fuel)%nat ->
  (PACKET_SIZE <= total + length (delivered sock))%nat ->
  resent_loop fuel seq timed sock buf total
  = Some (Exits PACKET_SIZE
            (firstn total buf ++ firstn (PACKET_SIZE - total) (delivered sock))
            []).
Proof.
  revert sock buf total.
  induction fuel as [| fuel IH]; intros sock buf total Ht Hbuf Hfuel Hd;
    [lia |].
  cbn [resent_loop].
  destruct (Nat.ltb_spec total PACKET_SIZE) as [Hlt | Hge].
  - pose proof (recv_spec timed sock (PACKET_SIZE - total)) as Hrecv.
    destruct (recv timed sock (PACKET_SIZE - total)) as [[data | | e |] sock'].
    + destruct Hrecv as (Hne & Hlen & Hdel & _ & _); [lia |].
      pose proof (received_nonempty data Hne) as Hpos.
      rewrite Hdel, length_app in Hd.
      rewrite IH.
      * rewrite write_at_prefix by lia.
        rewrite Hdel, firstn_app, (firstn_all2 data) by lia.
        rewrite <- app_assoc.
        replace (PACKET_SIZE - (total + length data))%nat
          with (PACKET_SIZE - total - length data)%nat by lia.
        reflexivity.
      * lia.
      * rewrite write_at_length by lia. exact Hbuf.
      * lia.
      * lia.
    + destruct Hrecv as (Hdel & _); [lia |].
      rewrite Hdel in Hd. simpl in Hd. lia.
    + destruct Hrecv as (Hdel & _); [lia |].
      rewrite Hdel in Hd. simpl in Hd. lia.
    + destruct Hrecv as (Hdel & _); [lia |].
      rewrite Hdel in Hd. simpl in Hd. lia.
  - assert (total = PACKET_SIZE) as -> by lia.
    rewrite Nat.sub_diag, firstn_O, app_nil_r.
    rewrite firstn_all2 by lia. reflexivity.
Qed.

(** gives up, with the count reset to 0, when the peer closes or the
    call fails or times out before that; *)
Lemma resent_loop_abandoned (fuel : nat) (seq : Z) (timed : bool)
    (sock : socket) (buf : list byte) (total : nat) :
  (PACKET_SIZE - total < fuel)%nat ->
  (total + length (delivered sock) < PACKET_SIZE)%nat ->
  returns timed sock = true ->
  exists buf' d,
    resent_loop fuel seq timed sock buf total = Some (Exits 0 buf' [d]).
Proof.
  revert sock buf total.
  induction fuel as [| fuel IH]; intros sock buf total Hfuel Hd Hret; [lia |].
  cbn [resent_loop].
  destruct (Nat.ltb_spec total PACKET_SIZE) as [Hlt | Hge]; [| lia].
  pose proof (recv_spec timed sock (PACKET_SIZE - total)) as Hrecv.
  destruct (recv timed sock (PACKET_SIZE - total)) as [[data | | e |] sock'].
  - destruct Hrecv as (Hne & Hlen & Hdel & Hend & _); [lia |].
    pose proof (received_nonempty data Hne) as Hpos.
    rewrite Hdel, length_app in Hd.
    apply IH; [lia | lia |].
    unfold returns in *. rewrite Hend. exact Hret.
  - eexists. eexists. reflexivity.
  - eexists. eexists. reflexivity.
  - destruct Hrecv as (_ & Hend); [lia |].
    unfold returns in Hret. rewrite Hend in Hret. discriminate Hret.
Qed.

(** and hangs when the peer falls silent before that on a socket
    without receive timeout. *)
Lemma resent_loop_hangs (fuel : nat) (seq : Z) (timed : bool)
    (sock : socket) (buf : list byte) (total : nat) :
  (PACKET_SIZE - total < fuel)%nat ->
  (total + length (delivered sock) < PACKET_SIZE)%nat ->
  returns timed sock = false ->
  resent_loop fuel seq timed sock buf total = Some Hangs.
Proof.
  revert sock buf total.
  induction fuel as [| fuel IH]; intros sock buf total Hfuel Hd Hret; [lia |].
  cbn [resent_loop].
  destruct (Nat.ltb_spec total PACKET_SIZE) as [Hlt | Hge]; [| lia].
  pose proof (recv_spec timed sock (PACKET_SIZE - total)) as Hrecv.
  destruct (recv timed sock (PACKET_SIZE - total)) as [[data | | e |] sock'].
  - destruct Hrecv as (Hne & Hlen & Hdel & Hend & _); [lia |].
    pose proof (received_nonempty data Hne) as Hpos.
    rewrite Hdel, length_app in Hd.
    apply IH; [lia | lia |].
    unfold returns in *. rewrite Hend. exact Hret.
  - destruct Hrecv as (_ & Hend); [lia |].
    unfold returns in Hret. rewrite Hend in Hret. discriminate Hret.
  - destruct Hrecv as (_ & Hend); [lia |].
    unfold returns in Hret. rewrite Hend in Hret.
    destruct (is_timeout e); discriminate Hret.
  - reflexivity.
Qed.

Lemma receive_resent_complete (seq : Z) (timed : bool) (sock : socket) :
  (PACKET_SIZE <= length (delivered sock))%nat ->
  receive_resent seq timed sock
  = Some (Exits PACKET_SIZE (firstn PACKET_SIZE (delivered sock)) []).
Proof.
  intros H. unfold receive_resent.
  rewrite resent_loop_complete.
  - rewrite Nat.sub_0_r. reflexivity.
  - lia.
  - apply repeat_length.
  - lia.
  - lia.
Qed.

Lemma receive_resent_abandoned (seq : Z) (timed : bool) (sock : socket) :
  (length (delivered sock) < PACKET_SIZE)%nat ->
  returns timed sock = true ->
  exists buf' d, receive_resent seq timed sock = Some (Exits 0 buf' [d]).
Proof.
  intros H Hret. unfold receive_resent.
  apply resent_loop_abandoned; [lia | lia | exact Hret].
Qed.

Lemma receive_resent_hangs (seq : Z) (timed : bool) (sock : socket) :
  (length (delivered sock) < PACKET_SIZE)%nat ->
  returns timed sock = false ->
  receive_resent seq timed sock = Some Hangs.
Proof.
  intros H Hret. unfold receive_resent.
  apply resent_loop_hangs; [lia | lia | exact Hret].
Qed.

(** A session in an environment that lets it complete. *)
Lemma session_complete_spec (seq : Z) (env : resend_env) (m : PacketMap.t) :
  session_completes env = true ->
  resend_session seq env m
  = Some {| store_after := store_packet (resent_packet_of env) m;
            request := Some (resend_payload seq);
            outcome := COMPLETE (resent_packet_of env);
            diagnostics :=
              setup_warnings seq env ++
              (if sequence (resent_packet_of env) =? seq then []
               else [WarnSequenceMismatch seq
                       (sequence (resent_packet_of env))]) |}.
Proof.
  unfold session_completes. intros H.
  apply andb_prop in H. destruct H as [H H5].
  apply andb_prop in H. destruct H as [H H4].
  apply andb_prop in H. destruct H as [H H3].
  apply andb_prop in H. destruct H as [H1 H2].
  apply Z.eqb_eq in H4. apply Nat.leb_le in H5.
  unfold resend_session, resent_packet_of, setup_warnings.
  rewrite H1, H2, H3, H4. cbn [negb].
  change (2 =? -1) with false. change (2 =? 2) with true. cbv iota.
  rewrite (receive_resent_complete seq (timeout_set env) (peer env) H5).
  cbn [bind]. rewrite Nat.eqb_refl.
  rewrite app_nil_l. reflexivity.
Qed.

(** A session that hangs. *)
Lemma session_stalled_spec (seq : Z) (env : resend_env) (m : PacketMap.t) :
  session_stalls env = true ->
  resend_session seq env m
  = Some {| store_after := m;
            request := Some (resend_payload seq);
            outcome := STALLED;
            diagnostics := setup_warnings seq env |}.
Proof.
  unfold session_stalls, session_connects. intros H.
  apply andb_prop in H. destruct H as [H H6].
  apply andb_prop in H. destruct H as [H H5].
  apply andb_prop in H. destruct H as [H H4].
  apply andb_prop in H. destruct H as [H H3].
  apply andb_prop in H. destruct H as [H1 H2].
  apply Z.eqb_eq in H4. apply Nat.ltb_lt in H5.
  apply negb_true_iff in H6.
  unfold resend_session, setup_warnings.
  rewrite H1, H2, H3, H4. cbn [negb].
  change (2 =? -1) with false. change (2 =? 2) with true. cbv iota.
  rewrite (receive_resent_hangs seq (timeout_set env) (peer env) H5 H6).
  reflexivity.
Qed.

(** A session in any other environment. *)
Lemma session_abandoned_spec (seq : Z) (env : resend_env) (m : PacketMap.t) :
  session_completes env = false ->
  session_stalls env = false ->
  exists ds,
    resend_session seq env m
    = Some (abandon m
              (if session_connects env then Some (resend_payload seq) else None)
              ds).
Proof.
  unfold session_completes, session_stalls, session_connects, resend_session.
  intros Hc Hs.
  destruct (socket_created env); cbn [negb andb] in *;
    [| eexists; reflexivity].
  destruct (address_ok env); cbn [negb andb] in *; [| eexists; reflexivity].
  destruct (connected env); cbn [negb andb] in *; [| eexists; reflexivity].
  destruct (send_result env =? -1); [eexists; reflexivity |].
  destruct (send_result env =? 2); [| eexists; reflexivity].
  cbn [andb] in Hc, Hs. apply Nat.leb_gt in Hc.
  pose proof Hc as Hlt. apply Nat.ltb_lt in Hlt. rewrite Hlt in Hs.
  cbn [andb] in Hs. apply negb_false_iff in Hs.
  destruct (receive_resent_abandoned seq (timeout_set env) (peer env) Hc Hs)
    as (buf' & d & ->).
  cbn [bind]. change (0 =? PACKET_SIZE)%nat with false. cbv iota.
  eexists. reflexivity.
Qed.

Lemma session_completes_connects (env : resend_env) :
  session_completes env = true -> session_connects env = true.
Proof.
  unfold session_completes, session_connects. intros H.
  apply andb_prop in H. destruct H as [H _].
  apply andb_prop in H. destruct H as [H _].
  exact H.
Qed.

Lemma session_stalls_connects (env : resend_env) :
  session_stalls env = true -> session_connects env = true.
Proof.
  unfold session_stalls. intros H.
  apply andb_prop in H. destruct H as [H _].
  apply andb_prop in H. destruct H as [H _].
  apply andb_prop in H. destruct H as [H _].
  exact H.
Qed.

(** Every session has a result, and its environment alone decides what
    it sends, how it ends and what it leaves in the store. *)
Lemma session_total (seq : Z) (env : resend_env) (m : PacketMap.t) :
  exists r,
    resend_session seq env m = Some r
    /\ request r
       = (if session_connects env then Some (resend_payload seq) else None)
    /\ outcome r
       = (if session_completes env then COMPLETE (resent_packet_of env)
          else if session_stalls env then STALLED
          else ABANDONED)
    /\ store_after r
       = (if session_completes env then store_packet (resent_packet_of env) m
          else m).
Proof.
  destruct (session_completes env) eqn:Hc.
  - pose proof (session_complete_spec seq env m Hc) as Hr.
    rewrite (session_completes_connects env Hc).
    eexists. split; [exact Hr |]. repeat split.
  - destruct (session_stalls env) eqn:Hs.
    + pose proof (session_stalled_spec seq env m Hs) as Hr.
      rewrite (session_stalls_connects env Hs).
      eexists. split; [exact Hr |]. repeat split.
    + destruct (session_abandoned_spec seq env m Hc Hs) as (ds & Hr).
      eexists. split; [exact Hr |]. repeat split.
Qed.

Lemma session_complete_inv (seq : Z) (env : resend_env) (m : PacketMap.t)
    (r : session_result) (resent_packet : Packet) :
  resend_session seq env m = Some r ->
  outcome r = COMPLETE resent_packet ->
  session_completes env = true
  /\ resent_packet = resent_packet_of env
  /\ store_after r = store_packet resent_packet m.
Proof.
  intros Hr Ho.
  destruct (session_total seq env m) as (r' & Hr' & _ & Hout & Hst).
  rewrite Hr in Hr'. injection Hr' as <-.
  rewrite Ho in Hout.
  destruct (session_completes env).
  - injection Hout as ->. repeat split. exact Hst.
  - destruct (session_stalls env); discriminate Hout.
Qed.

Lemma session_not_stalled (seq : Z) (env : resend_env) (m : PacketMap.t)
    (r : session_result) :
  resend_session seq env m = Some r ->
  session_stalls env = false -> stalled r = false.
Proof.
  intros Hr Hs.
  destruct (session_total seq env m) as (r' & Hr' & _ & Hout & _).
  rewrite Hr in Hr'. injection Hr' as <-.
  unfold stalled. rewrite Hout, Hs.
  destruct (session_completes env); reflexivity.
Qed.

(** When no session hangs, the loop runs one session per missing
    sequence number, in order. *)
Lemma recover_all_requests (missing : list Z) (server : Z -> resend_env)
    (m : PacketMap.t) :
  (forall s, session_stalls (server s) = false) ->
  exists o,
    recover_all missing server m = Some o
    /\ map request (snd o)
       = map (fun s => if session_connects (server s)
                       then Some (resend_payload s) else None) missing.
Proof.
  intros Hlive.
  revert m. induction missing as [| s rest IH]; intros m.
  - eexists. split; reflexivity.
  - cbn [recover_all].
    destruct (session_total s (server s) m) as (r & Hr & Hreq & _).
    rewrite Hr. cbn [bind].
    rewrite (session_not_stalled s (server s) m r Hr (Hlive s)).
    destruct (IH (store_after r)) as (o & Ho & Hmap).
    rewrite Ho. cbn [bind].
    eexists. split; [reflexivity |].
    cbn [snd map]. rewrite Hreq, Hmap. reflexivity.
Qed.

(** C4.  Insertion into the record store is last-write-wins: of two
    packets with the same sequence number stored one after the other,
    only the second is left, exactly as if the first had never been
    stored, and it is what the key finds; storing a packet twice is
    storing it once.  The streaming loop and the recovery session both
    write through this operation. *)
Theorem store_last_write_wins (m : PacketMap.t) (first second : Packet) :
  sequence first = sequence second ->
  store_packet second (store_packet first m) = store_packet second m
  /\ PacketMap.find (sequence second) (store_packet second (store_packet first m))
     = Some second
  /\ store_packet first (store_packet first m) = store_packet first m
  /\ (forall st, received_packets (take_packet st)
                 = store_packet (parse_packet (receive_buffer st) 0)
                     (received_packets st))
  /\ (forall seq env r resent_packet,
         resend_session seq env m = Some r ->
         outcome r = COMPLETE resent_packet ->
         store_after r = store_packet resent_packet m).
Proof.
  intros Hseq.
  split; [unfold store_packet; rewrite Hseq; apply assign_assign |].
  split; [apply find_assign_same |].
  split; [apply assign_assign |].
  split; [reflexivity |].
  intros seq env r resent_packet Hr Ho.
  exact (proj2 (proj2 (session_complete_inv seq env m r resent_packet Hr Ho))).
Qed.

(** C5.  Whenever a session gets as far as sending, whatever the missing
    sequence number, the request handed to [send] is the two bytes
    [2; seq mod 256]: the low byte is in [0, 255], is the number itself
    when that is in [0, 255] and its truncation otherwise; a number
    outside the byte range takes the same path as any other (same
    outcome, same store); and, unless a session hangs, the loop attempts
    every missing sequence number in turn, each with its truncated
    byte. *)
Theorem resend_request_truncates_sequence
    (seq : Z) (env : resend_env) (m : PacketMap.t) :
  session_connects env = true ->
  exists r,
    resend_session seq env m = Some r
    /\ request r = Some [2; seq mod 256]
    /\ 0 <= seq mod 256 <= 255
    /\ (0 <= seq <= 255 -> seq mod 256 = seq)
    /\ (forall seq', exists r',
           resend_session seq' env m = Some r'
           /\ outcome r' = outcome r /\ store_after r' = store_after r)
    /\ (forall missing server,
           (forall s, session_connects (server s) = true) ->
           (forall s, session_stalls (server s) = false) ->
           exists o, recover_all missing server m = Some o
                     /\ map request (snd o)
                        = map (fun s => Some [2; s mod 256]) missing).
Proof.
  intros Hc.
  destruct (session_total seq env m) as (r & Hr & Hreq & Hout & Hst).
  exists r. rewrite Hc in Hreq.
  split; [exact Hr |].
  split; [exact Hreq |].
  split; [pose proof (Z.mod_pos_bound seq 256); lia |].
  split; [intros H; apply Z.mod_small; lia |].
  split.
  - intros seq'.
    destruct (session_total seq' env m) as (r' & Hr' & _ & Hout' & Hst').
    exists r'. rewrite Hout, Hout', Hst, Hst'. repeat split. exact Hr'.
  - intros missing server Hall Hlive.
    destruct (recover_all_requests missing server m Hlive) as (o & Ho & Hmap).
    exists o. split; [exact Ho |].
    rewrite Hmap. apply map_ext. intros s. rewrite Hall. reflexivity.
Qed.

(** C6.  A session that collects all 17 bytes decodes them with the
    frame decoder and stores the packet under the sequence number it
    carries.  When that differs from the requested one, the session
    only warns: the requested key is left as it was, and the packet is
    found under its own number. *)
Theorem completed_session_files_under_decoded_sequence
    (seq : Z) (env : resend_env) (m : PacketMap.t) :
  session_completes env = true ->
  let resent_packet := parse_packet (firstn PACKET_SIZE (delivered (peer env))) 0 in
  exists r,
    resend_session seq env m = Some r
    /\ outcome r = COMPLETE resent_packet
    /\ store_after r = store_packet resent_packet m
    /\ PacketMap.find (sequence resent_packet) (store_after r)
       = Some resent_packet
    /\ (sequence resent_packet <> seq ->
        PacketMap.find seq (store_after r) = PacketMap.find seq m
        /\ In (WarnSequenceMismatch seq (sequence resent_packet))
              (diagnostics r))
    /\ (sequence resent_packet = seq ->
        diagnostics r = setup_warnings seq env).
Proof.
  intros Hc resent_packet.
  pose proof (session_complete_spec seq env m Hc) as Hr.
  unfold resent_packet_of in Hr. fold resent_packet in Hr.
  eexists. split; [exact Hr |].
  cbn [outcome store_after diagnostics].
  split; [reflexivity |].
  split; [reflexivity |].
  split; [apply find_assign_same |].
  split.
  - intros Hne. split.
    + apply find_assign_other. congruence.
    + apply in_or_app. right.
      destruct (Z.eqb_spec (sequence resent_packet) seq);
        [contradiction | left; reflexivity].
  - intros Heq. rewrite Heq, Z.eqb_refl. apply app_nil_r.
Qed.

(** The causes of an abandoned session. *)
Lemma abandon_causes (env : resend_env) :
  socket_created env = false \/ address_ok env = false
  \/ connected env = false \/ send_result env <> 2
  \/ ((length (delivered (peer env)) < PACKET_SIZE)%nat
      /\ returns (timeout_set env) (peer env) = true) ->
  session_completes env = false /\ session_stalls env = false.
Proof.
  unfold session_completes, session_stalls, session_connects.
  intros [H | [H | [H | [H | [H Hret]]]]].
  - rewrite H. split; reflexivity.
  - rewrite H, andb_false_r. split; reflexivity.
  - rewrite H, andb_false_r. split; reflexivity.
  - apply Z.eqb_neq in H. rewrite H, !andb_false_r. split; reflexivity.
  - rewrite Hret. apply Nat.leb_gt in H. rewrite H, !andb_false_r.
    split; reflexivity.
Qed.

(** C7.  A session that is abandoned, because the socket, the address,
    the connection or the send fails, or because the peer closes, the
    call fails or the idle timeout elapses before 17 bytes have arrived,
    ends in [ABANDONED] with the store exactly as it found it (the
    requested key included), keeps no packet, and the loop goes on with
    the remaining missing sequence numbers on that same store. *)
Theorem abandoned_session_leaves_store
    (seq : Z) (rest : list Z) (server : Z -> resend_env) (m : PacketMap.t) :
  socket_created (server seq) = false \/ address_ok (server seq) = false
  \/ connected (server seq) = false \/ send_result (server seq) <> 2
  \/ ((length (delivered (peer (server seq))) < PACKET_SIZE)%nat
      /\ returns (timeout_set (server seq)) (peer (server seq)) = true) ->
  exists r,
    resend_session seq (server seq) m = Some r
    /\ outcome r = ABANDONED
    /\ store_after r = m
    /\ PacketMap.find seq (store_after r) = PacketMap.find seq m
    /\ recover_all (seq :: rest) server m
       = (o <- recover_all rest server m ;; Some (fst o, r :: snd o)).
Proof.
  intros Hcause. apply abandon_causes in Hcause.
  destruct Hcause as [Hc Hs].
  destruct (session_total seq (server seq) m) as (r & Hr & _ & Hout & Hst).
  rewrite Hc in Hout, Hst. rewrite Hs in Hout.
  exists r.
  split; [exact Hr |].
  split; [exact Hout |].
  split; [exact Hst |].
  split; [rewrite Hst; reflexivity |].
  cbn [recover_all]. rewrite Hr. cbn [bind].
  unfold stalled. rewrite Hout, Hst. reflexivity.
Qed.

(** C9.  A session that completes changes the store at one key only,
    the sequence number of the packet it received: every other key finds
    what it found before, no key but that one is added, and a packet
    that streaming had stored under that number is replaced by the
    recovered one.  The session writes the same diagnostics whatever the
    store holds: the replacement is not reported. *)
Theorem completed_session_frame
    (seq : Z) (env : resend_env) (m : PacketMap.t) :
  session_completes env = true ->
  let resent_packet := resent_packet_of env in
  exists r,
    resend_session seq env m = Some r
    /\ outcome r = COMPLETE resent_packet
    /\ (forall k, k <> sequence resent_packet ->
                  PacketMap.find k (store_after r) = PacketMap.find k m)
    /\ (forall k, In k (PacketMap.keys (store_after r))
                  <-> k = sequence resent_packet \/ In k (PacketMap.keys m))
    /\ (forall streamed,
           PacketMap.find (sequence resent_packet) m = Some streamed ->
           PacketMap.find (sequence resent_packet) (store_after r)
           = Some resent_packet)
    /\ (forall m', exists r',
           resend_session seq env m' = Some r'
           /\ diagnostics r' = diagnostics r).
Proof.
  intros Hc resent_packet.
  pose proof (session_complete_spec seq env m Hc) as Hr.
  fold resent_packet in Hr.
  eexists. split; [exact Hr |].
  cbn [outcome store_after diagnostics]. unfold store_packet.
  split; [reflexivity |].
  split; [intros k Hk; apply find_assign_other; exact Hk |].
  split; [intros k; apply keys_assign |].
  split; [intros streamed _; apply find_assign_same |].
  intros m'.
  pose proof (session_complete_spec seq env m' Hc) as Hr'.
  fold resent_packet in Hr'.
  eexists. split; [exact Hr' |]. reflexivity.
Qed.

(** ** The output *)

Lemma json_output_sequences (m : PacketMap.t) :
  keyed_by_sequence m ->
  map js_packetSequence (json_output m) = PacketMap.keys m.
Proof.
  unfold keyed_by_sequence, json_output, PacketMap.keys.
  intros H. rewrite map_map.
  apply map_ext_in. intros e He.
  rewrite Forall_forall in H. symmetry. exact (H e He).
Qed.

Lemma json_output_in (m : PacketMap.t) (k : Z) (packet : Packet) :
  In (k, packet) m -> In (render packet) (json_output m).
Proof.
  intros H. unfold json_output.
  change (render packet) with ((fun pair => render (snd pair)) (k, packet)).
  apply in_map. exact H.
Qed.

Lemma negative_keys_no_gap (m : PacketMap.t) :
  m <> [] -> Forall (fun k => k < 0) (PacketMap.keys m) ->
  max_sequence m < 0.
Proof.
  intros Hne Hneg.
  rewrite Forall_forall in Hneg.
  apply Hneg. apply max_sequence_is_key. exact Hne.
Qed.

Lemma trim_symbol_keeps_last (s : list byte) (c : byte) :
  mem_byte c (c_str trim_literal) = false ->
  trim_symbol (s ++ [c]) = s ++ [c].
Proof.
  intros Hc. unfold trim_symbol, find_last_not_of.
  rewrite fold_left_app. cbn [fold_left]. rewrite Hc. cbn [snd].
  assert (Hfst : forall l acc,
             fst (fold_left
                    (fun (acc : nat * option nat) c0 =>
                       (S (fst acc),
                        if mem_byte c0 (c_str trim_literal) then snd acc
                        else Some (fst acc))) l acc)
             = (length l + fst acc)%nat).
  { induction l as [| x l IH]; intros acc; cbn [fold_left length].
    - reflexivity.
    - rewrite IH. cbn [fst]. lia. }
  rewrite Hfst. cbn [fst].
  rewrite firstn_all2; [reflexivity |].
  rewrite length_app. simpl. lia.
Qed.

(** C8, at the input on which the trimming fails.  The set of characters
    handed to [find_last_not_of] is a C string and ends at its first
    NUL, so that it holds the space alone.  A symbol that ends in NUL
    bytes is therefore rendered with them: the field ["AB\0\0"] gives
    the four bytes ["AB\0\0"], not ["AB"].  A field of spaces does give
    the empty string. *)
Theorem trim_symbol_keeps_nul_padding :
  c_str trim_literal = [x20]
  /\ trim_symbol [x41; x42; x00; x00] = [x41; x42; x00; x00]
  /\ js_symbol (render (parse_packet record_1 0)) = [x41; x42; x00; x00]
  /\ js_symbol (render (parse_packet record_1 0)) <> [x41; x42]
  /\ (forall s, trim_symbol (s ++ [x00]) = s ++ [x00])
  /\ trim_symbol [x20; x20; x20; x20] = [].
Proof.
  split; [reflexivity |].
  split; [reflexivity |].
  split; [reflexivity |].
  split; [discriminate |].
  split; [| reflexivity].
  intros s. apply trim_symbol_keeps_last. reflexivity.
Qed.

(** ** The gap scan below the last sequence number, and whole runs *)

(** The stores the client builds are well formed: the keys ascend and
    every packet is filed under its own sequence number. *)
Lemma stream_store_well_formed (timed : bool) (sock : socket)
    (st : stream_state) (e : stream_end) :
  receive_stream timed sock PacketMap.empty = Some (st, e) ->
  PacketMap.ordered (received_packets st)
  /\ keyed_by_sequence (received_packets st).
Proof.
  rewrite receive_stream_spec. intros H. injection H as <- _.
  unfold absorb. cbn [received_packets initial_stream_state].
  split.
  - apply store_all_ordered. constructor.
  - apply store_all_keyed. constructor.
Qed.

Lemma session_store_well_formed (seq : Z) (env : resend_env)
    (m : PacketMap.t) (r : session_result) :
  resend_session seq env m = Some r ->
  PacketMap.ordered m /\ keyed_by_sequence m ->
  PacketMap.ordered (store_after r) /\ keyed_by_sequence (store_after r).
Proof.
  intros Hr [Hord Hkey].
  destruct (session_total seq env m) as (r' & Hr' & _ & _ & Hst).
  rewrite Hr in Hr'. injection Hr' as <-.
  rewrite Hst.
  destruct (session_completes env); [| split; assumption].
  split.
  - apply assign_ordered. exact Hord.
  - apply store_packet_keyed. exact Hkey.
Qed.

Lemma recover_all_well_formed (missing : list Z) (server : Z -> resend_env)
    (m : PacketMap.t) (o : PacketMap.t * list session_result) :
  recover_all missing server m = Some o ->
  PacketMap.ordered m /\ keyed_by_sequence m ->
  PacketMap.ordered (fst o) /\ keyed_by_sequence (fst o).
Proof.
  revert m o. induction missing as [| s rest IH]; intros m o; cbn [recover_all].
  - intros H. injection H as <-. exact (fun Hwf => Hwf).
  - destruct (resend_session s (server s) m) as [r |] eqn:Hr;
      cbn [bind]; [| discriminate].
    intros H Hwf.
    pose proof (session_store_well_formed s (server s) m r Hr Hwf) as Hwf'.
    destruct (stalled r).
    + injection H as <-. exact Hwf'.
    + destruct (recover_all rest server (store_after r)) as [o' |] eqn:Ho;
        cbn [bind] in H; [| discriminate].
      injection H as <-. cbn [fst].
      exact (IH (store_after r) o' Ho Hwf').
Qed.

(** X1.  For every well-formed store whose greatest key is below [INT32_MAX],
    the gap scan terminates and lists exactly the integers of
    [[1, max]] that are not keys, in ascending order, where [max] is the
    greatest key (0 for the empty store); no member is below 1; and
    when [max] is 0 the list is empty and no session runs. *)
Theorem gap_analysis_exact_below_last_sequence (m : PacketMap.t) (fuel : nat) :
  PacketMap.ordered m ->
  max_sequence m < Int32.INT32_MAX ->
  (Z.to_nat (max_sequence m) < fuel)%nat ->
  exists missing,
    find_missing fuel m = Some (Listed missing)
    /\ (forall i, In i missing
                  <-> 1 <= i <= max_sequence m /\ ~ In i (PacketMap.keys m))
    /\ StronglySorted Z.lt missing
    /\ (forall j, In j (PacketMap.keys m) -> j <= max_sequence m)
    /\ (m <> [] -> In (max_sequence m) (PacketMap.keys m))
    /\ (m = [] -> max_sequence m = 0)
    /\ (max_sequence m = 0 ->
        missing = []
        /\ forall server, recover_all missing server m = Some (m, [])).
Proof.
  intros Hord Hmax Hfuel.
  exists (gaps m).
  split; [apply find_missing_exact; assumption |].
  split; [apply gaps_spec |].
  split; [apply gaps_ascending |].
  split; [intros j; apply max_sequence_greatest; exact Hord |].
  split; [apply max_sequence_is_key |].
  split; [intros ->; reflexivity |].
  intros H0. unfold gaps. rewrite H0. cbn.
  split; [reflexivity | intros server; reflexivity].
Qed.

Lemma sample_store_ordered : PacketMap.ordered sample_store.
Proof.
  unfold sample_store. apply store_all_ordered. constructor.
Qed.

Lemma sample_store_keyed : keyed_by_sequence sample_store.
Proof.
  unfold sample_store. apply store_all_keyed. constructor.
Qed.

Lemma gap_analysis_exact_below_last_sequence_witness :
  exists missing,
    find_missing 5 sample_store = Some (Listed missing)
    /\ (forall i, In i missing <-> 1 <= i <= 4 /\ ~ In i [1; 2; 4]).
Proof.
  destruct (gap_analysis_exact_below_last_sequence sample_store 5)
    as (missing & Hfind & Hspec & _).
  - exact sample_store_ordered.
  - reflexivity.
  - vm_compute. lia.
  - exists missing. split; [exact Hfind | exact Hspec].
Defined.

(** X2.  The feed delivers records 1, 2 and 4 and goes idle; the gap scan
    finds 3; the session for 3 sends [2; 3] and receives record 3; the
    output holds the four records in ascending order. *)
Theorem end_to_end_recovery :
  exists r,
    main 5 sample_world = Some r
    /\ exit_status r = Some 0
    /\ option_map (map js_packetSequence) (written r) = Some [1; 2; 3; 4]
    /\ map request (sessions r) = [Some [2; 3]]
    /\ map outcome (sessions r) = [COMPLETE (parse_packet record_3 0)].
Proof.
  eexists. split; [vm_compute; reflexivity |].
  repeat split.
Qed.

(** X3.  A feed that delivers less than one record before it closes,
    fails or times out gives an empty store, an empty list of missing
    sequence numbers, no session and an empty array. *)
Theorem empty_feed_empty_output (fuel : nat) (timed : bool) (closing : socket)
    (srv : Z -> resend_env) :
  (length (delivered closing) < PACKET_SIZE)%nat ->
  returns timed closing = true ->
  main (S fuel) {| initial_socket_created := true;
                   initial_timeout_set := timed;
                   initial_address_ok := true;
                   initial_connected := true;
                   initial_send_result := 1;
                   initial_peer := closing;
                   server := srv;
                   output_file_opens := true |}
  = Some {| exit_status := Some 0; written := Some []; sessions := [] |}.
Proof.
  intros Hd Hret. unfold main.
  cbn [negb initial_socket_created initial_address_ok initial_connected
         initial_send_result initial_peer server output_file_opens
         initial_timeout_set].
  change (1 <? 1) with false. cbv iota.
  rewrite receive_stream_spec. cbn [bind snd fst].
  unfold absorb. cbn [received_packets initial_stream_state receive_buffer].
  rewrite app_nil_l, decode_windows_short by exact Hd.
  unfold returns in Hret.
  destruct (script_end timed closing); [| | | discriminate Hret]; reflexivity.
Qed.

Lemma empty_feed_empty_output_witness :
  main 1 {| initial_socket_created := true;
            initial_timeout_set := false;
            initial_address_ok := true;
            initial_connected := true;
            initial_send_result := 1;
            initial_peer := [Segment [x41; x42; x43]; PeerClose];
            server := fun _ => stalling;
            output_file_opens := true |}
  = Some {| exit_status := Some 0; written := Some []; sessions := [] |}.
Proof.
  refine (empty_feed_empty_output 0 false [Segment [x41; x42; x43]; PeerClose]
            (fun _ => stalling) _ eq_refl).
  unfold PACKET_SIZE. simpl. lia.
Defined.

(** ** The theorems at sample inputs *)

Lemma store_last_write_wins_witness :
  store_packet (parse_packet record_2_again 0)
    (store_packet (parse_packet record_2 0) sample_store)
  = store_packet (parse_packet record_2_again 0) sample_store.
Proof.
  exact (proj1 (store_last_write_wins sample_store
                  (parse_packet record_2 0) (parse_packet record_2_again 0)
                  eq_refl)).
Defined.

Lemma resend_request_truncates_sequence_witness :
  exists r,
    resend_session 300 (answering record_3) sample_store = Some r
    /\ request r = Some [2; 44].
Proof.
  destruct (resend_request_truncates_sequence 300 (answering record_3)
              sample_store eq_refl) as (r & Hr & Hreq & _).
  exists r. split; [exact Hr | exact Hreq].
Defined.

Lemma completed_session_files_under_decoded_sequence_witness :
  exists r,
    resend_session 3 (answering record_4) sample_store = Some r
    /\ PacketMap.find 4 (store_after r) = Some (parse_packet record_4 0)
    /\ PacketMap.find 3 (store_after r) = None.
Proof.
  destruct (completed_session_files_under_decoded_sequence 3
              (answering record_4) sample_store eq_refl)
    as (r & Hr & _ & _ & Hfound & Hmismatch & _).
  exists r. split; [exact Hr |]. split; [exact Hfound |].
  destruct Hmismatch as [Hkept _]; [discriminate |].
  rewrite Hkept. reflexivity.
Defined.

Lemma abandoned_session_leaves_store_witness :
  exists r,
    resend_session 3 stalling sample_store = Some r
    /\ outcome r = ABANDONED
    /\ store_after r = sample_store.
Proof.
  destruct (abandoned_session_leaves_store 3 [5] (fun _ => stalling)
              sample_store) as (r & Hr & Hout & Hst & _).
  - right. right. right. right. split.
    + unfold stalling, PACKET_SIZE. simpl. lia.
    + reflexivity.
  - exists r. split; [exact Hr |]. split; [exact Hout | exact Hst].
Defined.

Lemma completed_session_frame_witness :
  exists r,
    resend_session 3 (answering record_2_again) sample_store = Some r
    /\ PacketMap.find 2 (store_after r) = Some (parse_packet record_2_again 0)
    /\ PacketMap.find 1 (store_after r) = PacketMap.find 1 sample_store.
Proof.
  destruct (completed_session_frame 3 (answering record_2_again)
              sample_store eq_refl)
    as (r & Hr & _ & Hframe & _ & Hover & _).
  exists r. split; [exact Hr |]. split.
  - exact (Hover (parse_packet record_2 0) eq_refl).
  - apply Hframe. discriminate.
Defined.

(** * Further properties *)

(** ** The frame decoder loses nothing *)

Lemma uchar_injective (b b' : byte) : uchar b = uchar b' -> b = b'.
Proof.
  unfold uchar. intros H.
  apply N2Z.inj in H.
  pose proof (Byte.of_to_N b) as Hb.
  rewrite H, Byte.of_to_N in Hb.
  injection Hb as ->. reflexivity.
Qed.

Lemma be_int32_injective (a b c d a' b' c' d' : byte) :
  signed32 (be_unsigned [a; b; c; d]) = signed32 (be_unsigned [a'; b'; c'; d']) ->
  a = a' /\ b = b' /\ c = c' /\ d = d'.
Proof.
  unfold signed32, be_unsigned. simpl fold_left.
  pose proof (uchar_range a). pose proof (uchar_range b).
  pose proof (uchar_range c). pose proof (uchar_range d).
  pose proof (uchar_range a'). pose proof (uchar_range b').
  pose proof (uchar_range c'). pose proof (uchar_range d').
  intros E.
  assert (Ha : uchar a = uchar a' /\ uchar b = uchar b'
               /\ uchar c = uchar c' /\ uchar d = uchar d').
  { repeat match type of E with
           | context [Z.ltb ?x ?y] => destruct (Z.ltb_spec x y)
           end; lia. }
  destruct Ha as (Ha & Hb & Hc & Hd).
  repeat split; apply uchar_injective; assumption.
Qed.

(** X4.  The frame decoder is injective on windows: two 17-byte windows
    that decode to the same packet are the same bytes, wherever they
    stand in their buffers.  No bit of a frame is dropped or merged by
    the decoding. *)
Theorem parse_packet_injective
    (raw raw' : list byte) (offset offset' : nat) :
  (offset + PACKET_SIZE <= length raw)%nat ->
  (offset' + PACKET_SIZE <= length raw')%nat ->
  parse_packet raw offset = parse_packet raw' offset' ->
  firstn PACKET_SIZE (skipn offset raw)
  = firstn PACKET_SIZE (skipn offset' raw').
Proof.
  intros Hl Hl' E.
  rewrite (parse_packet_window raw), (parse_packet_window raw') in E.
  set (w := firstn PACKET_SIZE (skipn offset raw)) in *.
  set (w' := firstn PACKET_SIZE (skipn offset' raw')) in *.
  assert (Hw : length w = PACKET_SIZE)
    by (subst w; rewrite length_firstn, length_skipn; lia).
  assert (Hw' : length w' = PACKET_SIZE)
    by (subst w'; rewrite length_firstn, length_skipn; lia).
  clearbody w w'.
  destruct (length_17_inv w Hw)
    as (b0 & b1 & b2 & b3 & b4 & b5 & b6 & b7 & b8 & b9 & b10 & b11 & b12
        & b13 & b14 & b15 & b16 & ->).
  destruct (length_17_inv w' Hw')
    as (c0 & c1 & c2 & c3 & c4 & c5 & c6 & c7 & c8 & c9 & c10 & c11 & c12
        & c13 & c14 & c15 & c16 & ->).
  unfold parse_packet, data_at in E. cbn [nth Nat.add] in E.
  rewrite !combine_be_signed in E.
  injection E as Es0 Es1 Es2 Es3 Eside Eq Ep Eseq.
  apply be_int32_injective in Eq, Ep, Eseq.
  destruct Eq as (-> & -> & -> & ->).
  destruct Ep as (-> & -> & -> & ->).
  destruct Eseq as (-> & -> & -> & ->).
  subst. reflexivity.
Qed.

Lemma parse_packet_injective_witness :
  firstn PACKET_SIZE (skipn 1 (x00 :: record_1))
  = firstn PACKET_SIZE (skipn 0 (record_1 ++ [xff])).
Proof.
  apply (parse_packet_injective (x00 :: record_1) (record_1 ++ [xff]) 1 0).
  - unfold record_1, PACKET_SIZE. simpl. lia.
  - unfold record_1, PACKET_SIZE. simpl. lia.
  - reflexivity.
Defined.

(** ** The streaming loop loses no byte *)

Lemma windows_concat (bytes : list byte) :
  concat (windows bytes) ++ trailing_fragment bytes = bytes.
Proof.
  induction bytes as [bytes Hlt | bytes Hge IH] using window_induction.
  - rewrite windows_short, trailing_fragment_short by exact Hlt. reflexivity.
  - rewrite windows_cons, trailing_fragment_cons by exact Hge.
    cbn [concat]. rewrite <- app_assoc, IH. apply firstn_skipn.
Qed.

Lemma windows_lengths (bytes : list byte) :
  Forall (fun w => length w = PACKET_SIZE) (windows bytes).
Proof.
  induction bytes as [bytes Hlt | bytes Hge IH] using window_induction.
  - rewrite windows_short by exact Hlt. constructor.
  - rewrite windows_cons by exact Hge. constructor; [| exact IH].
    rewrite length_firstn. lia.
Qed.

(** X5.  The streaming loop partitions what it receives: the bytes
    delivered by the peer are, in order, the 17-byte windows that were
    decoded followed by what is left in the buffer.  No byte is lost,
    duplicated, reordered or decoded twice, whatever the chunking. *)
Theorem stream_conserves_bytes
    (timed : bool) (sock : socket) (m : PacketMap.t) :
  exists st ws,
    receive_stream timed sock m = Some (st, script_end timed sock)
    /\ decoded st = map (fun w => parse_packet w 0) ws
    /\ Forall (fun w => length w = PACKET_SIZE) ws
    /\ concat ws ++ receive_buffer st = delivered sock
    /\ (length (delivered sock)
        = PACKET_SIZE * length (decoded st) + length (receive_buffer st))%nat.
Proof.
  exists (absorb (delivered sock) (initial_stream_state m)).
  exists (windows (delivered sock)).
  rewrite receive_stream_spec.
  unfold absorb. cbn [decoded receive_buffer initial_stream_state app].
  split; [reflexivity |].
  split; [reflexivity |].
  split; [apply windows_lengths |].
  split; [apply windows_concat |].
  rewrite decode_windows_length.
  unfold trailing_fragment. rewrite length_skipn.
  pose proof (Nat.div_mod_eq (length (delivered sock)) PACKET_SIZE) as E.
  pose proof (Nat.Div0.mul_div_le (length (delivered sock)) PACKET_SIZE) as L.
  lia.
Qed.

(** ** Duplicates in the stream *)

Lemma find_store_all (k : Z) (packets : list Packet) (m : PacketMap.t) :
  PacketMap.find k (store_all packets m)
  = match last_with_sequence k packets with
    | Some packet => Some packet
    | None => PacketMap.find k m
    end.
Proof.
  unfold last_with_sequence.
  induction packets as [| p ps IH] using rev_ind.
  - reflexivity.
  - rewrite store_all_app, rev_app_distr. cbn [store_all fold_left rev app find].
    unfold store_packet.
    destruct (Z.eqb_spec (sequence p) k) as [<- | Hne].
    + apply find_assign_same.
    + rewrite find_assign_other by congruence. exact IH.
Qed.

Lemma last_with_sequence_some (k : Z) (packets : list Packet) :
  last_with_sequence k packets <> None
  <-> exists packet, In packet packets /\ sequence packet = k.
Proof.
  unfold last_with_sequence. split.
  - destruct (find _ (rev packets)) as [p |] eqn:Hf; [| congruence].
    intros _. apply find_some in Hf. destruct Hf as [Hin Hk].
    exists p. split; [apply in_rev; exact Hin | apply Z.eqb_eq; exact Hk].
  - intros (p & Hin & Hk) Hnone.
    apply in_rev in Hin.
    pose proof (find_none _ _ Hnone p Hin) as Hf.
    apply Z.eqb_neq in Hf. contradiction.
Qed.

Lemma assign_length (k : Z) (v : Packet) (m : PacketMap.t) :
  (length (PacketMap.assign k v m) <= S (length m))%nat.
Proof.
  induction m as [| [k' v'] m IH]; simpl.
  - lia.
  - destruct (k <? k'); [simpl; lia |].
    destruct (k =? k'); simpl; lia.
Qed.

Lemma store_all_length (packets : list Packet) (m : PacketMap.t) :
  (length (store_all packets m) <= length packets + length m)%nat.
Proof.
  revert m. induction packets as [| p ps IH]; intros m; cbn [store_all fold_left].
  - simpl. lia.
  - specialize (IH (store_packet p m)). unfold store_all in IH.
    pose proof (assign_length (sequence p) p m). unfold store_packet in *.
    simpl length. lia.
Qed.

Lemma store_all_keys (k : Z) (packets : list Packet) (m : PacketMap.t) :
  In k (PacketMap.keys (store_all packets m))
  <-> In k (PacketMap.keys m)
      \/ exists packet, In packet packets /\ sequence packet = k.
Proof.
  rewrite <- last_with_sequence_some.
  pose proof (find_store_all k packets m) as Hf.
  pose proof (find_none_iff k (store_all packets m)) as Hn.
  pose proof (find_none_iff k m) as Hm.
  destruct (last_with_sequence k packets) as [p |].
  - split.
    + intros _. right. discriminate.
    + intros _.
      destruct (in_dec Z.eq_dec k (PacketMap.keys (store_all packets m)))
        as [Hin | Hnot]; [exact Hin |].
      apply Hn in Hnot. rewrite Hnot in Hf. discriminate Hf.
  - split.
    + intros Hin. left.
      destruct (in_dec Z.eq_dec k (PacketMap.keys m)) as [Hk | Hnot];
        [exact Hk |].
      apply Hm in Hnot. rewrite Hnot in Hf. apply Hn in Hf. contradiction.
    + intros [Hin | Hex]; [| congruence].
      destruct (in_dec Z.eq_dec k (PacketMap.keys (store_all packets m)))
        as [Hk | Hnot]; [exact Hk |].
      apply Hn in Hnot. rewrite Hnot in Hf. symmetry in Hf.
      apply Hm in Hf. contradiction.
Qed.

(** C1.  Whatever the split of the byte stream into chunks (mid-record,
    one byte at a time, empty or larger than the 1024-byte read buffer),
    and however the stream ends (close, timeout, error, or a silent peer
    on a socket without timeout), the streaming loop consumes every
    chunk; the packets it decodes are, in order, the frame decoder
    applied to the fixed 17-byte windows of the concatenation of the
    chunks; the store holds exactly those packets: under each sequence
    number the last window decoded with that number (what it held
    before under the numbers of no window), its keys being the sequence
    numbers of the windows besides those it had; and the trailing
    fragment shorter than 17 bytes is left in the buffer and yields no
    record. *)
Theorem stream_decodes_fixed_windows
    (timed : bool) (chunks : list (list byte)) (closing : socket)
    (m : PacketMap.t) :
  let bytes := concat chunks ++ delivered closing in
  exists st,
    receive_stream timed (map Segment chunks ++ closing) m
    = Some (st, script_end timed closing)
    /\ decoded st = map (fun w => parse_packet w 0) (windows bytes)
    /\ received_packets st = store_all (decoded st) m
    /\ receive_buffer st = trailing_fragment bytes
    /\ (length (receive_buffer st) < PACKET_SIZE)%nat
    /\ length (decoded st) = (length bytes / PACKET_SIZE)%nat
    /\ (forall k,
          PacketMap.find k (received_packets st)
          = match last_with_sequence k
                    (map (fun w => parse_packet w 0) (windows bytes)) with
            | Some packet => Some packet
            | None => PacketMap.find k m
            end)
    /\ (forall k,
          In k (PacketMap.keys (received_packets st))
          <-> In k (PacketMap.keys m)
              \/ exists w, In w (windows bytes)
                           /\ sequence (parse_packet w 0) = k)
    /\ (forall w,
          In w (windows bytes) ->
          exists stored,
            PacketMap.find (sequence (parse_packet w 0)) (received_packets st)
            = Some stored
            /\ sequence stored = sequence (parse_packet w 0)
            /\ exists w', In w' (windows bytes) /\ stored = parse_packet w' 0).
Proof.
  intros bytes.
  exists (absorb bytes (initial_stream_state m)).
  rewrite receive_stream_spec, delivered_segments, script_end_segments.
  fold bytes. unfold absorb.
  cbn [decoded receive_buffer received_packets initial_stream_state app].
  fold (decode_windows bytes).
  split; [reflexivity |]. split; [reflexivity |]. split; [reflexivity |].
  split; [reflexivity |].
  split; [apply trailing_fragment_length |].
  split; [apply decode_windows_length |].
  split; [intros k; apply find_store_all |].
  split.
  - intros k. rewrite store_all_keys. unfold decode_windows.
    split; (intros [Hin | Hex]; [left; exact Hin | right]).
    + destruct Hex as (packet & Hp & Hk).
      apply in_map_iff in Hp. destruct Hp as (w & <- & Hw).
      exists w. split; [exact Hw | exact Hk].
    + destruct Hex as (w & Hw & Hk).
      exists (parse_packet w 0). split; [| exact Hk].
      apply in_map_iff. exists w. split; [reflexivity | exact Hw].
  - intros w Hw.
    assert (Hin : In (parse_packet w 0) (decode_windows bytes)).
    { unfold decode_windows. apply in_map_iff.
      exists w. split; [reflexivity | exact Hw]. }
    rewrite find_store_all.
    destruct (last_with_sequence (sequence (parse_packet w 0))
                (decode_windows bytes)) as [stored |] eqn:Hlast.
    + exists stored. split; [reflexivity |].
      unfold last_with_sequence in Hlast. apply find_some in Hlast.
      destruct Hlast as [Hs Hk]. apply in_rev in Hs.
      split; [apply Z.eqb_eq; exact Hk |].
      unfold decode_windows in Hs. apply in_map_iff in Hs.
      destruct Hs as (w' & <- & Hw'). exists w'.
      split; [exact Hw' | reflexivity].
    + exfalso.
      apply (proj2 (last_with_sequence_some
                      (sequence (parse_packet w 0)) (decode_windows bytes)));
        [| exact Hlast].
      exists (parse_packet w 0). split; [exact Hin | reflexivity].
Qed.

(** X6.  After streaming, a sequence number finds the last packet that
    the stream carried under that number (earlier duplicates are gone),
    and nothing when the stream carried none; the keys of the store are
    exactly the sequence numbers that were decoded; and the store holds
    at most one entry per decoded window. *)
Theorem stream_last_duplicate_wins (timed : bool) (sock : socket) :
  exists st,
    receive_stream timed sock PacketMap.empty = Some (st, script_end timed sock)
    /\ (forall k, PacketMap.find k (received_packets st)
                  = last_with_sequence k (decoded st))
    /\ (forall k, In k (PacketMap.keys (received_packets st))
                  <-> exists packet, In packet (decoded st)
                                     /\ sequence packet = k)
    /\ (PacketMap.size (received_packets st) <= length (decoded st))%nat
    /\ (length (decoded st) = length (delivered sock) / PACKET_SIZE)%nat.
Proof.
  exists (absorb (delivered sock) (initial_stream_state PacketMap.empty)).
  rewrite receive_stream_spec.
  unfold absorb.
  cbn [decoded receive_buffer received_packets initial_stream_state app].
  assert (Hfind : forall k,
             PacketMap.find k
               (store_all (decode_windows (delivered sock)) PacketMap.empty)
             = last_with_sequence k (decode_windows (delivered sock))).
  { intros k. rewrite find_store_all.
    destruct (last_with_sequence k _); reflexivity. }
  split; [reflexivity |].
  split; [exact Hfind |].
  split.
  - intros k. rewrite <- last_with_sequence_some, <- Hfind.
    split.
    + intros Hin Hnone. apply find_none_iff in Hnone. contradiction.
    + intros Hsome.
      destruct (in_dec Z.eq_dec k
                  (PacketMap.keys
                     (store_all (decode_windows (delivered sock))
                        PacketMap.empty))) as [Hin | Hnot];
        [exact Hin |].
      apply find_none_iff in Hnot. contradiction.
  - split.
    + unfold PacketMap.size.
      pose proof (store_all_length (decode_windows (delivered sock))
                    PacketMap.empty) as H.
      simpl in H. lia.
    + apply decode_windows_length.
Qed.

(** ** The receive loop of a session *)

Lemma timed_returns (sock : socket) : returns true sock = true.
Proof.
  unfold returns.
  induction sock as [| [bytes | | e] rest IH]; simpl; try reflexivity.
  - exact IH.
  - destruct (is_timeout e); reflexivity.
Qed.

Lemma resent_loop_buffer_length (fuel : nat) (seq : Z) (timed : bool)
    (sock : socket) (buf : list byte) (total : nat)
    (total' : nat) (buf' : list byte) (ds : list diag) :
  length buf = PACKET_SIZE -> (total <= PACKET_SIZE)%nat ->
  resent_loop fuel seq timed sock buf total = Some (Exits total' buf' ds) ->
  length buf' = PACKET_SIZE.
Proof.
  revert sock buf total.
  induction fuel as [| fuel IH]; intros sock buf total Hbuf Ht; cbn [resent_loop];
    [discriminate |].
  destruct (Nat.ltb_spec total PACKET_SIZE) as [Hlt | Hge].
  - pose proof (recv_spec timed sock (PACKET_SIZE - total)) as Hrecv.
    destruct (recv timed sock (PACKET_SIZE - total)) as [[data | | e |] sock'].
    + destruct Hrecv as (_ & Hlen & _); [lia |].
      apply IH; [| lia].
      rewrite write_at_length by lia. exact Hbuf.
    + intros H. injection H as _ <- _. exact Hbuf.
    + intros H. injection H as _ <- _. exact Hbuf.
    + discriminate.
  - intros H. injection H as _ <- _. exact Hbuf.
Qed.

(** X7.  The receive loop of a recovery session is all or nothing.  It
    is left either with exactly 17 bytes, the first 17 the peer
    delivered over however many partial reads, and no diagnostic; or
    with the count reset to 0 and one diagnostic, when the peer closed,
    the call failed or the timeout elapsed before the 17th byte; it
    hangs only on a socket without receive timeout whose peer falls
    silent.  The buffer holds 17 bytes throughout: no read overruns
    it. *)
Theorem receive_resent_all_or_nothing (seq : Z) (timed : bool) (sock : socket) :
  exists r,
    receive_resent seq timed sock = Some r
    /\ match r with
       | Exits total data ds =>
           length data = PACKET_SIZE
           /\ ((total = PACKET_SIZE
                /\ data = firstn PACKET_SIZE (delivered sock)
                /\ ds = []
                /\ (PACKET_SIZE <= length (delivered sock))%nat)
               \/ (total = 0%nat
                   /\ length ds = 1%nat
                   /\ (length (delivered sock) < PACKET_SIZE)%nat
                   /\ returns timed sock = true))
       | Hangs =>
           (length (delivered sock) < PACKET_SIZE)%nat
           /\ returns timed sock = false
           /\ timed = false
       end.
Proof.
  destruct (Nat.leb_spec PACKET_SIZE (length (delivered sock))) as [Hge | Hlt].
  - eexists. split; [apply receive_resent_complete; exact Hge |].
    split.
    + rewrite length_firstn. lia.
    + left. repeat split. exact Hge.
  - destruct (returns timed sock) eqn:Hret.
    + destruct (receive_resent_abandoned seq timed sock Hlt Hret)
        as (buf' & d & Hr).
      eexists. split; [exact Hr |].
      split.
      * unfold receive_resent in Hr.
        apply (resent_loop_buffer_length _ _ _ _ _ _ _ _ _
                 (repeat_length _ _) (Nat.le_0_l _) Hr).
      * right. repeat split. exact Hlt.
    + eexists. split; [apply receive_resent_hangs; assumption |].
      split; [exact Hlt |]. split; [reflexivity |].
      destruct timed; [| reflexivity].
      rewrite timed_returns in Hret. discriminate Hret.
Qed.

(** ** What recovery does to the store *)

Lemma session_store_cases (seq : Z) (env : resend_env) (m : PacketMap.t)
    (r : session_result) :
  resend_session seq env m = Some r ->
  (store_after r = m /\ forall p, outcome r <> COMPLETE p)
  \/ (exists p, outcome r = COMPLETE p /\ store_after r = store_packet p m).
Proof.
  intros Hr.
  destruct (session_total seq env m) as (r' & Hr' & _ & Hout & Hst).
  rewrite Hr in Hr'. injection Hr' as <-.
  destruct (session_completes env).
  - right. eexists. split; [exact Hout | exact Hst].
  - left. split; [exact Hst |].
    intros p Hp. rewrite Hp in Hout.
    destruct (session_stalls env); discriminate Hout.
Qed.

Lemma recover_all_total (missing : list Z) (server : Z -> resend_env)
    (m : PacketMap.t) :
  exists o, recover_all missing server m = Some o.
Proof.
  revert m. induction missing as [| s rest IH]; intros m; cbn [recover_all].
  - eexists. reflexivity.
  - destruct (session_total s (server s) m) as (r & -> & _). cbn [bind].
    destruct (stalled r); [eexists; reflexivity |].
    destruct (IH (store_after r)) as (o & ->). cbn [bind].
    eexists. reflexivity.
Qed.

Lemma recover_all_frame (missing : list Z) (server : Z -> resend_env)
    (m : PacketMap.t) (o : PacketMap.t * list session_result) :
  recover_all missing server m = Some o ->
  (forall k, In k (PacketMap.keys m) -> In k (PacketMap.keys (fst o)))
  /\ (forall k, In k (PacketMap.keys (fst o)) ->
                In k (PacketMap.keys m)
                \/ exists r p, In r (snd o) /\ outcome r = COMPLETE p
                               /\ sequence p = k)
  /\ (forall k, (forall r p, In r (snd o) -> outcome r = COMPLETE p ->
                             sequence p <> k) ->
                PacketMap.find k (fst o) = PacketMap.find k m)
  /\ (length (snd o) <= length missing)%nat.
Proof.
  revert m o. induction missing as [| s rest IH]; intros m o; cbn [recover_all].
  - intros H. injection H as <-. cbn [fst snd length].
    repeat split; auto.
  - destruct (resend_session s (server s) m) as [r |] eqn:Hr;
      cbn [bind]; [| discriminate].
    pose proof (session_store_cases s (server s) m r Hr) as Hcases.
    assert (Hstep :
              (forall k, In k (PacketMap.keys m) ->
                         In k (PacketMap.keys (store_after r)))
              /\ (forall k, In k (PacketMap.keys (store_after r)) ->
                            In k (PacketMap.keys m)
                            \/ exists p, outcome r = COMPLETE p
                                         /\ sequence p = k)
              /\ (forall k, (forall p, outcome r = COMPLETE p ->
                                       sequence p <> k) ->
                            PacketMap.find k (store_after r)
                            = PacketMap.find k m)).
    { destruct Hcases as [[-> Hnc] | (p & Hp & ->)].
      - repeat split; auto.
      - unfold store_packet. repeat split.
        + intros k Hk. apply keys_assign. right. exact Hk.
        + intros k Hk. apply keys_assign in Hk.
          destruct Hk as [-> | Hk]; [right; exists p; split; auto | left; exact Hk].
        + intros k Hk. apply find_assign_other.
          intros ->. exact (Hk p Hp eq_refl). }
    destruct Hstep as (Hkeep & Hnew & Hsame).
    destruct (stalled r).
    + intros H. injection H as <-. cbn [fst snd length].
      split; [exact Hkeep |].
      split.
      * intros k Hk. destruct (Hnew k Hk) as [Hin | (p & Hp & Hs)];
          [left; exact Hin |].
        right. exists r, p. split; [left; reflexivity | split; assumption].
      * split; [| lia].
        intros k Hk. apply Hsame.
        intros p Hp. apply (Hk r p); [left; reflexivity | exact Hp].
    + destruct (recover_all rest server (store_after r)) as [o' |] eqn:Ho;
        cbn [bind]; [| discriminate].
      intros H. injection H as <-. cbn [fst snd length].
      destruct (IH (store_after r) o' Ho) as (Ikeep & Inew & Isame & Ilen).
      split; [intros k Hk; apply Ikeep, Hkeep, Hk |].
      split.
      * intros k Hk.
        destruct (Inew k Hk) as [Hin | (r' & p & Hr' & Hp & Hs)].
        -- destruct (Hnew k Hin) as [Hin' | (p & Hp & Hs)];
             [left; exact Hin' |].
           right. exists r, p. split; [left; reflexivity | split; assumption].
        -- right. exists r', p. split; [right; exact Hr' | split; assumption].
      * split; [| lia].
        intros k Hk. rewrite Isame.
        -- apply Hsame. intros p Hp.
           apply (Hk r p); [left; reflexivity | exact Hp].
        -- intros r' p Hr' Hp. apply (Hk r' p); [right; exact Hr' | exact Hp].
Qed.

(** X8.  The recovery loop only adds to the store.  Whatever the
    sessions do, the loop returns; every key present before is present
    after; a key is new only if some session completed with a packet of
    that number; a key that no completed session decoded finds what it
    found before; and at most one session is run per missing number. *)
Theorem recovery_only_adds (missing : list Z) (server : Z -> resend_env)
    (m : PacketMap.t) :
  exists o,
    recover_all missing server m = Some o
    /\ (forall k, In k (PacketMap.keys m) -> In k (PacketMap.keys (fst o)))
    /\ (forall k, In k (PacketMap.keys (fst o)) ->
                  In k (PacketMap.keys m)
                  \/ exists r p, In r (snd o) /\ outcome r = COMPLETE p
                                 /\ sequence p = k)
    /\ (forall k, (forall r p, In r (snd o) -> outcome r = COMPLETE p ->
                               sequence p <> k) ->
                  PacketMap.find k (fst o) = PacketMap.find k m)
    /\ (length (snd o) <= length missing)%nat.
Proof.
  destruct (recover_all_total missing server m) as (o & Ho).
  exists o. split; [exact Ho |].
  exact (recover_all_frame missing server m o Ho).
Qed.

(** ** When every resend is answered *)

Lemma recover_all_answered (missing : list Z) (server : Z -> resend_env)
    (m : PacketMap.t) :
  (forall s, In s missing -> session_completes (server s) = true) ->
  exists o,
    recover_all missing server m = Some o
    /\ fst o = store_all (map (fun s => resent_packet_of (server s)) missing) m
    /\ map outcome (snd o)
       = map (fun s => COMPLETE (resent_packet_of (server s))) missing.
Proof.
  revert m. induction missing as [| s rest IH]; intros m Hall;
    cbn [recover_all].
  - eexists. repeat split.
  - assert (Hc : session_completes (server s) = true)
      by (apply Hall; left; reflexivity).
    rewrite (session_complete_spec s (server s) m Hc). cbn [bind].
    unfold stalled. cbn [outcome store_after].
    destruct (IH (store_packet (resent_packet_of (server s)) m))
      as (o & Ho & Hst & Hout).
    { intros s' Hs'. apply Hall. right. exact Hs'. }
    rewrite Ho. cbn [bind].
    eexists. split; [reflexivity |].
    cbn [fst snd map outcome]. split; [exact Hst |].
    rewrite Hout. reflexivity.
Qed.

Lemma max_sequence_unique (m : PacketMap.t) (top : Z) :
  PacketMap.ordered m ->
  In top (PacketMap.keys m) ->
  (forall j, In j (PacketMap.keys m) -> j <= top) ->
  max_sequence m = top.
Proof.
  intros Hord Hin Hall.
  assert (Hne : m <> []) by (destruct m; [contradiction | discriminate]).
  pose proof (max_sequence_is_key m Hne) as Hk.
  pose proof (max_sequence_greatest m top Hord Hin).
  pose proof (Hall _ Hk). lia.
Qed.

Lemma no_member_nil {A : Type} (l : list A) : (forall x, ~ In x l) -> l = [].
Proof.
  destruct l as [| a l]; [reflexivity |].
  intros H. exfalso. apply (H a). left. reflexivity.
Qed.

Lemma gaps_filled_when_answered
    (m : PacketMap.t) (fuel : nat) (server : Z -> resend_env) :
  PacketMap.ordered m ->
  max_sequence m < Int32.INT32_MAX ->
  (Z.to_nat (max_sequence m) < fuel)%nat ->
  (forall s, In s (gaps m) ->
             session_completes (server s) = true
             /\ sequence (resent_packet_of (server s)) = s) ->
  exists missing o,
    find_missing fuel m = Some (Listed missing)
    /\ recover_all missing server m = Some o
    /\ (forall i, 1 <= i <= max_sequence m -> In i (PacketMap.keys (fst o)))
    /\ (forall k, In k (PacketMap.keys (fst o))
                  <-> In k (PacketMap.keys m) \/ In k missing)
    /\ max_sequence (fst o) = max_sequence m
    /\ gaps (fst o) = []
    /\ (forall k, In k (PacketMap.keys m) ->
                  PacketMap.find k (fst o) = PacketMap.find k m)
    /\ length (snd o) = length missing.
Proof.
  intros Hord Hmax Hfuel Hserver.
  exists (gaps m).
  destruct (recover_all_answered (gaps m) server m) as (o & Ho & Hst & Hout).
  { intros s Hs. exact (proj1 (Hserver s Hs)). }
  exists o.
  split; [apply find_missing_exact; assumption |].
  split; [exact Ho |].
  set (packets := map (fun s => resent_packet_of (server s)) (gaps m)) in *.
  assert (Hpk : forall k, (exists p, In p packets /\ sequence p = k)
                          <-> In k (gaps m)).
  { intros k. subst packets. split.
    - intros (p & Hp & Hk). apply in_map_iff in Hp.
      destruct Hp as (s & <- & Hs).
      rewrite (proj2 (Hserver s Hs)) in Hk. subst k. exact Hs.
    - intros Hk. exists (resent_packet_of (server k)). split.
      + apply in_map_iff. exists k. split; [reflexivity | exact Hk].
      + exact (proj2 (Hserver k Hk)). }
  assert (Hkeys : forall k, In k (PacketMap.keys (fst o))
                            <-> In k (PacketMap.keys m) \/ In k (gaps m)).
  { intros k. rewrite Hst, store_all_keys, Hpk. reflexivity. }
  assert (Hcover : forall i, 1 <= i <= max_sequence m ->
                             In i (PacketMap.keys (fst o))).
  { intros i Hi. apply Hkeys.
    destruct (in_dec Z.eq_dec i (PacketMap.keys m)) as [Hin | Hnot];
      [left; exact Hin |].
    right. apply gaps_spec. split; assumption. }
  assert (Htop : max_sequence (fst o) = max_sequence m).
  { destruct m as [| e m'] eqn:Em.
    - rewrite Hst. subst packets. reflexivity.
    - rewrite <- Em in *.
      assert (Hne : m <> []) by (rewrite Em; discriminate).
      apply max_sequence_unique.
      + rewrite Hst. apply store_all_ordered. exact Hord.
      + apply Hkeys. left. apply max_sequence_is_key. exact Hne.
      + intros j Hj. apply Hkeys in Hj. destruct Hj as [Hj | Hj].
        * apply max_sequence_greatest; assumption.
        * apply gaps_spec in Hj. lia. }
  split; [exact Hcover |].
  split; [exact Hkeys |].
  split; [exact Htop |].
  split.
  - apply no_member_nil. intros i Hi.
    apply gaps_spec in Hi. destruct Hi as [Hr Hnot].
    rewrite Htop in Hr. apply Hnot, Hcover, Hr.
  - split.
    + intros k Hk. rewrite Hst, find_store_all.
      destruct (last_with_sequence k packets) as [p |] eqn:Hl; [| reflexivity].
      exfalso.
      assert (Hsome : last_with_sequence k packets <> None) by congruence.
      apply last_with_sequence_some, Hpk, gaps_spec in Hsome.
      exact (proj2 Hsome Hk).
    + rewrite <- (length_map outcome), Hout, length_map. reflexivity.
Qed.

(** X9.  Recovery repairs the feed when the server cooperates.  If the
    greatest streamed sequence number is below [INT32_MAX] and every
    session for a missing number is answered with a whole record
    carrying that number, then after the recovery loop every integer of
    [[1, max]] is a key of the store, the keys are those streamed and
    those that were missing, the greatest key is unchanged, a second
    gap scan would find nothing, and every streamed record is still the
    one its number finds. *)
Theorem recovery_fills_all_gaps
    (m : PacketMap.t) (fuel : nat) (server : Z -> resend_env) :
  PacketMap.ordered m ->
  max_sequence m < Int32.INT32_MAX ->
  (Z.to_nat (max_sequence m) < fuel)%nat ->
  (forall s, In s (gaps m) ->
             session_completes (server s) = true
             /\ sequence (resent_packet_of (server s)) = s) ->
  exists missing o,
    find_missing fuel m = Some (Listed missing)
    /\ recover_all missing server m = Some o
    /\ (forall i, 1 <= i <= max_sequence m -> In i (PacketMap.keys (fst o)))
    /\ (forall k, In k (PacketMap.keys (fst o))
                  <-> In k (PacketMap.keys m) \/ In k missing)
    /\ max_sequence (fst o) = max_sequence m
    /\ gaps (fst o) = []
    /\ (forall k, In k (PacketMap.keys m) ->
                  PacketMap.find k (fst o) = PacketMap.find k m)
    /\ length (snd o) = length missing.
Proof. exact (gaps_filled_when_answered m fuel server). Qed.

Lemma recovery_fills_all_gaps_witness :
  exists missing o,
    find_missing 5 sample_store = Some (Listed missing)
    /\ recover_all missing (fun _ => answering record_3) sample_store = Some o
    /\ gaps (fst o) = [].
Proof.
  destruct (recovery_fills_all_gaps sample_store 5
              (fun _ => answering record_3))
    as (missing & o & Hm & Ho & _ & _ & _ & Hg & _).
  - exact sample_store_ordered.
  - reflexivity.
  - vm_compute. lia.
  - intros s Hs.
    assert (Hgaps : gaps sample_store = [3]) by reflexivity.
    rewrite Hgaps in Hs. destruct Hs as [<- | []].
    split; reflexivity.
  - exists missing, o. split; [exact Hm |]. split; [exact Ho | exact Hg].
Defined.

(** ** Whole runs *)

Lemma strongly_sorted_nodup (l : list Z) : StronglySorted Z.lt l -> NoDup l.
Proof.
  induction 1 as [| a l Hl IH Ha]; constructor; [| exact IH].
  intros Hin. rewrite Forall_forall in Ha. specialize (Ha a Hin). lia.
Qed.

(** [main], stage by stage. *)
Lemma main_eq (fuel : nat) (w : world) :
  main fuel w
  = if set_up w then
      match script_end (initial_timeout_set w) (initial_peer w) with
      | NeverReturns => Some (hung_run [])
      | _ =>
          match find_missing fuel (streamed_store w) with
          | None => None
          | Some Thrown => Some failed_run
          | Some (Listed missing) =>
              match recover_all missing (server w) (streamed_store w) with
              | None => None
              | Some o => Some (finished w o)
              end
          end
      end
    else Some failed_run.
Proof.
  unfold main, set_up.
  destruct (initial_socket_created w); cbn [negb andb]; [| reflexivity].
  destruct (initial_address_ok w); cbn [negb andb]; [| reflexivity].
  destruct (initial_connected w); cbn [negb andb]; [| reflexivity].
  rewrite Z.ltb_antisym.
  destruct (1 <=? initial_send_result w); cbn [negb]; [| reflexivity].
  rewrite receive_stream_spec. cbn [bind fst snd].
  change (received_packets
            (absorb (delivered (initial_peer w))
               (initial_stream_state PacketMap.empty)))
    with (streamed_store w).
  assert (Hrest :
            (scanned <- find_missing fuel (streamed_store w) ;;
             match scanned with
             | Thrown => Some failed_run
             | Listed missing_sequences =>
                 r <- recover_all missing_sequences (server w)
                        (streamed_store w) ;;
                 if existsb stalled (snd r) then Some (hung_run (snd r))
                 else if output_file_opens w then
                   Some {| exit_status := Some 0;
                           written := Some (json_output (fst r));
                           sessions := snd r |}
                 else Some {| exit_status := Some 1; written := None;
                              sessions := snd r |}
             end)
            = match find_missing fuel (streamed_store w) with
              | None => None
              | Some Thrown => Some failed_run
              | Some (Listed missing) =>
                  match recover_all missing (server w) (streamed_store w) with
                  | None => None
                  | Some o => Some (finished w o)
                  end
              end).
  { destruct (find_missing fuel (streamed_store w)) as [[missing |] |];
      cbn [bind]; try reflexivity.
    destruct (recover_all missing (server w) (streamed_store w)) as [o |];
      cbn [bind]; [| reflexivity].
    unfold finished.
    destruct (existsb stalled (snd o)); [reflexivity |].
    destruct (output_file_opens w); reflexivity. }
  destruct (script_end (initial_timeout_set w) (initial_peer w));
    try exact Hrest; reflexivity.
Qed.

Lemma set_up_flags (w : world) :
  set_up w = true
  <-> initial_socket_created w = true /\ initial_address_ok w = true
      /\ initial_connected w = true /\ 1 <= initial_send_result w.
Proof.
  unfold set_up. rewrite !andb_true_iff, Z.leb_le. tauto.
Qed.

Lemma set_up_fails (w : world) :
  set_up w = false
  <-> initial_socket_created w = false \/ initial_address_ok w = false
      \/ initial_connected w = false \/ initial_send_result w < 1.
Proof.
  unfold set_up. rewrite !andb_false_iff, Z.leb_gt. tauto.
Qed.

Lemma streamed_store_well_formed (w : world) :
  PacketMap.ordered (streamed_store w) /\ keyed_by_sequence (streamed_store w).
Proof.
  unfold streamed_store.
  split; [apply store_all_ordered | apply store_all_keyed]; constructor.
Qed.

(** The ways in which [main] comes to a result. *)
Lemma main_inv (fuel : nat) (w : world) (r : run) :
  main fuel w = Some r ->
  (set_up w = false /\ r = failed_run)
  \/ (set_up w = true
      /\ returns (initial_timeout_set w) (initial_peer w) = false
      /\ r = hung_run [])
  \/ (set_up w = true
      /\ returns (initial_timeout_set w) (initial_peer w) = true
      /\ find_missing fuel (streamed_store w) = Some Thrown
      /\ r = failed_run)
  \/ (set_up w = true
      /\ returns (initial_timeout_set w) (initial_peer w) = true
      /\ exists missing o,
           find_missing fuel (streamed_store w) = Some (Listed missing)
           /\ recover_all missing (server w) (streamed_store w) = Some o
           /\ r = finished w o).
Proof.
  rewrite main_eq. unfold returns.
  destruct (set_up w);
    [| intros H; injection H as <-; left; split; reflexivity].
  assert (Hrest :
            match find_missing fuel (streamed_store w) with
            | None => None
            | Some Thrown => Some failed_run
            | Some (Listed missing) =>
                match recover_all missing (server w) (streamed_store w) with
                | None => None
                | Some o => Some (finished w o)
                end
            end = Some r ->
            (find_missing fuel (streamed_store w) = Some Thrown
             /\ r = failed_run)
            \/ (exists missing o,
                  find_missing fuel (streamed_store w) = Some (Listed missing)
                  /\ recover_all missing (server w) (streamed_store w) = Some o
                  /\ r = finished w o)).
  { destruct (find_missing fuel (streamed_store w)) as [[missing |] |];
      [| intros H; injection H as <-; left; split; reflexivity
       | discriminate].
    destruct (recover_all missing (server w) (streamed_store w)) as [o |]
      eqn:Ho; [| discriminate].
    intros H. injection H as <-. right. exists missing, o.
    split; [reflexivity |]. split; [exact Ho | reflexivity]. }
  destruct (script_end (initial_timeout_set w) (initial_peer w));
    try (intros H; right; right;
         destruct (Hrest H) as [[Hscan ->] | Hex];
         [left; split; [reflexivity |]; split; [reflexivity |];
          split; [exact Hscan | reflexivity]
         | right; split; [reflexivity |]; split; [reflexivity | exact Hex]]).
  intros H. injection H as <-. right. left.
  split; [reflexivity |]. split; reflexivity.
Qed.

(** What [main] has done when it has written the file. *)
Lemma main_written_store (fuel : nat) (w : world) (r : run)
    (out : list json_object) :
  main fuel w = Some r -> written r = Some out ->
  exists missing o,
    find_missing fuel (streamed_store w) = Some (Listed missing)
    /\ recover_all missing (server w) (streamed_store w) = Some o
    /\ existsb stalled (snd o) = false
    /\ out = json_output (fst o)
    /\ sessions r = snd o
    /\ exit_status r = Some 0
    /\ output_file_opens w = true.
Proof.
  intros Hrun Hout.
  destruct (main_inv fuel w r Hrun)
    as [[_ ->] | [(_ & _ & ->) | [(_ & _ & _ & ->)
       | (_ & _ & missing & o & Hscan & Ho & ->)]]];
    try discriminate Hout.
  exists missing, o. unfold finished in *.
  destruct (existsb stalled (snd o)); [discriminate Hout |].
  destruct (output_file_opens w); [| discriminate Hout].
  cbn [written sessions exit_status] in *. injection Hout as <-.
  repeat split; assumption.
Qed.

Lemma main_written (fuel : nat) (w : world) (r : run)
    (out : list json_object) :
  main fuel w = Some r -> written r = Some out ->
  exists m,
    out = json_output m
    /\ PacketMap.ordered m /\ keyed_by_sequence m
    /\ exit_status r = Some 0
    /\ output_file_opens w = true.
Proof.
  intros Hrun Hout.
  destruct (main_written_store fuel w r out Hrun Hout)
    as (missing & o & _ & Ho & _ & -> & _ & Hexit & Hopen).
  destruct (recover_all_well_formed missing (server w) (streamed_store w) o
              Ho (streamed_store_well_formed w)) as [Hord Hkey].
  exists (fst o). repeat split; assumption.
Qed.

(** X10.  Whenever a run writes its output, it exits with status 0 and
    the array is strictly ascending by [packetSequence], so that no
    sequence number appears twice, whatever the feed and the recovery
    sessions did (duplicates, negative numbers, mismatched resends). *)
Theorem run_output_strictly_ascending (fuel : nat) (w : world) (r : run)
    (out : list json_object) :
  main fuel w = Some r ->
  written r = Some out ->
  StronglySorted Z.lt (map js_packetSequence out)
  /\ NoDup (map js_packetSequence out)
  /\ exit_status r = Some 0.
Proof.
  intros Hrun Hout.
  destruct (main_written fuel w r out Hrun Hout)
    as (m & -> & Hord & Hkey & Hexit & _).
  rewrite (json_output_sequences m Hkey).
  split; [exact Hord |].
  split; [apply strongly_sorted_nodup; exact Hord | exact Hexit].
Qed.

Lemma run_output_strictly_ascending_witness :
  exists r out,
    main 5 sample_world = Some r
    /\ written r = Some out
    /\ NoDup (map js_packetSequence out).
Proof.
  assert (Hrun : exists r out,
             main 5 sample_world = Some r /\ written r = Some out).
  { eexists. eexists. split; [vm_compute; reflexivity | reflexivity]. }
  destruct Hrun as (r & out & Hr & Ho).
  exists r, out. split; [exact Hr |]. split; [exact Ho |].
  exact (proj1 (proj2 (run_output_strictly_ascending 5 sample_world r out
                         Hr Ho))).
Defined.

(** ** Trimming the symbol *)

Lemma find_last_not_of_fold (chars : list byte) (s : list byte)
    (n : nat) (last : option nat) :
  fold_left
    (fun (acc : nat * option nat) c =>
       (S (fst acc), if mem_byte c chars then snd acc else Some (fst acc)))
    s (n, last)
  = ((length s + n)%nat,
     match find_last_not_of s chars with
     | Some i => Some (i + n)%nat
     | None => last
     end).
Proof.
  unfold find_last_not_of.
  revert n last. induction s as [| c s IH] using rev_ind; intros n last.
  - reflexivity.
  - rewrite !fold_left_app. cbn [fold_left].
    rewrite (IH n last), (IH 0%nat None). cbn [fst snd].
    rewrite length_app. cbn [length].
    destruct (mem_byte c chars).
    + f_equal. lia.
    + f_equal; [lia |]. f_equal. lia.
Qed.

Lemma find_last_not_of_snoc (chars s : list byte) (c : byte) :
  find_last_not_of (s ++ [c]) chars
  = if mem_byte c chars then find_last_not_of s chars else Some (length s).
Proof.
  unfold find_last_not_of at 1.
  rewrite fold_left_app, find_last_not_of_fold. cbn [fold_left fst snd].
  destruct (mem_byte c chars).
  - destruct (find_last_not_of s chars); [f_equal; lia | reflexivity].
  - f_equal. lia.
Qed.

Lemma find_last_not_of_bound (chars s : list byte) (i : nat) :
  find_last_not_of s chars = Some i -> (i < length s)%nat.
Proof.
  revert i. induction s as [| c s IH] using rev_ind; intros i.
  - discriminate.
  - rewrite find_last_not_of_snoc, length_app. cbn [length].
    destruct (mem_byte c chars).
    + intros H. specialize (IH i H). lia.
    + intros H. injection H as <-. lia.
Qed.

Lemma trim_symbol_snoc_space (s : list byte) :
  trim_symbol (s ++ [x20]) = trim_symbol s.
Proof.
  unfold trim_symbol. rewrite find_last_not_of_snoc.
  change (mem_byte x20 (c_str trim_literal)) with true. cbv iota.
  destruct (find_last_not_of s (c_str trim_literal)) as [i |] eqn:Hi;
    [| reflexivity].
  apply find_last_not_of_bound in Hi.
  rewrite firstn_app.
  replace (i + 1 - length s)%nat with 0%nat by lia.
  rewrite firstn_O, app_nil_r. reflexivity.
Qed.

Lemma not_space (c : byte) :
  c <> x20 -> mem_byte c (c_str trim_literal) = false.
Proof.
  intros Hc. change (c_str trim_literal) with [x20].
  unfold mem_byte. cbn [existsb]. rewrite orb_false_r.
  destruct (Byte.eqb c x20) eqn:E; [| reflexivity].
  apply Byte.byte_dec_bl in E. contradiction.
Qed.

(** X11.  The symbol written to the output is the symbol with its
    trailing spaces, and nothing else, removed: the stored symbol is the
    written one followed by spaces only, and the written one does not
    end with a space.  Every other byte, NUL included, is kept where it
    is; trimming twice changes nothing more. *)
Theorem trim_symbol_strips_trailing_spaces (s : list byte) :
  (exists n, s = trim_symbol s ++ repeat x20 n)
  /\ (forall t c, trim_symbol s = t ++ [c] -> c <> x20)
  /\ trim_symbol (trim_symbol s) = trim_symbol s
  /\ (length (trim_symbol s) <= length s)%nat.
Proof.
  induction s as [| c s IH] using rev_ind.
  - split; [exists 0%nat; reflexivity |].
    split; [intros t c H; destruct t; discriminate H |].
    split; [reflexivity | apply Nat.le_refl].
  - destruct (Byte.byte_eq_dec c x20) as [-> | Hc].
    + rewrite trim_symbol_snoc_space.
      destruct IH as ((n & Hn) & Hlast & Hidem & Hlen).
      split.
      { exists (S n). rewrite Hn at 1.
        rewrite <- app_assoc. f_equal.
        change [x20] with (repeat x20 1).
        rewrite <- repeat_app. f_equal. lia. }
      split; [exact Hlast |].
      split; [exact Hidem |].
      rewrite length_app. simpl. lia.
    + rewrite (trim_symbol_keeps_last s c (not_space c Hc)).
      split; [exists 0%nat; rewrite app_nil_r; reflexivity |].
      split.
      { intros t c' H. apply app_inj_tail in H. destruct H as [_ <-].
        exact Hc. }
      split; [apply (trim_symbol_keeps_last s c (not_space c Hc)) |].
      apply Nat.le_refl.
Qed.

(** ** Sockets are opened and closed in turn *)

Lemma disciplined_app (open : bool) (calls more : list call) :
  disciplined open (calls ++ more)
  = match disciplined open calls with
    | Some open' => disciplined open' more
    | None => None
    end.
Proof.
  revert open. induction calls as [| c calls IH]; intros open;
    cbn [app disciplined].
  - reflexivity.
  - destruct c; destruct open; try reflexivity; apply IH.
Qed.

Lemma reads_disciplined (calls : list call) :
  forallb is_recv calls = true -> disciplined true calls = Some true.
Proof.
  induction calls as [| c calls IH]; cbn [forallb disciplined].
  - reflexivity.
  - intros H. apply andb_prop in H. destruct H as [Hc Hrest].
    destruct c; try discriminate Hc. exact (IH Hrest).
Qed.

Lemma stream_calls_read (fuel : nat) (timed : bool) (sock : socket) :
  forallb is_recv (stream_calls fuel timed sock) = true.
Proof.
  revert sock. induction fuel as [| fuel IH]; intros sock;
    cbn [stream_calls].
  - reflexivity.
  - destruct (recv timed sock TEMP_BUFFER_SIZE) as [[data | | e |] sock'];
      cbn [forallb is_recv andb]; [apply IH | reflexivity ..].
Qed.

Lemma resent_calls_read (fuel : nat) (timed : bool) (sock : socket)
    (total : nat) :
  forallb is_recv (resent_calls fuel timed sock total) = true.
Proof.
  revert sock total. induction fuel as [| fuel IH]; intros sock total;
    cbn [resent_calls].
  - reflexivity.
  - destruct (total <? PACKET_SIZE)%nat; [| reflexivity].
    destruct (recv timed sock (PACKET_SIZE - total))
      as [[data | | e |] sock'];
      cbn [forallb is_recv andb]; [apply IH | reflexivity ..].
Qed.

Lemma session_trace_disciplined (seq : Z) (env : resend_env) :
  disciplined false (fst (session_trace seq env))
  = Some (negb (snd (session_trace seq env))).
Proof.
  unfold session_trace.
  destruct (socket_created env); cbn [negb]; [| reflexivity].
  destruct (address_ok env); cbn [negb]; [| reflexivity].
  destruct (connected env); cbn [negb]; [| reflexivity].
  destruct (send_result env =? -1); [reflexivity |].
  destruct (send_result env =? 2); [| reflexivity].
  pose proof (resent_calls_read (S PACKET_SIZE) (timeout_set env) (peer env) 0)
    as Hreads.
  apply reads_disciplined in Hreads.
  destruct (receive_resent seq (timeout_set env) (peer env)) as [[? ? ? |] |];
    cbn [fst snd negb app disciplined];
    rewrite ?disciplined_app, Hreads; reflexivity.
Qed.

Lemma sessions_trace_disciplined (missing : list Z) (server : Z -> resend_env) :
  disciplined false (fst (sessions_trace missing server))
  = Some (negb (snd (sessions_trace missing server))).
Proof.
  induction missing as [| s rest IH]; cbn [sessions_trace].
  - reflexivity.
  - pose proof (session_trace_disciplined s (server s)) as Hs.
    destruct (snd (session_trace s (server s))) eqn:Hret.
    + cbn [fst snd]. rewrite disciplined_app, Hs. exact IH.
    + rewrite Hret. exact Hs.
Qed.

(** The trace and the result of a session agree on whether it hangs. *)
Lemma session_trace_returns (seq : Z) (env : resend_env) (m : PacketMap.t)
    (r : session_result) :
  resend_session seq env m = Some r ->
  snd (session_trace seq env) = negb (stalled r).
Proof.
  unfold resend_session, session_trace, stalled.
  destruct (socket_created env); cbn [negb];
    [| intros H; injection H as <-; reflexivity].
  destruct (address_ok env); cbn [negb];
    [| intros H; injection H as <-; reflexivity].
  destruct (connected env); cbn [negb];
    [| intros H; injection H as <-; reflexivity].
  destruct (send_result env =? -1);
    [intros H; injection H as <-; reflexivity |].
  destruct (send_result env =? 2);
    [| intros H; injection H as <-; reflexivity].
  destruct (receive_resent seq (timeout_set env) (peer env))
    as [[total data ds |] |]; cbn [bind]; [| | discriminate].
  - destruct (total =? PACKET_SIZE)%nat; intros H; injection H as <-;
      reflexivity.
  - intros H. injection H as <-. reflexivity.
Qed.

Lemma sessions_trace_returns (missing : list Z) (server : Z -> resend_env)
    (m : PacketMap.t) (o : PacketMap.t * list session_result) :
  recover_all missing server m = Some o ->
  snd (sessions_trace missing server) = negb (existsb stalled (snd o)).
Proof.
  revert m o. induction missing as [| s rest IH]; intros m o;
    cbn [recover_all sessions_trace].
  - intros H. injection H as <-. reflexivity.
  - destruct (resend_session s (server s) m) as [r |] eqn:Hr;
      cbn [bind]; [| discriminate].
    rewrite (session_trace_returns s (server s) m r Hr).
    destruct (stalled r) eqn:Hst; cbn [negb].
    + intros H. injection H as <-. cbn [snd existsb].
      rewrite (session_trace_returns s (server s) m r Hr), Hst. reflexivity.
    + destruct (recover_all rest server (store_after r)) as [o' |] eqn:Ho;
        cbn [bind]; [| discriminate].
      intros H. injection H as <-. cbn [snd existsb]. rewrite Hst.
      exact (IH (store_after r) o' Ho).
Qed.

(** X12.  On every run the sockets are used in turn: a socket is
    created only when no other is open, so that at most one connection
    is open at any time; nothing is sent, received or closed on a
    descriptor that is not open, and none is closed twice; when the run
    returns, whatever the failures on the way, every socket it created
    has been closed; a socket is left open only by a run that hangs in a
    [recv] without timeout.  The trace hangs exactly when [main] does. *)
Theorem sockets_used_in_turn (fuel : nat) (w : world) (r : run) :
  main fuel w = Some r ->
  exists calls returned,
    main_trace fuel w = Some (calls, returned)
    /\ disciplined false calls = Some (negb returned)
    /\ (returned = true <-> exit_status r <> None).
Proof.
  unfold main, main_trace.
  destruct (initial_socket_created w); cbn [negb];
    [| intros H; injection H as <-; eexists; eexists;
       repeat split; discriminate].
  destruct (initial_address_ok w); cbn [negb];
    [| intros H; injection H as <-; eexists; eexists;
       repeat split; discriminate].
  destruct (initial_connected w); cbn [negb];
    [| intros H; injection H as <-; eexists; eexists;
       repeat split; discriminate].
  destruct (initial_send_result w <? 1);
    [intros H; injection H as <-; eexists; eexists;
     repeat split; discriminate |].
  rewrite receive_stream_spec. cbn [bind fst snd].
  set (received := received_packets
                     (absorb (delivered (initial_peer w))
                        (initial_stream_state PacketMap.empty))).
  clearbody received.
  pose proof (stream_calls_read (script_weight (initial_peer w))
                (initial_timeout_set w) (initial_peer w)) as Hreads.
  apply reads_disciplined in Hreads.
  set (reads := stream_calls (script_weight (initial_peer w))
                  (initial_timeout_set w) (initial_peer w)) in *.
  clearbody reads.
  assert (Hrest :
            (scanned <- find_missing fuel received ;;
             match scanned with
             | Thrown => Some failed_run
             | Listed missing_sequences =>
                 o <- recover_all missing_sequences (server w) received ;;
                 (if existsb stalled (snd o) then Some (hung_run (snd o))
                  else if output_file_opens w
                       then Some {| exit_status := Some 0;
                                    written := Some (json_output (fst o));
                                    sessions := snd o |}
                       else Some {| exit_status := Some 1; written := None;
                                    sessions := snd o |})
             end) = Some r ->
            exists calls returned,
              (scanned <- find_missing fuel received ;;
               match scanned with
               | Thrown =>
                   Some
                     (([Socket true; Setsockopt (initial_timeout_set w)] ++
                       [InetPton true; Connect true;
                        Send [1] (initial_send_result w)]) ++
                      reads ++ [Close], true)
               | Listed missing_sequences =>
                   Some
                     (([Socket true; Setsockopt (initial_timeout_set w)] ++
                       [InetPton true; Connect true;
                        Send [1] (initial_send_result w)]) ++
                      reads ++ [Close] ++
                      fst (sessions_trace missing_sequences (server w)),
                      snd (sessions_trace missing_sequences (server w)))
               end)
              = Some (calls, returned)
              /\ disciplined false calls = Some (negb returned)
              /\ (returned = true <-> exit_status r <> None)).
  { destruct (find_missing fuel received) as [[missing |] |]; cbn [bind];
      [| | discriminate].
    - destruct (recover_all missing (server w) received) as [o |] eqn:Ho;
        cbn [bind]; [| discriminate].
      pose proof (sessions_trace_returns missing (server w) received o Ho)
        as Hret.
      pose proof (sessions_trace_disciplined missing (server w)) as Hdisc.
      intros Hr.
      eexists. eexists. split; [reflexivity |].
      split.
      + cbn [app disciplined].
        rewrite disciplined_app, Hreads. cbn [app disciplined].
        exact Hdisc.
      + rewrite Hret.
        destruct (existsb stalled (snd o)); cbn [negb].
        * injection Hr as <-. cbn [hung_run exit_status].
          split; [discriminate | congruence].
        * destruct (output_file_opens w); injection Hr as <-;
            cbn [exit_status]; split; congruence.
    - intros Hr. injection Hr as <-.
      eexists. eexists. split; [reflexivity |].
      split.
      + cbn [app disciplined].
        rewrite disciplined_app, Hreads. reflexivity.
      + cbn [failed_run exit_status]. split; [discriminate | reflexivity]. }
  destruct (script_end (initial_timeout_set w) (initial_peer w));
    try exact Hrest.
  intros H. injection H as <-.
  eexists. eexists. split; [reflexivity |].
  split.
  - cbn [app disciplined]. rewrite Hreads. reflexivity.
  - cbn [hung_run exit_status]. split; [discriminate | congruence].
Qed.

Lemma sockets_used_in_turn_witness :
  exists calls returned,
    main_trace 5 sample_world = Some (calls, returned)
    /\ disciplined false calls = Some (negb returned).
Proof.
  assert (Hrun : exists r, main 5 sample_world = Some r)
    by (eexists; vm_compute; reflexivity).
  destruct Hrun as (r & Hr).
  destruct (sockets_used_in_turn 5 sample_world r Hr)
    as (calls & returned & Ht & Hd & _).
  exists calls, returned. split; [exact Ht | exact Hd].
Defined.

(** ** The text of the output *)

Lemma json_loop_later (entries : PacketMap.t) (text : list byte) :
  json_loop entries false text
  = text ++ concat (map (fun pair => [x2c; newline]
                                     ++ object_text (render (snd pair)))
                      entries).
Proof.
  revert text. induction entries as [| entry rest IH]; intros text;
    cbn [json_loop map concat].
  - rewrite app_nil_r. reflexivity.
  - rewrite IH, <- !app_assoc. reflexivity.
Qed.

Lemma join_cons (sep part : list byte) (parts : list (list byte)) :
  join sep (part :: parts) = part ++ concat (map (fun p => sep ++ p) parts).
Proof.
  revert part. induction parts as [| p parts IH]; intros part.
  - simpl. rewrite app_nil_r. reflexivity.
  - change (join sep (part :: p :: parts))
      with (part ++ sep ++ join sep (p :: parts)).
    rewrite IH. cbn [map concat]. rewrite <- !app_assoc. reflexivity.
Qed.

Lemma digits_injective (d d' : Decimal.uint) : digits d = digits d' -> d = d'.
Proof.
  revert d'. induction d as [| d IH | d IH | d IH | d IH | d IH | d IH
                             | d IH | d IH | d IH | d IH];
    intros d'; destruct d'; cbn [digits]; intros H;
    try discriminate H; try reflexivity;
    injection H as H; f_equal; exact (IH _ H).
Qed.

Lemma digits_no_minus (d : Decimal.uint) : ~ In x2d (digits d).
Proof.
  induction d; cbn [digits In];
    [intros [] | intros [H | H]; [discriminate H | auto] ..].
Qed.

Lemma to_string_injective (a b : Z) : to_string a = to_string b -> a = b.
Proof.
  unfold to_string. intros H.
  rewrite <- (DecimalZ.of_to a), <- (DecimalZ.of_to b).
  destruct (Z.to_int a) as [d | d], (Z.to_int b) as [d' | d'].
  - apply digits_injective in H. subst. reflexivity.
  - exfalso. apply (digits_no_minus d). rewrite H. left. reflexivity.
  - exfalso. apply (digits_no_minus d'). rewrite <- H. left. reflexivity.
  - injection H as H. apply digits_injective in H. subst. reflexivity.
Qed.

(** X13.  The content of the output file is an opening bracket line,
    the objects of the store in key order separated by a comma and a
    newline, with no separator before the first or after the last, and
    a closing bracket line; an empty store gives the bracket lines
    alone.  The three integers of an object are written in decimal so
    that different values are written differently. *)
Theorem json_text_layout (m : PacketMap.t) :
  json_text m
  = [x5b; newline]
    ++ join [x2c; newline] (map object_text (json_output m))
    ++ [newline; x5d; newline]
  /\ (m = [] -> json_text m = [x5b; newline; newline; x5d; newline])
  /\ (forall a b, to_string a = to_string b -> a = b).
Proof.
  split.
  - unfold json_text, json_output.
    destruct m as [| entry rest].
    + reflexivity.
    + cbn [json_loop map]. rewrite json_loop_later, join_cons.
      rewrite !map_map, <- !app_assoc. reflexivity.
  - split.
    + intros ->. reflexivity.
    + exact to_string_injective.
Qed.

(** ** The reads of a session stay inside the buffer *)

Lemma total_read_app (calls more : list call) :
  total_read (calls ++ more) = (total_read calls + total_read more)%nat.
Proof.
  unfold total_read.
  induction calls as [| c calls IH]; cbn [app fold_right];
    [reflexivity | rewrite IH; lia].
Qed.

Lemma resent_calls_inside (fuel : nat) (timed : bool) (sock : socket)
    (total : nat) :
  (total <= PACKET_SIZE)%nat ->
  let calls := resent_calls fuel timed sock total in
  (total + total_read calls <= PACKET_SIZE)%nat
  /\ (length calls <= PACKET_SIZE - total)%nat
  /\ (forall before len result after,
         calls = before ++ Recv len result :: after ->
         (1 <= len)%nat
         /\ (total + total_read before + len = PACKET_SIZE)%nat
         /\ (bytes_read (Recv len result) <= len)%nat).
Proof.
  revert sock total.
  induction fuel as [| fuel IH]; intros sock total Ht; cbn [resent_calls].
  - cbn zeta. unfold total_read. cbn [fold_right length].
    split; [lia |]. split; [lia |].
    intros before len result after H. destruct before; discriminate H.
  - destruct (Nat.ltb_spec total PACKET_SIZE) as [Hlt | Hge].
    + remember (PACKET_SIZE - total)%nat as n eqn:Hn.
      pose proof (recv_spec timed sock n) as Hrecv.
      assert (Hlast : forall result,
                 bytes_read (Recv n result) = 0%nat ->
                 let calls := [Recv n result] in
                 (total + total_read calls <= PACKET_SIZE)%nat
                 /\ (length calls <= n)%nat
                 /\ (forall before len result' after,
                        calls = before ++ Recv len result' :: after ->
                        (1 <= len)%nat
                        /\ (total + total_read before + len
                            = PACKET_SIZE)%nat
                        /\ (bytes_read (Recv len result') <= len)%nat)).
      { intros result H0. cbn zeta. unfold total_read. cbn [fold_right].
        rewrite H0. cbn [length].
        split; [lia |]. split; [lia |].
        intros before len result' after H.
        destruct before as [| b before]; cbn [app] in H;
          [| destruct before; discriminate H].
        injection H as E1 E2 _. rewrite <- E1, <- E2. cbn [fold_right].
        rewrite H0. lia. }
      destruct (recv timed sock n)
        as [[data | | e |] sock']; try (apply Hlast; reflexivity).
      destruct Hrecv as (Hne & Hlen & _); [lia |].
      pose proof (received_nonempty data Hne) as Hpos.
      destruct (IH sock' (total + length data)%nat) as (Hsum & Hcount & Hreq);
        [lia |].
      cbn zeta.
      set (rest := resent_calls fuel timed sock' (total + length data)) in *.
      assert (Etotal : forall more,
                 total_read (Recv n (Received data) :: more)
                 = (length data + total_read more)%nat) by reflexivity.
      split; [rewrite Etotal; lia |].
      split; [cbn [length]; lia |].
      intros before len result after H.
      destruct before as [| b before]; cbn [app] in H.
      * injection H as E1 E2 _. rewrite <- E1, <- E2.
        unfold total_read. cbn [fold_right bytes_read]. lia.
      * injection H as E1 H. rewrite <- E1.
        destruct (Hreq before len result after H) as (H1 & H2 & H3).
        split; [exact H1 |]. split; [| exact H3].
        rewrite Etotal. lia.
    + cbn zeta. unfold total_read. cbn [fold_right length].
      split; [lia |]. split; [lia |].
      intros before len result after H. destruct before; discriminate H.
Qed.

(** X14.  A recovery session reads one record and no more.  Each of
    its [recv] calls asks for exactly the bytes that are still missing
    from the 17, at least one, so that what it stores starts where the
    last read ended and ends at the end of the buffer, and returns no
    more than it asked for; the session makes at most 17 such calls and
    takes at most 17 bytes from the connection, whatever the peer
    sends. *)
Theorem session_reads_inside_buffer (timed : bool) (sock : socket) :
  let calls := resent_calls (S PACKET_SIZE) timed sock 0 in
  (total_read calls <= PACKET_SIZE)%nat
  /\ (length calls <= PACKET_SIZE)%nat
  /\ forallb is_recv calls = true
  /\ (forall before len result after,
         calls = before ++ Recv len result :: after ->
         (1 <= len)%nat
         /\ (total_read before + len = PACKET_SIZE)%nat
         /\ (bytes_read (Recv len result) <= len)%nat).
Proof.
  destruct (resent_calls_inside (S PACKET_SIZE) timed sock 0)
    as (Hsum & Hcount & Hreq); [lia |].
  cbn zeta.
  split; [exact Hsum |].
  split; [rewrite Nat.sub_0_r in Hcount; exact Hcount |].
  split; [apply resent_calls_read |].
  exact Hreq.
Qed.

(** ** The exit status *)

Lemma find_missing_more_fuel (fuel fuel' : nat) (m : PacketMap.t) (r : scan) :
  find_missing fuel m = Some r -> (fuel <= fuel')%nat ->
  find_missing fuel' m = Some r.
Proof. unfold find_missing. apply gap_loop_more_fuel. Qed.

(** A result of a run is its result with more fuel. *)
Lemma main_more_fuel (fuel fuel' : nat) (w : world) (r : run) :
  main fuel w = Some r -> (fuel <= fuel')%nat -> main fuel' w = Some r.
Proof.
  rewrite !main_eq. intros H Hle.
  destruct (set_up w); [| exact H].
  destruct (find_missing fuel (streamed_store w)) as [scanned |] eqn:Hscan.
  - rewrite (find_missing_more_fuel fuel fuel' _ scanned Hscan Hle).
    exact H.
  - destruct (script_end (initial_timeout_set w) (initial_peer w));
      try discriminate H; exact H.
Qed.

(** The scan throws only with the bound at [INT32_MAX]. *)
Lemma thrown_at_last_sequence (fuel : nat) (m : PacketMap.t) :
  find_missing fuel m = Some Thrown -> Int32.INT32_MAX <= max_sequence m.
Proof.
  intros Hthrown.
  destruct (Z.lt_ge_cases (max_sequence m) Int32.INT32_MAX) as [Hlt | Hge];
    [| exact Hge].
  set (fuel' := Nat.max fuel (S (Z.to_nat (max_sequence m)))).
  assert (Hfuel : (Z.to_nat (max_sequence m) < fuel')%nat) by lia.
  assert (Hle : (fuel <= fuel')%nat) by lia.
  pose proof (find_missing_exact fuel' m Hlt Hfuel) as Hexact.
  rewrite (find_missing_more_fuel fuel fuel' m Thrown Hthrown Hle) in Hexact.
  discriminate Hexact.
Qed.

Lemma sequence_in_range (raw_data : list byte) (offset : nat) :
  Int32.in_range (sequence (parse_packet raw_data offset)).
Proof.
  unfold parse_packet. cbn [sequence].
  rewrite combine_be_signed. apply signed32_range. reflexivity.
Qed.

Lemma streamed_keys (w : world) (k : Z) :
  In k (PacketMap.keys (streamed_store w))
  <-> exists packet, In packet (streamed w) /\ sequence packet = k.
Proof.
  unfold streamed_store. rewrite store_all_keys.
  split; [intros [[] | H]; exact H | intros H; right; exact H].
Qed.

Lemma streamed_top_range (w : world) :
  max_sequence (streamed_store w) <= Int32.INT32_MAX.
Proof.
  destruct (streamed_store w) as [| e m] eqn:Hstore.
  - change (max_sequence []) with 0. unfold Int32.INT32_MAX. lia.
  - rewrite <- Hstore.
    assert (Hne : streamed_store w <> []) by (rewrite Hstore; discriminate).
    pose proof (max_sequence_is_key _ Hne) as Hkey.
    apply streamed_keys in Hkey. destruct Hkey as (packet & Hin & <-).
    unfold streamed, decode_windows in Hin. apply in_map_iff in Hin.
    destruct Hin as (window & <- & _).
    apply (sequence_in_range window 0).
Qed.

Lemma not_streamed_absent (w : world) (a : Z) :
  (forall packet, In packet (streamed w) -> sequence packet <> a) ->
  PacketMap.find a (streamed_store w) = None.
Proof.
  intros Hnot. apply find_none_iff. intros Hin.
  apply streamed_keys in Hin. destruct Hin as (packet & Hin & Hseq).
  exact (Hnot packet Hin Hseq).
Qed.

(** A run has a result as soon as some number is not streamed. *)
Lemma main_result (w : world) (a : Z) :
  Int32.in_range a ->
  PacketMap.find a (streamed_store w) = None ->
  exists fuel0 r, forall fuel, (fuel0 <= fuel)%nat -> main fuel w = Some r.
Proof.
  intros Ha Habsent.
  assert (Hscan : exists fuel0 scanned, forall fuel,
             (fuel0 <= fuel)%nat ->
             find_missing fuel (streamed_store w) = Some scanned).
  { destruct (Z.lt_ge_cases (max_sequence (streamed_store w)) Int32.INT32_MAX)
      as [Hlt | Hge].
    - exists (S (Z.to_nat (max_sequence (streamed_store w)))).
      exists (Listed (gaps (streamed_store w))).
      intros fuel Hle. apply find_missing_exact; [exact Hlt | lia].
    - destruct (find_missing_throws (streamed_store w) a Hge Ha Habsent)
        as (fuel0 & Hthrows).
      exists fuel0, Thrown. exact Hthrows. }
  destruct Hscan as (fuel0 & scanned & Hscan).
  assert (Hrest : exists r, forall fuel,
             (fuel0 <= fuel)%nat ->
             match find_missing fuel (streamed_store w) with
             | None => None
             | Some Thrown => Some failed_run
             | Some (Listed missing) =>
                 match recover_all missing (server w) (streamed_store w) with
                 | None => None
                 | Some o => Some (finished w o)
                 end
             end = Some r).
  { destruct scanned as [missing |].
    - destruct (recover_all_total missing (server w) (streamed_store w))
        as (o & Ho).
      exists (finished w o). intros fuel Hle.
      rewrite (Hscan fuel Hle), Ho. reflexivity.
    - exists failed_run. intros fuel Hle.
      rewrite (Hscan fuel Hle). reflexivity. }
  destruct Hrest as (r & Hrest).
  exists fuel0.
  destruct (set_up w) eqn:Hset;
    [| exists failed_run; intros fuel _; rewrite main_eq, Hset; reflexivity].
  destruct (script_end (initial_timeout_set w) (initial_peer w)) eqn:Hend;
    try (exists r; intros fuel Hle; rewrite main_eq, Hset, Hend;
         exact (Hrest fuel Hle)).
  exists (hung_run []). intros fuel _. rewrite main_eq, Hset, Hend.
  reflexivity.
Qed.

(** X15.  The exit status tells what the run did.  When some 32-bit
    number is not a streamed sequence number (as in every feed of fewer
    than 2^32 records), the run has a result, the same for every
    sufficient number of loop iterations.  A run that fails to set up
    the first connection (socket, address, connect or send) exits with
    1 at once, having run no session and written nothing; a run writes
    its output exactly when it exits with 0; it exits with 1 otherwise
    only when the greatest streamed sequence number is [INT32_MAX] (the
    gap scan throws and the exception is caught at the end of [main])
    or when the output file cannot be opened; and it has no exit status
    only when a receive call without timeout never returns. *)
Theorem exit_status_tells (w : world) (a : Z) :
  let top := max_sequence (streamed_store w) in
  let setup_fails :=
    initial_socket_created w = false \/ initial_address_ok w = false
    \/ initial_connected w = false \/ initial_send_result w < 1 in
  Int32.in_range a ->
  (forall packet, In packet (streamed w) -> sequence packet <> a) ->
  exists fuel0 r,
    (forall fuel, (fuel0 <= fuel)%nat -> main fuel w = Some r)
    /\ (forall fuel r', main fuel w = Some r' -> r' = r)
    /\ (setup_fails -> r = failed_run)
    /\ (exit_status r = Some 0 <-> written r <> None)
    /\ (exit_status r = Some 0 ->
        ~ setup_fails
        /\ returns (initial_timeout_set w) (initial_peer w) = true
        /\ top < Int32.INT32_MAX
        /\ existsb stalled (sessions r) = false
        /\ output_file_opens w = true)
    /\ (exit_status r = Some 1 ->
        written r = None
        /\ (setup_fails
            \/ (returns (initial_timeout_set w) (initial_peer w) = true
                /\ top = Int32.INT32_MAX /\ sessions r = [])
            \/ output_file_opens w = false))
    /\ (exit_status r = None ->
        written r = None
        /\ (returns (initial_timeout_set w) (initial_peer w) = false
            \/ existsb stalled (sessions r) = true))
    /\ (exit_status r = Some 0 \/ exit_status r = Some 1
        \/ exit_status r = None).
Proof.
  intros top setup_fails Ha Hnot.
  pose proof (not_streamed_absent w a Hnot) as Habsent.
  destruct (main_result w a Ha Habsent) as (fuel0 & r & Hall).
  exists fuel0, r.
  split; [exact Hall |].
  split.
  { intros fuel r' Hr'.
    assert (Hle : (fuel <= Nat.max fuel fuel0)%nat) by lia.
    assert (Hle0 : (fuel0 <= Nat.max fuel fuel0)%nat) by lia.
    pose proof (main_more_fuel fuel (Nat.max fuel fuel0) w r' Hr' Hle) as H1.
    rewrite (Hall (Nat.max fuel fuel0) Hle0) in H1.
    injection H1 as ->. reflexivity. }
  assert (Hsf : setup_fails <-> set_up w = false)
    by (symmetry; apply set_up_fails).
  destruct (main_inv fuel0 w r (Hall fuel0 (le_n fuel0)))
    as [[Hset ->] | [(Hset & Hret & ->) | [(Hset & Hret & Hthrown & ->)
       | (Hset & Hret & missing & o & Hscan & Ho & ->)]]].
  - cbn [failed_run exit_status written sessions].
    split; [reflexivity |].
    split; [split; [discriminate | congruence] |].
    split; [discriminate |].
    split; [intros _; split; [reflexivity | left; apply Hsf; exact Hset] |].
    split; [discriminate |].
    right. left. reflexivity.
  - cbn [hung_run exit_status written sessions].
    split; [intros H; apply Hsf in H; congruence |].
    split; [split; [discriminate | congruence] |].
    split; [discriminate |].
    split; [discriminate |].
    split; [intros _; split; [reflexivity | left; exact Hret] |].
    right. right. reflexivity.
  - cbn [failed_run exit_status written sessions].
    split; [reflexivity |].
    split; [split; [discriminate | congruence] |].
    split; [discriminate |].
    split.
    { intros _. split; [reflexivity |]. right. left.
      split; [exact Hret |]. split; [| reflexivity].
      pose proof (thrown_at_last_sequence fuel0 _ Hthrown).
      pose proof (streamed_top_range w). unfold top. lia. }
    split; [discriminate |].
    right. left. reflexivity.
  - assert (Htop : top < Int32.INT32_MAX).
    { destruct (Z.lt_ge_cases top Int32.INT32_MAX) as [Hlt | Hge];
        [exact Hlt |].
      exfalso.
      apply (gap_loop_never_exits fuel0 1 top (streamed_store w) [] missing);
        [exact Hge | | exact Hscan].
      unfold Int32.in_range, Int32.INT32_MIN, Int32.INT32_MAX. lia. }
    split; [intros H; apply Hsf in H; congruence |].
    unfold finished.
    destruct (existsb stalled (snd o)) eqn:Hst;
      [| destruct (output_file_opens w) eqn:Hopen];
      cbn [hung_run exit_status written sessions].
    + split; [split; [discriminate | congruence] |].
      split; [discriminate |].
      split; [discriminate |].
      split; [intros _; split; [reflexivity | right; exact Hst] |].
      right. right. reflexivity.
    + split; [split; [discriminate | reflexivity] |].
      split.
      { intros _. split; [intros H; apply Hsf in H; congruence |].
        split; [exact Hret |]. split; [exact Htop |].
        split; [exact Hst | reflexivity]. }
      split; [discriminate |].
      split; [discriminate |].
      left. reflexivity.
    + split; [split; [discriminate | congruence] |].
      split; [discriminate |].
      split; [intros _; split; [reflexivity | right; right; reflexivity] |].
      split; [discriminate |].
      right. left. reflexivity.
Qed.

Lemma exit_status_tells_witness :
  exists fuel0 r,
    (forall fuel, (fuel0 <= fuel)%nat -> main fuel sample_world = Some r)
    /\ exit_status r = Some 0
    /\ written r <> None.
Proof.
  assert (Hrun : exists r5, main 5 sample_world = Some r5
                            /\ exit_status r5 = Some 0)
    by (eexists; split; [vm_compute; reflexivity | reflexivity]).
  destruct Hrun as (r5 & Hr5 & He).
  destruct (exit_status_tells sample_world 3)
    as (fuel0 & r & Hall & Huniq & _ & Hiff & _).
  - unfold Int32.in_range, Int32.INT32_MIN, Int32.INT32_MAX. lia.
  - assert (Hstreamed : streamed sample_world
                        = [parse_packet record_1 0; parse_packet record_2 0;
                           parse_packet record_4 0])
      by (vm_compute; reflexivity).
    rewrite Hstreamed. intros packet [<- | [<- | [<- | []]]];
      vm_compute; discriminate.
  - rewrite (Huniq 5%nat r5 Hr5) in He.
    exists fuel0, r. split; [exact Hall |]. split; [exact He |].
    apply Hiff. exact He.
Defined.

(** ** A feed whose gaps are all answered *)

Lemma sorted_ext (l l' : list Z) :
  StronglySorted Z.lt l -> StronglySorted Z.lt l' ->
  (forall k, In k l <-> In k l') -> l = l'.
Proof.
  intros Hl. revert l'.
  induction Hl as [| a l Hl IH Ha]; intros l' Hl' Hiff.
  - destruct l' as [| b l']; [reflexivity |].
    destruct (proj2 (Hiff b) (or_introl eq_refl)).
  - destruct l' as [| b l'].
    + destruct (proj1 (Hiff a) (or_introl eq_refl)).
    + inversion Hl' as [| b' l'' Hl'' Hb]; subst.
      rewrite Forall_forall in Ha, Hb.
      assert (Hab : a = b).
      { destruct (proj1 (Hiff a) (or_introl eq_refl)) as [H | H];
          [congruence |].
        destruct (proj2 (Hiff b) (or_introl eq_refl)) as [H' | H'];
          [congruence |].
        specialize (Ha b H'). specialize (Hb a H). lia. }
      subst b. f_equal. apply IH; [exact Hl'' |].
      intros k. split; intros Hk.
      * destruct (proj1 (Hiff k) (or_intror Hk)) as [H | H]; [| exact H].
        specialize (Ha k Hk). lia.
      * destruct (proj2 (Hiff k) (or_intror Hk)) as [H | H]; [| exact H].
        specialize (Hb k Hk). lia.
Qed.

Lemma one_to_spec (n k : Z) : In k (one_to n) <-> 1 <= k <= n.
Proof.
  unfold one_to. rewrite in_map_iff. split.
  - intros (i & <- & Hi). apply in_seq in Hi. lia.
  - intros Hk. exists (Z.to_nat (k - 1)). split; [lia |]. apply in_seq. lia.
Qed.

Lemma no_session_stalls {A : Type} (f : A -> Packet) (l : list A)
    (ss : list session_result) :
  map outcome ss = map (fun s => COMPLETE (f s)) l ->
  existsb stalled ss = false.
Proof.
  revert l. induction ss as [| s ss IH]; intros l H; [reflexivity |].
  destruct l as [| a l]; [discriminate H |].
  cbn [map] in H. injection H as Hs H.
  cbn [existsb]. unfold stalled at 1. rewrite Hs. cbn [orb].
  exact (IH l H).
Qed.

(** X16.  A feed with holes, served by a peer that answers, gives the
    whole range.  When the first connection is set up, the stream ends
    (by close, failure or timeout), every streamed record carries a
    sequence number of at least 1, the greatest of them is below
    INT32_MAX, and for every number of the range that was not streamed
    the session completes with a record carrying that number, then the
    run exits with 0 and the output holds exactly one object for each
    of 1, 2, ..., top in this order, [top] being the greatest sequence
    number streamed (0, and an empty output, when nothing was). *)
Theorem cooperative_run_is_complete (fuel : nat) (w : world) :
  let streamed := decode_windows (delivered (initial_peer w)) in
  let top := max_sequence (store_all streamed PacketMap.empty) in
  initial_socket_created w = true ->
  initial_address_ok w = true ->
  initial_connected w = true ->
  1 <= initial_send_result w ->
  returns (initial_timeout_set w) (initial_peer w) = true ->
  Forall (fun packet => 1 <= sequence packet) streamed ->
  top < Int32.INT32_MAX ->
  (Z.to_nat top < fuel)%nat ->
  (forall s, 1 <= s <= top ->
             (forall packet, In packet streamed -> sequence packet <> s) ->
             session_completes (server w s) = true
             /\ sequence (resent_packet_of (server w s)) = s) ->
  output_file_opens w = true ->
  exists r out,
    main fuel w = Some r
    /\ exit_status r = Some 0
    /\ written r = Some out
    /\ map js_packetSequence out = one_to top
    /\ (forall packet, In packet streamed -> sequence packet <= top)
    /\ (streamed <> [] ->
        exists packet, In packet streamed /\ sequence packet = top).
Proof.
  intros streamed top Hsock Haddr Hconn Hsend Hret Hpos Htop Hfuel Hserver
    Hopen.
  set (received := store_all streamed PacketMap.empty) in *.
  assert (Hwf : PacketMap.ordered received /\ keyed_by_sequence received).
  { split; [apply store_all_ordered | apply store_all_keyed]; constructor. }
  assert (Hkeys : forall k, In k (PacketMap.keys received)
                            <-> exists packet,
                                  In packet streamed /\ sequence packet = k).
  { intros k. unfold received. rewrite store_all_keys.
    split; [intros [[] | H]; exact H | intros H; right; exact H]. }
  assert (Hanswer : forall s, In s (gaps received) ->
                      session_completes (server w s) = true
                      /\ sequence (resent_packet_of (server w s)) = s).
  { intros s Hs. apply gaps_spec in Hs. destruct Hs as (Hs & Hnot).
    apply Hserver; [exact Hs |].
    intros packet Hin Heq. apply Hnot. apply Hkeys. exists packet.
    split; [exact Hin | exact Heq]. }
  destruct (gaps_filled_when_answered received fuel (server w)
              (proj1 Hwf) Htop Hfuel Hanswer)
    as (missing & o & Hm & Ho & Hcover & Hmem & _).
  pose proof (find_missing_exact fuel received Htop Hfuel) as Hexact.
  rewrite Hexact in Hm. injection Hm as <-.
  destruct (recover_all_answered (gaps received) (server w) received
              (fun s Hs => proj1 (Hanswer s Hs)))
    as (o' & Ho' & _ & Hout).
  rewrite Ho in Ho'. injection Ho' as <-.
  pose proof (no_session_stalls _ _ _ Hout) as Hns.
  destruct (recover_all_well_formed _ _ _ _ Ho Hwf) as (Hord & Hkeyed).
  exists {| exit_status := Some 0;
            written := Some (json_output (fst o));
            sessions := snd o |}, (json_output (fst o)).
  split.
  { unfold main. rewrite Hsock, Haddr, Hconn. cbn [negb].
    destruct (Z.ltb_spec (initial_send_result w) 1) as [Hlt | _]; [lia |].
    rewrite receive_stream_spec. cbn [bind fst snd].
    change (received_packets
              (absorb (delivered (initial_peer w))
                 (initial_stream_state PacketMap.empty)))
      with received.
    rewrite Hexact. cbn [bind]. rewrite Ho. cbn [bind].
    rewrite Hns, Hopen.
    unfold returns in Hret.
    destruct (script_end (initial_timeout_set w) (initial_peer w));
      try reflexivity; discriminate Hret. }
  split; [reflexivity |]. split; [reflexivity |].
  split.
  { rewrite (json_output_sequences _ Hkeyed).
    apply sorted_ext;
      [exact Hord | apply (range_strongly_sorted 0 (Z.to_nat top) 1) |].
    intros k. rewrite one_to_spec. split.
    - intros Hk. apply Hmem in Hk. destruct Hk as [Hk | Hk].
      + split.
        * apply Hkeys in Hk. destruct Hk as (packet & Hin & <-).
          rewrite Forall_forall in Hpos. exact (Hpos packet Hin).
        * apply max_sequence_greatest; [exact (proj1 Hwf) | exact Hk].
      + apply gaps_spec in Hk. exact (proj1 Hk).
    - apply Hcover. }
  split.
  { intros packet Hin.
    apply max_sequence_greatest; [exact (proj1 Hwf) |].
    apply Hkeys. exists packet. split; [exact Hin | reflexivity]. }
  intros Hne.
  apply Hkeys. apply max_sequence_is_key.
  intros Hempty.
  destruct streamed as [| packet rest] eqn:Hstreamed; [congruence |].
  assert (Hin : In (sequence packet) (PacketMap.keys received)).
  { apply Hkeys. exists packet. split; [left; reflexivity | reflexivity]. }
  rewrite Hempty in Hin. exact Hin.
Qed.

Lemma cooperative_run_is_complete_witness :
  exists r out,
    main 5 sample_world = Some r
    /\ exit_status r = Some 0
    /\ written r = Some out
    /\ map js_packetSequence out = [1; 2; 3; 4].
Proof.
  assert (Hstreamed : decode_windows (delivered (initial_peer sample_world))
                      = [parse_packet record_1 0; parse_packet record_2 0;
                         parse_packet record_4 0])
    by (vm_compute; reflexivity).
  assert (Htop : max_sequence
                   (store_all
                      (decode_windows (delivered (initial_peer sample_world)))
                      PacketMap.empty) = 4)
    by (vm_compute; reflexivity).
  destruct (cooperative_run_is_complete 5 sample_world)
    as (r & out & Hr & He & Hw & Hseq & _).
  - reflexivity.
  - reflexivity.
  - reflexivity.
  - vm_compute. discriminate.
  - reflexivity.
  - rewrite Hstreamed.
    repeat (constructor; [vm_compute; discriminate |]). constructor.
  - rewrite Htop. reflexivity.
  - rewrite Htop. vm_compute. lia.
  - rewrite Htop, Hstreamed. intros s Hs Hnot.
    assert (Hcases : s = 1 \/ s = 2 \/ s = 3 \/ s = 4) by lia.
    destruct Hcases as [-> | [-> | [-> | ->]]].
    + exfalso. apply (Hnot (parse_packet record_1 0));
        [left; reflexivity | reflexivity].
    + exfalso. apply (Hnot (parse_packet record_2 0));
        [right; left; reflexivity | reflexivity].
    + split; reflexivity.
    + exfalso. apply (Hnot (parse_packet record_4 0));
        [right; right; left; reflexivity | reflexivity].
  - reflexivity.
  - rewrite Htop in Hseq.
    exists r, out. split; [exact Hr |]. split; [exact He |].
    split; [exact Hw | exact Hseq].
Defined.

(** ** Segmentation *)

(** What the receive loop of a session does on fewer than 17 bytes. *)
Lemma resent_loop_short (fuel : nat) (seq : Z) (timed : bool)
    (sock : socket) (buf : list byte) (total : nat) :
  (PACKET_SIZE - total < fuel)%nat ->
  (total + length (delivered sock) < PACKET_SIZE)%nat ->
  exists buf',
    resent_loop fuel seq timed sock buf total
    = Some (match script_end timed sock with
            | ServerClosed =>
                Exits 0 buf'
                  [ErrClosedEarly seq (total + length (delivered sock))]
            | ReceiveTimeout => Exits 0 buf' [ErrReceiveTimeout seq]
            | ReceiveError e => Exits 0 buf' [ErrReceive seq e]
            | NeverReturns => Hangs
            end).
Proof.
  revert sock buf total.
  induction fuel as [| fuel IH]; intros sock buf total Hfuel Hd; [lia |].
  cbn [resent_loop].
  destruct (Nat.ltb_spec total PACKET_SIZE) as [Hlt | Hge]; [| lia].
  pose proof (recv_spec timed sock (PACKET_SIZE - total)) as Hrecv.
  destruct (recv timed sock (PACKET_SIZE - total)) as [[data | | e |] sock'].
  - destruct Hrecv as (Hne & Hlen & Hdel & Hend & _); [lia |].
    pose proof (received_nonempty data Hne) as Hpos.
    rewrite Hdel, length_app in Hd.
    destruct (IH sock' (write_at buf total data) (total + length data)%nat)
      as (buf' & ->); [lia | lia |].
    exists buf'. rewrite Hend, Hdel, length_app, Nat.add_assoc. reflexivity.
  - destruct Hrecv as (Hdel & Hend); [lia |].
    rewrite Hend, Hdel. cbn [length]. rewrite Nat.add_0_r.
    exists buf. reflexivity.
  - destruct Hrecv as (_ & Hend); [lia |].
    rewrite Hend. exists buf. destruct (is_timeout e); reflexivity.
  - destruct Hrecv as (_ & Hend); [lia |].
    rewrite Hend. exists buf. reflexivity.
Qed.

Lemma receive_resent_traffic (seq : Z) (timed : bool) (sock sock' : socket) :
  delivered sock = delivered sock' ->
  script_end timed sock = script_end timed sock' ->
  match receive_resent seq timed sock, receive_resent seq timed sock' with
  | Some (Exits n data ds), Some (Exits n' data' ds') =>
      n = n' /\ ds = ds' /\ (n = PACKET_SIZE -> data = data')
  | Some Hangs, Some Hangs => True
  | _, _ => False
  end.
Proof.
  intros Hdel Hend.
  destruct (Nat.le_gt_cases PACKET_SIZE (length (delivered sock)))
    as [Hfull | Hshort].
  - rewrite (receive_resent_complete seq timed sock Hfull).
    rewrite (receive_resent_complete seq timed sock')
      by (rewrite <- Hdel; exact Hfull).
    rewrite Hdel. split; [reflexivity |]. split; reflexivity.
  - unfold receive_resent.
    destruct (resent_loop_short (S PACKET_SIZE) seq timed sock
                (repeat x00 PACKET_SIZE) 0) as (buf & ->); [lia | lia |].
    destruct (resent_loop_short (S PACKET_SIZE) seq timed sock'
                (repeat x00 PACKET_SIZE) 0) as (buf' & ->);
      [lia | rewrite <- Hdel; lia |].
    rewrite <- Hend, <- Hdel.
    destruct (script_end timed sock); try exact I;
      (split; [reflexivity |]; split; [reflexivity |];
       intros H; discriminate H).
Qed.

Lemma session_depends_on_traffic (seq : Z) (env env' : resend_env)
    (m : PacketMap.t) :
  same_traffic env env' ->
  resend_session seq env m = resend_session seq env' m.
Proof.
  intros (Hs & Ht & Ha & Hc & Hn & Hdel & Hend).
  unfold resend_session. rewrite <- Hs, <- Ht, <- Ha, <- Hc, <- Hn.
  rewrite <- Ht in Hend.
  destruct (socket_created env); cbn [negb]; [| reflexivity].
  destruct (address_ok env); cbn [negb]; [| reflexivity].
  destruct (connected env); cbn [negb]; [| reflexivity].
  destruct (send_result env =? -1); [reflexivity |].
  destruct (send_result env =? 2); [| reflexivity].
  pose proof (receive_resent_traffic seq (timeout_set env) (peer env)
                (peer env') Hdel Hend) as H.
  destruct (receive_resent seq (timeout_set env) (peer env))
    as [[n data ds |] |];
    destruct (receive_resent seq (timeout_set env) (peer env'))
      as [[n' data' ds' |] |]; try contradiction; cbn [bind];
    [| reflexivity].
  destruct H as (<- & <- & Hdata).
  destruct (Nat.eqb_spec n PACKET_SIZE) as [Hn17 | _]; [| reflexivity].
  rewrite (Hdata Hn17). reflexivity.
Qed.

Lemma recover_all_traffic (missing : list Z) (server server' : Z -> resend_env)
    (m : PacketMap.t) :
  (forall s, same_traffic (server s) (server' s)) ->
  recover_all missing server m = recover_all missing server' m.
Proof.
  intros Hsame. revert m.
  induction missing as [| s rest IH]; intros m; cbn [recover_all];
    [reflexivity |].
  rewrite (session_depends_on_traffic s (server s) (server' s) m (Hsame s)).
  destruct (resend_session s (server' s) m) as [r |]; cbn [bind];
    [| reflexivity].
  destruct (stalled r); [reflexivity |].
  rewrite IH. reflexivity.
Qed.

(** X17.  A run does not depend on how the bytes arrive.  Two runs
    whose calls succeed alike and whose peers, on the first connection
    and in every recovery session, deliver the same bytes and end in
    the same way (close, error, timeout, or silence) have the same exit
    status, the same output and the same sessions with the same
    diagnostics, however differently the bytes are cut into the pieces
    that [recv] returns. *)
Theorem run_independent_of_segmentation (fuel : nat) (w w' : world) :
  same_feed w w' -> main fuel w = main fuel w'.
Proof.
  intros (Hs & Ht & Ha & Hc & Hn & Hdel & Hend & Hserver & Hopen).
  unfold main. rewrite <- Hs, <- Ht, <- Ha, <- Hc, <- Hn, <- Hopen.
  rewrite <- Ht in Hend.
  rewrite !receive_stream_spec. cbn [bind fst snd].
  rewrite <- Hdel, <- Hend.
  destruct (initial_socket_created w); cbn [negb]; [| reflexivity].
  destruct (initial_address_ok w); cbn [negb]; [| reflexivity].
  destruct (initial_connected w); cbn [negb]; [| reflexivity].
  destruct (initial_send_result w <? 1); [reflexivity |].
  destruct (script_end (initial_timeout_set w) (initial_peer w));
    try reflexivity;
    (destruct (find_missing fuel _) as [[missing |] |]; cbn [bind];
     [| reflexivity | reflexivity];
     rewrite (recover_all_traffic missing (server w) (server w') _ Hserver);
     reflexivity).
Qed.

Lemma run_independent_of_segmentation_witness :
  main 5 sample_world = main 5 resegmented_world.
Proof.
  apply (run_independent_of_segmentation 5 sample_world resegmented_world).
  unfold same_feed.
  split; [reflexivity |]. split; [reflexivity |]. split; [reflexivity |].
  split; [reflexivity |]. split; [reflexivity |]. split; [reflexivity |].
  split; [reflexivity |]. split; [| reflexivity].
  intros s. unfold same_traffic.
  split; [reflexivity |]. split; [reflexivity |]. split; [reflexivity |].
  split; [reflexivity |]. split; [reflexivity |]. split; reflexivity.
Defined.

(** ** Termination of a run *)

(** X18.  A run whose greatest streamed sequence number is below
    INT32_MAX has a result, and one only: the gap scan and every
    session end (or the run is stuck in a [recv] without timeout, which
    is a result with no exit status), and the result is the same for
    every number of loop iterations allowed above that number.  At
    INT32_MAX, once the first connection is set up and the stream has
    ended, the gap scan never gives its list: it goes round the 32-bit
    numbers, appending those that were not streamed, until [push_back]
    throws; the exception is caught at the end of [main] and the run
    exits with 1, with no session run and nothing written.  In every
    case more iterations allowed never change a result. *)
Theorem run_has_one_result (w : world) :
  let top :=
    max_sequence
      (store_all (decode_windows (delivered (initial_peer w)))
         PacketMap.empty) in
  (top < Int32.INT32_MAX ->
   exists r, forall fuel, (Z.to_nat top < fuel)%nat -> main fuel w = Some r)
  /\ (top = Int32.INT32_MAX ->
      initial_socket_created w = true -> initial_address_ok w = true ->
      initial_connected w = true -> 1 <= initial_send_result w ->
      returns (initial_timeout_set w) (initial_peer w) = true ->
      (forall fuel r,
         main fuel w = Some r ->
         r = {| exit_status := Some 1; written := None; sessions := [] |})
      /\ (forall a,
            Int32.in_range a ->
            (forall packet,
               In packet (decode_windows (delivered (initial_peer w))) ->
               sequence packet <> a) ->
            exists fuel0, forall fuel,
              (fuel0 <= fuel)%nat ->
              main fuel w
              = Some {| exit_status := Some 1; written := None;
                        sessions := [] |}))
  /\ (forall fuel fuel' r,
        main fuel w = Some r -> (fuel <= fuel')%nat -> main fuel' w = Some r).
Proof.
  intros top.
  change (store_all (decode_windows (delivered (initial_peer w)))
            PacketMap.empty) with (streamed_store w) in top.
  split; [| split].
  - intros Htop.
    destruct (recover_all_total (gaps (streamed_store w)) (server w)
                (streamed_store w)) as (o & Ho).
    destruct (set_up w) eqn:Hset;
      [| exists failed_run; intros fuel _; rewrite main_eq, Hset;
         reflexivity].
    destruct (script_end (initial_timeout_set w) (initial_peer w)) eqn:Hend;
      try (exists (finished w o); intros fuel Hfuel;
           rewrite main_eq, Hset, Hend,
             (find_missing_exact fuel (streamed_store w) Htop Hfuel), Ho;
           reflexivity).
    exists (hung_run []). intros fuel _. rewrite main_eq, Hset, Hend.
    reflexivity.
  - intros Htop Hs Ha Hc Hn Hret.
    assert (Hset : set_up w = true)
      by (apply set_up_flags; repeat split; assumption).
    split.
    + intros fuel r Hr.
      destruct (main_inv fuel w r Hr)
        as [[Hset' _] | [(_ & Hret' & _) | [(_ & _ & _ & ->)
           | (_ & _ & missing & o & Hscan & _)]]].
      * congruence.
      * congruence.
      * reflexivity.
      * exfalso.
        apply (gap_loop_never_exits fuel 1 top (streamed_store w) []
                 missing); [lia | | exact Hscan].
        unfold Int32.in_range, Int32.INT32_MIN, Int32.INT32_MAX. lia.
    + intros a Hrange Hnot.
      destruct (find_missing_throws (streamed_store w) a)
        as (fuel0 & Hthrows);
        [fold top; lia | exact Hrange
         | apply not_streamed_absent; exact Hnot |].
      exists fuel0. intros fuel Hle.
      rewrite main_eq, Hset, (Hthrows fuel Hle).
      unfold returns in Hret.
      destruct (script_end (initial_timeout_set w) (initial_peer w));
        try reflexivity; discriminate Hret.
  - intros fuel fuel' r. apply main_more_fuel.
Qed.

Lemma run_has_one_result_witness :
  exists fuel0, forall fuel,
    (fuel0 <= fuel)%nat -> main fuel last_sequence_world = Some failed_run.
Proof.
  destruct (run_has_one_result last_sequence_world) as (_ & Hlast & _).
  destruct Hlast as (_ & Hthrows).
  - vm_compute. reflexivity.
  - reflexivity.
  - reflexivity.
  - reflexivity.
  - vm_compute. discriminate.
  - reflexivity.
  - apply (Hthrows 1).
    + unfold Int32.in_range, Int32.INT32_MIN, Int32.INT32_MAX. lia.
    + intros packet [<- | []]. vm_compute. discriminate.
Defined.

(** ** Records numbered zero or below *)

(** C10.  A streamed packet whose decoded sequence number is zero or
    negative is stored by the streaming loop like any other: its number
    is a key of the store, under which the last packet streamed with
    that number is found.  Whenever the run writes its output, the
    number is the [packetSequence] of an object of the output, which is
    ascending by sequence number, and the packet itself is rendered
    there when it is the last one streamed with its number and no
    completed session received a record with that number (a later
    record with the same number replaces it, as under any key).  The
    number is never in the list of missing sequence numbers, of this
    run or of any store, every member of such a list being at least 1;
    and when every streamed number is negative the greatest key is
    negative, the gap scan ends at once with an empty list, no session
    runs and the output renders the streamed store. *)
Theorem nonpositive_sequence_stored_never_recovered
    (fuel : nat) (w : world) (r : run) (out : list json_object)
    (packet : Packet) :
  main fuel w = Some r ->
  written r = Some out ->
  In packet (streamed w) ->
  sequence packet <= 0 ->
  In (sequence packet) (PacketMap.keys (streamed_store w))
  /\ (last_with_sequence (sequence packet) (streamed w) = Some packet ->
      PacketMap.find (sequence packet) (streamed_store w) = Some packet)
  /\ (forall st,
        let first := parse_packet (receive_buffer st) 0 in
        PacketMap.find (sequence first) (received_packets (take_packet st))
        = Some first)
  /\ In (sequence packet) (map js_packetSequence out)
  /\ (last_with_sequence (sequence packet) (streamed w) = Some packet ->
      (forall s resent,
         In s (sessions r) -> outcome s = COMPLETE resent ->
         sequence resent <> sequence packet) ->
      In (render packet) out)
  /\ StronglySorted Z.lt (map js_packetSequence out)
  /\ (exists missing,
        find_missing fuel (streamed_store w) = Some (Listed missing)
        /\ ~ In (sequence packet) missing
        /\ (forall s, In s missing -> 1 <= s)
        /\ (length (sessions r) <= length missing)%nat)
  /\ (forall store fuel' missing,
        find_missing fuel' store = Some (Listed missing) ->
        ~ In (sequence packet) missing
        /\ forall s, In s missing -> 1 <= s)
  /\ (Forall (fun other => sequence other < 0) (streamed w) ->
      max_sequence (streamed_store w) < 0
      /\ find_missing fuel (streamed_store w) = Some (Listed [])
      /\ sessions r = []
      /\ out = json_output (streamed_store w))
  /\ (forall other,
        other <> [] ->
        Forall (fun k => k < 0) (PacketMap.keys other) ->
        max_sequence other < 0
        /\ forall fuel', find_missing (S fuel') other = Some (Listed [])).
Proof.
  intros Hrun Hout Hin Hseq.
  destruct (main_written_store fuel w r out Hrun Hout)
    as (missing & o & Hscan & Ho & _ & -> & Hsess & _ & _).
  destruct (recover_all_frame missing (server w) (streamed_store w) o Ho)
    as (Hkeep & _ & Hsame & Hlen).
  destruct (recover_all_well_formed missing (server w) (streamed_store w) o
              Ho (streamed_store_well_formed w)) as [Hord Hkeyed].
  assert (Hkey : In (sequence packet) (PacketMap.keys (streamed_store w))).
  { apply streamed_keys. exists packet. split; [exact Hin | reflexivity]. }
  assert (Hfind : last_with_sequence (sequence packet) (streamed w)
                  = Some packet ->
                  PacketMap.find (sequence packet) (streamed_store w)
                  = Some packet).
  { intros Hlast. unfold streamed_store.
    rewrite find_store_all, Hlast. reflexivity. }
  assert (Hnever : forall store fuel' missing',
             find_missing fuel' store = Some (Listed missing') ->
             ~ In (sequence packet) missing'
             /\ forall s, In s missing' -> 1 <= s).
  { intros store fuel' missing' Hmiss.
    pose proof (find_missing_sound fuel' store missing' Hmiss) as Hsound.
    split.
    - intros Hmem. destruct (Hsound _ Hmem) as [Hpos _]. lia.
    - intros s Hmem. exact (proj1 (Hsound s Hmem)). }
  assert (Hnegative : forall other,
             other <> [] ->
             Forall (fun k => k < 0) (PacketMap.keys other) ->
             max_sequence other < 0
             /\ forall fuel', find_missing (S fuel') other = Some (Listed [])).
  { intros other Hne Hneg.
    pose proof (negative_keys_no_gap other Hne Hneg) as Hmax.
    split; [exact Hmax |].
    intros fuel'. unfold find_missing. cbn [gap_loop].
    destruct (Z.leb_spec 1 (max_sequence other)); [lia | reflexivity]. }
  split; [exact Hkey |].
  split; [exact Hfind |].
  split; [intros st first; apply find_assign_same |].
  split; [rewrite (json_output_sequences (fst o) Hkeyed);
          apply Hkeep; exact Hkey |].
  split.
  { intros Hlast Hnone.
    apply (json_output_in (fst o) (sequence packet)).
    apply find_some_in.
    rewrite Hsame; [exact (Hfind Hlast) |].
    intros s resent Hs Hcomplete.
    apply (Hnone s resent); [rewrite Hsess; exact Hs | exact Hcomplete]. }
  split; [rewrite (json_output_sequences (fst o) Hkeyed); exact Hord |].
  split.
  { exists missing. split; [exact Hscan |].
    destruct (Hnever _ _ _ Hscan) as [Hnot Hpos].
    split; [exact Hnot |]. split; [exact Hpos |].
    rewrite Hsess. exact Hlen. }
  split; [exact Hnever |].
  split; [| exact Hnegative].
  intros Hneg.
  assert (Hne : streamed_store w <> []).
  { intros Hempty. rewrite Hempty in Hkey. exact Hkey. }
  assert (Hkeys : Forall (fun k => k < 0) (PacketMap.keys (streamed_store w))).
  { apply Forall_forall. intros k Hk. apply streamed_keys in Hk.
    destruct Hk as (other & Hother & <-).
    rewrite Forall_forall in Hneg. exact (Hneg other Hother). }
  destruct (Hnegative _ Hne Hkeys) as [Hmax Hempty].
  split; [exact Hmax |].
  destruct fuel as [| fuel]; [discriminate Hscan |].
  pose proof (Hempty fuel) as Hnil.
  rewrite Hnil in Hscan. injection Hscan as <-.
  cbn [recover_all] in Ho. injection Ho as <-.
  split; [exact Hnil |]. split; [exact Hsess | reflexivity].
Qed.

Lemma nonpositive_sequence_stored_never_recovered_witness :
  exists r out,
    main 5 negative_world = Some r
    /\ written r = Some out
    /\ sequence (parse_packet record_minus_1 0) = -1
    /\ In (render (parse_packet record_minus_1 0)) out
    /\ map js_packetSequence out = [-1; 1; 2].
Proof.
  assert (Hrun : exists r out,
             main 5 negative_world = Some r
             /\ written r = Some out
             /\ sessions r = []
             /\ map js_packetSequence out = [-1; 1; 2]).
  { eexists. eexists. split; [vm_compute; reflexivity |].
    split; [reflexivity |]. split; reflexivity. }
  destruct Hrun as (r & out & Hr & Hout & Hsess & Hseqs).
  exists r, out.
  split; [exact Hr |]. split; [exact Hout |]. split; [reflexivity |].
  split; [| exact Hseqs].
  destruct (nonpositive_sequence_stored_never_recovered
              5 negative_world r out (parse_packet record_minus_1 0) Hr Hout)
    as (_ & _ & _ & _ & Hrendered & _).
  - left. reflexivity.
  - vm_compute. discriminate.
  - apply Hrendered.
    + vm_compute. reflexivity.
    + rewrite Hsess. intros s resent [].
Defined.

(** C10, where the record does not reach the output.  The feed
    delivers the records 1, -1 and 3; the session for the missing 2 is
    answered with another record numbered -1, which is stored under -1
    in place of the streamed one: the output has an object numbered -1,
    and it is not the streamed record. *)
Lemma nonpositive_record_replaced_by_resend :
  exists r out,
    main 5 replaced_world = Some r
    /\ exit_status r = Some 0
    /\ written r = Some out
    /\ In (parse_packet record_minus_1 0) (streamed replaced_world)
    /\ sequence (parse_packet record_minus_1 0) = -1
    /\ map js_packetSequence out = [-1; 1; 3]
    /\ map outcome (sessions r)
       = [COMPLETE (parse_packet record_minus_1_again 0)]
    /\ In (render (parse_packet record_minus_1_again 0)) out
    /\ ~ In (render (parse_packet record_minus_1 0)) out.
Proof.
  eexists. eexists.
  split; [vm_compute; reflexivity |].
  split; [reflexivity |]. split; [reflexivity |].
  split; [right; left; reflexivity |].
  split; [reflexivity |]. split; [reflexivity |]. split; [reflexivity |].
  split; [left; reflexivity |].
  intros [H | [H | [H | []]]]; discriminate H.
Qed.
